(** * Block Till You Drop: the simulation core of [src/main.cpp]

    A shallow embedding of the grid model, the floating-cluster resolver,
    the falling-shape update, the break action with its power effects and
    the full-row clear, followed by the properties of the specification
    that were checked against it.

    Conventions of the embedding.
    - C++ [int] values are integers of [Z].  Every integer the program
      computes is a grid coordinate or a small multiple of [CELL], far
      from the limits of a 32-bit [int].
    - C++ [float] values (pixel positions, speeds, timers, the time step)
      are exact rationals of [Q]: rounding is not modelled.  The cast
      [(int)f] truncates toward zero ([to_int]).
    - The arrays [bool occ[ROWS][COLS]], [bool visited[ROWS][COLS]] and
      [BlockType typeAt[ROWS][COLS]] are functions of a row and a column;
      the program only indexes them inside the grid.
    - [std::vector] is [list]; [push_back] appends at the end;
      [std::queue] is a list popped at its head. *)

From Stdlib Require Import ZArith QArith Qround Bool List Lia Lqa FinFun Permutation Sorted.
Import ListNotations.

Local Open Scope Z_scope.

(** ** Constants *)

Definition SCREEN_WIDTH : Z := 480.
Definition SCREEN_HEIGHT : Z := 600.
Definition CELL : Z := 30.
Definition COLS : Z := SCREEN_WIDTH / CELL.
Definition ROWS : Z := SCREEN_HEIGHT / CELL.

(** ** Data model *)

Inductive BlockType : Type := NORMAL | BOMB | FREEZE | LASER_H | LASER_V.

Definition BlockType_eqb (a b : BlockType) : bool :=
  match a, b with
  | NORMAL, NORMAL | BOMB, BOMB | FREEZE, FREEZE
  | LASER_H, LASER_H | LASER_V, LASER_V => true
  | _, _ => false
  end.

Record Block : Type := mkBlock { bcol : Z; brow : Z; btype : BlockType }.

(** [SDL_Point]: field [x] is a column, field [y] a row. *)
Record SDL_Point : Type := mkPoint { pt_x : Z; pt_y : Z }.

(** [SDL_Rect], used for the player. *)
Record SDL_Rect : Type := mkRect { rx : Z; ry : Z; rw : Z; rh : Z }.

Record FallingShape : Type := mkShape {
  fs_x : Q;
  fs_y : Q;
  fs_speed : Q;
  fs_cells : list SDL_Point;
  fs_types : list BlockType
}.

(** The cast [(int)f]: truncation toward zero. *)
Definition to_int (f : Q) : Z :=
  if Qle_bool 0 f then Qfloor f else Qceiling f.

(** The conversion [(float)n]. *)
Definition of_int (n : Z) : Q := inject_Z n.

(** ** Grids *)

Definition grid (A : Type) : Type := Z -> Z -> A.

Definition grid_const {A} (v : A) : grid A := fun _ _ => v.

(** The assignment [g[r][c] = v]. *)
Definition grid_set {A} (g : grid A) (r c : Z) (v : A) : grid A :=
  fun r' c' => if (r' =? r) && (c' =? c) then v else g r' c'.

Definition in_grid (c r : Z) : bool :=
  (0 <=? r) && (r <? ROWS) && (0 <=? c) && (c <? COLS).

(** [buildOcc]: clear the array, then mark the cell of every block that
    lies inside the grid. *)
Definition buildOcc (blocks : list Block) : grid bool :=
  fold_left
    (fun occ b =>
       if in_grid (bcol b) (brow b)
       then grid_set occ (brow b) (bcol b) true
       else occ)
    blocks (grid_const false).

(** The [typeAt] array of [resolveFloatingClusters]: the last block of
    the list written to a cell decides its type. *)
Definition buildTypeAt (blocks : list Block) : grid BlockType :=
  fold_left
    (fun ty b =>
       if in_grid (bcol b) (brow b)
       then grid_set ty (brow b) (bcol b) (btype b)
       else ty)
    blocks (grid_const NORMAL).

(** ** The floating-cluster resolver *)

(** The four neighbours of [p], in the order of the arrays
    [dc = {1,-1,0,0}] and [dr = {0,0,1,-1}]. *)
Definition neighbours (p : SDL_Point) : list SDL_Point :=
  [ mkPoint (pt_x p + 1) (pt_y p);
    mkPoint (pt_x p + -1) (pt_y p);
    mkPoint (pt_x p) (pt_y p + 1);
    mkPoint (pt_x p) (pt_y p + -1) ].

(** One turn of the loop over [k]: the state is the [visited] array and
    the queue. *)
Definition expand (occ : grid bool)
    (st : grid bool * list SDL_Point) (n : SDL_Point)
    : grid bool * list SDL_Point :=
  let '(visited, q) := st in
  let nc := pt_x n in
  let nr := pt_y n in
  if (nc <? 0) || (nc >=? COLS) || (nr <? 0) || (nr >=? ROWS) then st
  else if negb (occ nr nc) || visited nr nc then st
  else (grid_set visited nr nc true, q ++ [n]).

Record bfs_state : Type := mkBfs {
  bq : list SDL_Point;
  bvisited : grid bool;
  bcells : list SDL_Point
}.

(** One turn of [while (!q.empty())]; [None] when the queue is empty. *)
Definition bfs_step (occ : grid bool) (st : bfs_state) : option bfs_state :=
  match bq st with
  | [] => None
  | p :: q' =>
      let '(visited', q'') :=
        fold_left (expand occ) (neighbours p) (bvisited st, q') in
      Some (mkBfs q'' visited' (bcells st ++ [p]))
  end.

(** The [while] loop, run for at most [fuel] turns. *)
Fixpoint bfs_loop (fuel : nat) (occ : grid bool) (st : bfs_state) : bfs_state :=
  match fuel with
  | O => st
  | S fuel' =>
      match bfs_step occ st with
      | None => st
      | Some st' => bfs_loop fuel' occ st'
      end
  end.

(** Every turn of the loop pops a cell that was marked when pushed, and a
    cell is marked at most once: [ROWS * COLS] turns empty the queue
    ([bfs_loop_terminates]). *)
Definition bfs_fuel : nat := Z.to_nat (ROWS * COLS).

(** The breadth-first traversal started at [(c0, r0)]. *)
Definition bfs (occ visited : grid bool) (c0 r0 : Z) : bfs_state :=
  bfs_loop bfs_fuel occ
    (mkBfs [mkPoint c0 r0] (grid_set visited r0 c0 true) []).

(** [belowInComp]: is [(col, belowRow)] a cell of the component? *)
Definition belowInComp (cells : list SDL_Point) (col belowRow : Z) : bool :=
  existsb (fun qcell => (pt_x qcell =? col) && (pt_y qcell =? belowRow)) cells.

Definition rule_ground (p : SDL_Point) : bool := pt_y p =? ROWS - 1.

Definition rule_external (occ : grid bool) (cells : list SDL_Point)
    (p : SDL_Point) : bool :=
  let col := pt_x p in
  let belowRow := pt_y p + 1 in
  (belowRow <? ROWS) && occ belowRow col && negb (belowInComp cells col belowRow).

Definition rule_player (pLeftCol pRightCol pTopRow pBotRow : Z)
    (p : SDL_Point) : bool :=
  let col := pt_x p in
  let belowRow := pt_y p + 1 in
  (belowRow >=? pTopRow) && (belowRow <=? pBotRow) &&
  (col >=? pLeftCol) && (col <=? pRightCol).

(** The support loop over the cells of a component ([rest] is what is
    left to visit, [cells] the whole component). *)
Fixpoint supported_from (occ : grid bool) (cells : list SDL_Point)
    (pLeftCol pRightCol pTopRow pBotRow : Z) (rest : list SDL_Point) : bool :=
  match rest with
  | [] => false
  | p :: rest' =>
      if rule_ground p then true
      else if rule_external occ cells p then true
      else if rule_player pLeftCol pRightCol pTopRow pBotRow p then true
      else supported_from occ cells pLeftCol pRightCol pTopRow pBotRow rest'
  end.

Definition supported (occ : grid bool) (cells : list SDL_Point)
    (pLeftCol pRightCol pTopRow pBotRow : Z) : bool :=
  supported_from occ cells pLeftCol pRightCol pTopRow pBotRow cells.

(** The blocks re-emitted for a supported component. *)
Definition blocks_of (typeAt : grid BlockType) (cells : list SDL_Point)
    : list Block :=
  map (fun p => mkBlock (pt_x p) (pt_y p) (typeAt (pt_y p) (pt_x p))) cells.

Definition min_over (f : SDL_Point -> Z) (cells : list SDL_Point) : Z :=
  fold_left (fun m p => if f p <? m then f p else m) cells
            (f (hd (mkPoint 0 0) cells)).

(** The rigid falling shape made of a floating component. *)
Definition shape_of (typeAt : grid BlockType) (fallSpeed : Q)
    (cells : list SDL_Point) : FallingShape :=
  let minC := min_over pt_x cells in
  let minR := min_over pt_y cells in
  mkShape (of_int (minC * CELL)) (of_int (minR * CELL)) fallSpeed
    (map (fun p => mkPoint (pt_x p - minC) (pt_y p - minR)) cells)
    (map (fun p => typeAt (pt_y p) (pt_x p)) cells).

(** The cells [(c0, r0)] in the order of the two nested [for] loops. *)
Definition range (n : Z) : list Z := map Z.of_nat (seq 0 (Z.to_nat n)).

Definition all_cells : list SDL_Point :=
  flat_map (fun r0 => map (fun c0 => mkPoint c0 r0) (range COLS)) (range ROWS).

Record resolve_state : Type := mkResolve {
  rs_visited : grid bool;
  rs_newStatic : list Block;
  rs_shapes : list FallingShape
}.

(** The body of the two nested [for] loops of [resolveFloatingClusters]. *)
Definition resolve_cell (occ : grid bool) (typeAt : grid BlockType)
    (fallSpeed : Q) (pLeftCol pRightCol pTopRow pBotRow : Z)
    (st : resolve_state) (p0 : SDL_Point) : resolve_state :=
  let c0 := pt_x p0 in
  let r0 := pt_y p0 in
  if negb (occ r0 c0) || rs_visited st r0 c0 then st
  else
    let b := bfs occ (rs_visited st) c0 r0 in
    let cells := bcells b in
    if supported occ cells pLeftCol pRightCol pTopRow pBotRow
    then mkResolve (bvisited b)
                   (rs_newStatic st ++ blocks_of typeAt cells)
                   (rs_shapes st)
    else mkResolve (bvisited b)
                   (rs_newStatic st)
                   (rs_shapes st ++ [shape_of typeAt fallSpeed cells]).

(** [resolveFloatingClusters]: returns the new [staticBlocks] and
    [fallingShapes]. *)
Definition resolveFloatingClusters
    (staticBlocks : list Block) (fallingShapes : list FallingShape)
    (fallSpeed : Q) (pLeftCol pRightCol pTopRow pBotRow : Z)
    : list Block * list FallingShape :=
  match staticBlocks with
  | [] => (staticBlocks, fallingShapes)
  | _ =>
      let occ := buildOcc staticBlocks in
      let typeAt := buildTypeAt staticBlocks in
      let st :=
        fold_left
          (resolve_cell occ typeAt fallSpeed pLeftCol pRightCol pTopRow pBotRow)
          all_cells
          (mkResolve (grid_const false) [] fallingShapes) in
      (rs_newStatic st, rs_shapes st)
  end.

(** The components alone: the same scan, keeping only the cell lists the
    traversals collect. *)
Fixpoint scan (occ visited : grid bool) (todo : list SDL_Point)
    : list (list SDL_Point) :=
  match todo with
  | [] => []
  | p0 :: todo' =>
      if negb (occ (pt_y p0) (pt_x p0)) || visited (pt_y p0) (pt_x p0)
      then scan occ visited todo'
      else
        let b := bfs occ visited (pt_x p0) (pt_y p0) in
        bcells b :: scan occ (bvisited b) todo'
  end.

Definition components (staticBlocks : list Block) : list (list SDL_Point) :=
  match staticBlocks with
  | [] => []
  | _ => scan (buildOcc staticBlocks) (grid_const false) all_cells
  end.

(** ** The falling-shape update *)

Definition Qleb (a b : Q) : bool := Qle_bool a b.
Definition Qltb (a b : Q) : bool := negb (Qle_bool b a).

(** [finalY] and [landed] of the update loop. *)
Record land_state : Type := mkLand { finalY : Q; landed : bool }.

(** [if (!landed || candY < finalY) { finalY = candY; landed = true; }] *)
Definition consider (candY : Q) (st : land_state) : land_state :=
  if negb (landed st) || Qltb candY (finalY st) then mkLand candY true else st.

(** The column scanned below a cell: [(int)((s.x + cell.x * CELL) / CELL)]. *)
Definition cell_column (s : FallingShape) (cell : SDL_Point) : Z :=
  to_int ((fs_x s + of_int (pt_x cell * CELL)) / of_int CELL)%Q.

(** The loop over [r] for one cell: static tiles of column [c] whose top
    lies in the swept interval. *)
Definition land_tiles (occ : grid bool) (c : Z) (oldBottom newBottom : Q)
    (cell : SDL_Point) (st : land_state) : land_state :=
  fold_left
    (fun st r =>
       if negb (occ r c) then st
       else
         let tileTop := of_int (r * CELL) in
         if Qleb oldBottom tileTop && Qleb tileTop newBottom
         then consider (tileTop - of_int ((pt_y cell + 1) * CELL))%Q st
         else st)
    (range ROWS) st.

(** The body of the loop over the cells of a shape. *)
Definition land_cell (occ : grid bool) (s : FallingShape) (newY : Q)
    (st : land_state) (cell : SDL_Point) : land_state :=
  let oldBottom := (fs_y s + of_int ((pt_y cell + 1) * CELL))%Q in
  let newBottom := (newY + of_int ((pt_y cell + 1) * CELL))%Q in
  let st1 :=
    if Qleb (of_int SCREEN_HEIGHT) newBottom
    then consider (of_int (SCREEN_HEIGHT - (pt_y cell + 1) * CELL)) st
    else st in
  let c := cell_column s cell in
  if (c <? 0) || (c >=? COLS) then st1
  else land_tiles occ c oldBottom newBottom cell st1.

Definition new_y (dt : Q) (s : FallingShape) : Q :=
  (fs_y s + fs_speed s * dt)%Q.

Definition landing (occ : grid bool) (dt : Q) (s : FallingShape) : land_state :=
  fold_left (land_cell occ s (new_y dt s)) (fs_cells s)
            (mkLand (new_y dt s) false).

Definition set_y (s : FallingShape) (y : Q) : FallingShape :=
  mkShape (fs_x s) y (fs_speed s) (fs_cells s) (fs_types s).

(** The cells of a shape with [types[i]] next to [cells[i]]. *)
Fixpoint with_types (cells : list SDL_Point) (types : list BlockType)
    : list (SDL_Point * BlockType) :=
  match cells with
  | [] => []
  | cell :: cells' => (cell, hd NORMAL types) :: with_types cells' (tl types)
  end.

(** The block a cell of a landed shape becomes. *)
Definition block_of_cell (s : FallingShape) (ct : SDL_Point * BlockType) : Block :=
  mkBlock (to_int (fs_x s / of_int CELL + of_int (pt_x (fst ct)))%Q)
          (to_int (fs_y s / of_int CELL + of_int (pt_y (fst ct)))%Q)
          (snd ct).

(** "convert to static": the blocks pushed for a landed shape; cells
    outside the grid are dropped. *)
Definition landed_blocks (s : FallingShape) : list Block :=
  filter (fun b => in_grid (bcol b) (brow b))
         (map (block_of_cell s) (with_types (fs_cells s) (fs_types s))).

(** The body of the loop over [fallingShapes]; the state is
    [staticBlocks] and [newShapes].  [occ] was built before the loop. *)
Definition update_shape (occ : grid bool) (dt : Q)
    (st : list Block * list FallingShape) (s : FallingShape)
    : list Block * list FallingShape :=
  let '(staticBlocks, newShapes) := st in
  let l := landing occ dt s in
  if landed l
  then (staticBlocks ++ landed_blocks (set_y s (finalY l)), newShapes)
  else (staticBlocks, newShapes ++ [set_y s (new_y dt s)]).

Definition update_falling (dt : Q) (staticBlocks : list Block)
    (fallingShapes : list FallingShape) : list Block * list FallingShape :=
  let occ := buildOcc staticBlocks in
  fold_left (update_shape occ dt) fallingShapes (staticBlocks, []).

(** ** Break action and power effects *)

Definition ABILITY_CD : Q := 1 # 2.
Definition FREEZE_DURATION : Q := 10.

(** Keep the cells (and their types) that [hit] does not select. *)
Fixpoint strip (hit : SDL_Point -> bool) (cells : list SDL_Point)
    (types : list BlockType) : list SDL_Point * list BlockType :=
  match cells with
  | [] => ([], [])
  | cell :: cells' =>
      let '(newCells, newTypes) := strip hit cells' (tl types) in
      if hit cell then (newCells, newTypes)
      else (cell :: newCells, hd NORMAL types :: newTypes)
  end.

Definition strip_shape (hit : FallingShape -> SDL_Point -> bool)
    (s : FallingShape) : FallingShape :=
  let '(newCells, newTypes) := strip (hit s) (fs_cells s) (fs_types s) in
  mkShape (fs_x s) (fs_y s) (fs_speed s) newCells newTypes.

Definition cells_empty (s : FallingShape) : bool :=
  match fs_cells s with [] => true | _ => false end.

(** Strip every shape, then erase the shapes left without cells. *)
Definition strip_shapes (hit : FallingShape -> SDL_Point -> bool)
    (shapes : list FallingShape) : list FallingShape :=
  filter (fun s => negb (cells_empty s)) (map (strip_shape hit) shapes).

(** [gc] and [gr] of a shape cell. *)
Definition cell_gc (s : FallingShape) (cell : SDL_Point) : Z :=
  to_int (fs_x s / of_int CELL)%Q + pt_x cell.
Definition cell_gr (s : FallingShape) (cell : SDL_Point) : Z :=
  to_int (fs_y s / of_int CELL)%Q + pt_y cell.

Definition BOMB_RAD : Z := 5.

Definition in_blast (col row c r : Z) : bool :=
  (Z.abs (c - col) <=? BOMB_RAD) && (Z.abs (r - row) <=? BOMB_RAD).

Record power_state : Type := mkPower {
  pw_blocks : list Block;
  pw_shapes : list FallingShape;
  pw_freeze : Q
}.

Definition applyPower (type : BlockType) (col row : Z) (st : power_state)
    : power_state :=
  match type with
  | NORMAL => st
  | BOMB =>
      mkPower
        (filter (fun b => negb (in_blast col row (bcol b) (brow b))) (pw_blocks st))
        (strip_shapes
           (fun s cell => in_blast col row (cell_gc s cell) (cell_gr s cell))
           (pw_shapes st))
        (pw_freeze st)
  | FREEZE => mkPower (pw_blocks st) (pw_shapes st) FREEZE_DURATION
  | LASER_H =>
      mkPower
        (filter (fun b => negb (brow b =? row)) (pw_blocks st))
        (strip_shapes (fun s cell => cell_gr s cell =? row) (pw_shapes st))
        (pw_freeze st)
  | LASER_V =>
      mkPower
        (filter (fun b => negb (bcol b =? col)) (pw_blocks st))
        (strip_shapes (fun s cell => cell_gc s cell =? col) (pw_shapes st))
        (pw_freeze st)
  end.

(** The loop of [breakAt]: find the first block at [(tc, tr)] and erase
    it. *)
Fixpoint erase_first (tc tr : Z) (blocks : list Block)
    : option (BlockType * list Block) :=
  match blocks with
  | [] => None
  | b :: blocks' =>
      if (bcol b =? tc) && (brow b =? tr) then Some (btype b, blocks')
      else
        match erase_first tc tr blocks' with
        | None => None
        | Some (t, rest) => Some (t, b :: rest)
        end
  end.

Record break_state : Type := mkBreak {
  bk_blocks : list Block;
  bk_cd : Q;
  bk_usedType : BlockType
}.

(** [breakAt]: the result and the updated [staticBlocks], [cd] and
    [usedType]. *)
Definition breakAt (tc tr : Z) (st : break_state) : bool * break_state :=
  if Qltb 0 (bk_cd st) then (false, st)
  else if (tc <? 0) || (tc >=? COLS) || (tr <? 0) || (tr >=? ROWS) then (false, st)
  else
    match erase_first tc tr (bk_blocks st) with
    | Some (t, rest) => (true, mkBreak rest ABILITY_CD t)
    | None => (false, st)
    end.

(** ** Full-row clear *)

Fixpoint insert_sorted (x : Z) (l : list Z) : list Z :=
  match l with
  | [] => [x]
  | y :: l' => if x <=? y then x :: l else y :: insert_sorted x l'
  end.

(** [std::sort] on a vector of [int]. *)
Definition sort (l : list Z) : list Z := fold_right insert_sorted [] l.

(** [std::binary_search] on a sorted vector: is [x] one of its values? *)
Definition binary_search (l : list Z) (x : Z) : bool := existsb (Z.eqb x) l.

Definition full_rows (occ : grid bool) : list Z :=
  filter (fun r => forallb (fun c => occ r c) (range COLS)) (range ROWS).

Definition row_shift (fullRows : list Z) (b : Block) : Block :=
  mkBlock (bcol b)
          (brow b + Z.of_nat (length (filter (fun fr => fr >? brow b) fullRows)))
          (btype b).

Definition row_clear (staticBlocks : list Block) : list Block :=
  match staticBlocks with
  | [] => staticBlocks
  | _ =>
      let occ := buildOcc staticBlocks in
      let fullRows := full_rows occ in
      match fullRows with
      | [] => staticBlocks
      | _ =>
          let fullRows := sort fullRows in
          map (row_shift fullRows)
              (filter (fun b => negb (binary_search fullRows (brow b)))
                      staticBlocks)
      end
  end.

(** ** One turn of the main loop

    The window, the renderer, the keyboard, the clock and the movement of
    the player are outside the core: a turn receives the elapsed time, the
    keys that matter, the rectangle of the player after its movement and
    the values [std::rand()] returns during the turn. *)

Record game : Type := mkGame {
  staticBlocks : list Block;
  fallingShapes : list FallingShape;
  spawnTimer : Q;
  elapsedTime : Q;
  cdLeft : Q;
  cdRight : Q;
  cdUp : Q;
  cdDown : Q;
  timeSinceLastPowerup : Q;
  freezeTimer : Q;
  gameOver : bool
}.

Record input : Type := mkInput {
  in_dt : Q;
  in_left : bool;
  in_right : bool;
  in_up : bool;
  in_down : bool;
  in_restart : bool;
  in_player : SDL_Rect;
  in_rand : list Z
}.

Definition spawnInterval : Q := 3 # 4.
Definition baseFall : Q := 220.
Definition maxExtra : Q := 60.
Definition POWERUP_MAX_GAP : Q := 15.

(** [std::max] and [std::min] on [float]. *)
Definition fmax (a b : Q) : Q := if Qltb a b then b else a.
Definition fmin (a b : Q) : Q := if Qltb b a then b else a.

(** [resetGame], without the player. *)
Definition resetGame : game :=
  mkGame [] [] 0 0 0 0 0 0 0 0 false.

(** [if (dt > 0.05) dt = 0.05;] *)
Definition clamp_dt (dt : Q) : Q := if Qltb (1 # 20) dt then 1 # 20 else dt.

(** The accumulators, the freeze countdown and the cooldowns at the
    start of a turn. *)
Definition phase_timers (dt : Q) (g : game) : game :=
  mkGame (staticBlocks g) (fallingShapes g) (spawnTimer g)
    (if gameOver g then elapsedTime g else elapsedTime g + dt)%Q
    (fmax 0 (cdLeft g - dt)) (fmax 0 (cdRight g - dt))
    (fmax 0 (cdUp g - dt)) (fmax 0 (cdDown g - dt))
    (if gameOver g then timeSinceLastPowerup g
     else timeSinceLastPowerup g + dt)%Q
    (if Qltb 0 (freezeTimer g)
     then (if Qltb (freezeTimer g - dt) 0 then 0 else freezeTimer g - dt)
     else freezeTimer g)%Q
    (gameOver g).

Definition fall_speed (g : game) : Q :=
  (baseFall + fmin maxExtra (elapsedTime g * 5))%Q.

(** One call of [std::rand()]. *)
Definition next_rand (rng : list Z) : Z * list Z :=
  match rng with
  | [] => (0, [])
  | r :: rng' => (r, rng')
  end.

(** The assignment [v[i] = x] on a vector. *)
Fixpoint vec_set {A} (v : list A) (i : nat) (x : A) : list A :=
  match v, i with
  | [], _ => []
  | _ :: v', O => x :: v'
  | a :: v', S i' => a :: vec_set v' i' x
  end.

Definition shape_dims (shape : Z) : Z * Z :=
  if shape =? 0 then (1, 1)
  else if shape =? 1 then (2, 1)
  else if shape =? 2 then (4, 1)
  else if shape =? 3 then (1, 2)
  else if shape =? 4 then (1, 4)
  else (1, 1).

Definition power_of (t : Z) : BlockType :=
  if t =? 0 then BOMB else if t =? 1 then FREEZE
  else if t =? 2 then LASER_H else LASER_V.

(** The shape spawned when the spawn timer fires, and the new
    [timeSinceLastPowerup]. *)
Definition spawn_shape (fallSpeed : Q) (sincePowerup : Q) (rng : list Z)
    : FallingShape * Q :=
  let '(r1, rng) := next_rand rng in
  let '(wCells, hCells) := shape_dims (Z.rem r1 5) in
  let maxCol := COLS - wCells in
  let '(col, rng) :=
    if maxCol >? 0
    then (let '(r2, rng) := next_rand rng in (Z.rem r2 (maxCol + 1), rng))
    else (0, rng) in
  let total := wCells * hCells in
  let cells :=
    flat_map (fun dy => map (fun dx => mkPoint dx dy) (range wCells))
             (range hCells) in
  let types := map (fun _ => NORMAL) cells in
  let '(makePowerup, powerIndex, rng) :=
    if Qleb POWERUP_MAX_GAP sincePowerup
    then (let '(r3, rng) := next_rand rng in (true, Z.rem r3 total, rng))
    else
      let '(r3, rng) := next_rand rng in
      if Z.rem r3 100 <? 7
      then (let '(r4, rng) := next_rand rng in (true, Z.rem r4 total, rng))
      else (false, -1, rng) in
  let x := of_int (col * CELL) in
  let y := of_int (- hCells * CELL) in
  if makePowerup && (total >? 0)
  then
    let '(r5, rng) := next_rand rng in
    (mkShape x y fallSpeed cells
       (vec_set types (Z.to_nat powerIndex) (power_of (Z.rem r5 4))), 0%Q)
  else (mkShape x y fallSpeed cells types, sincePowerup).

Definition phase_spawn (dt : Q) (fallSpeed : Q) (rng : list Z) (g : game) : game :=
  if gameOver g then g
  else
    let timer := (spawnTimer g + dt)%Q in
    if Qleb spawnInterval timer
    then
      let '(fs, since) := spawn_shape fallSpeed (timeSinceLastPowerup g) rng in
      mkGame (staticBlocks g) (fallingShapes g ++ [fs]) 0
        (elapsedTime g) (cdLeft g) (cdRight g) (cdUp g) (cdDown g)
        since (freezeTimer g) (gameOver g)
    else
      mkGame (staticBlocks g) (fallingShapes g) timer
        (elapsedTime g) (cdLeft g) (cdRight g) (cdUp g) (cdDown g)
        (timeSinceLastPowerup g) (freezeTimer g) (gameOver g).

(** [bool frozen = (freezeTimer > 0.0f)] *)
Definition frozen (g : game) : bool := Qltb 0 (freezeTimer g).

Definition phase_fall (dt : Q) (g : game) : game :=
  if gameOver g then g
  else if frozen g then g
  else
    let '(blocks, shapes) :=
      update_falling dt (staticBlocks g) (fallingShapes g) in
    mkGame blocks shapes (spawnTimer g)
      (elapsedTime g) (cdLeft g) (cdRight g) (cdUp g) (cdDown g)
      (timeSinceLastPowerup g) (freezeTimer g) (gameOver g).

(** One arrow key: [if (keys[..]) { if (breakAt(..)) applyPower(..); }].
    The state is the cooldown of the direction, the blocks, shapes and
    freeze countdown, and [usedType]. *)
Definition break_dir (pressed : bool) (tc tr : Z) (cd : Q)
    (st : power_state * BlockType) : Q * (power_state * BlockType) :=
  if pressed then
    let '(ok, bs) := breakAt tc tr (mkBreak (pw_blocks (fst st)) cd (snd st)) in
    if ok
    then (bk_cd bs,
          (applyPower (bk_usedType bs) tc tr
             (mkPower (bk_blocks bs) (pw_shapes (fst st)) (pw_freeze (fst st))),
           bk_usedType bs))
    else (bk_cd bs,
          (mkPower (bk_blocks bs) (pw_shapes (fst st)) (pw_freeze (fst st)),
           bk_usedType bs))
  else (cd, st).

Definition phase_break (i : input) (g : game) : game :=
  if gameOver g then g
  else
    let pCol := Z.quot (rx (in_player i)) CELL in
    let pRow := Z.quot (ry (in_player i)) CELL in
    let st0 := (mkPower (staticBlocks g) (fallingShapes g) (freezeTimer g), NORMAL) in
    let '(cdL, st1) := break_dir (in_left i) (pCol - 1) pRow (cdLeft g) st0 in
    let '(cdR, st2) := break_dir (in_right i) (pCol + 1) pRow (cdRight g) st1 in
    let '(cdU, st3) := break_dir (in_up i) pCol (pRow - 1) (cdUp g) st2 in
    let '(cdD, st4) := break_dir (in_down i) pCol (pRow + 1) (cdDown g) st3 in
    mkGame (pw_blocks (fst st4)) (pw_shapes (fst st4)) (spawnTimer g)
      (elapsedTime g) cdL cdR cdU cdD
      (timeSinceLastPowerup g) (pw_freeze (fst st4)) (gameOver g).

Definition phase_row_clear (g : game) : game :=
  if gameOver g then g
  else
    mkGame (row_clear (staticBlocks g)) (fallingShapes g) (spawnTimer g)
      (elapsedTime g) (cdLeft g) (cdRight g) (cdUp g) (cdDown g)
      (timeSinceLastPowerup g) (freezeTimer g) (gameOver g).

Definition phase_resolve (fallSpeed : Q) (player : SDL_Rect) (g : game) : game :=
  if gameOver g then g
  else if Qleb (freezeTimer g) 0 then
    let pLeftCol := Z.quot (rx player) CELL in
    let pRightCol := Z.quot (rx player + rw player - 1) CELL in
    let pTopRow := Z.quot (ry player) CELL in
    let pBotRow := Z.quot (ry player + rh player - 1) CELL in
    let '(blocks, shapes) :=
      resolveFloatingClusters (staticBlocks g) (fallingShapes g) fallSpeed
        pLeftCol pRightCol pTopRow pBotRow in
    mkGame blocks shapes (spawnTimer g)
      (elapsedTime g) (cdLeft g) (cdRight g) (cdUp g) (cdDown g)
      (timeSinceLastPowerup g) (freezeTimer g) (gameOver g)
  else g.

Definition phase_game_over (g : game) : game :=
  if gameOver g then g
  else
    mkGame (staticBlocks g) (fallingShapes g) (spawnTimer g)
      (elapsedTime g) (cdLeft g) (cdRight g) (cdUp g) (cdDown g)
      (timeSinceLastPowerup g) (freezeTimer g)
      (existsb (fun b => brow b <=? 0) (staticBlocks g)).

(** One turn of [while (running)], up to the game-over check. *)
Definition tick (i : input) (g : game) : game :=
  let dt := clamp_dt (in_dt i) in
  let g1 := phase_timers dt g in
  let fallSpeed := fall_speed g1 in
  if gameOver g1 && in_restart i then resetGame
  else
    let g2 := phase_spawn dt fallSpeed (in_rand i) g1 in
    let g3 := phase_fall dt g2 in
    let g4 := phase_break i g3 in
    let g5 := phase_row_clear g4 in
    let g6 := phase_resolve fallSpeed (in_player i) g5 in
    phase_game_over g6.

(** ** Vocabulary of the properties *)

(** At most one block per cell. *)
Definition cell_of (b : Block) : Z * Z := (bcol b, brow b).

Definition one_per_cell (blocks : list Block) : Prop :=
  NoDup (map cell_of blocks).

Definition point_in_grid (p : SDL_Point) : bool := in_grid (pt_x p) (pt_y p).

(** The cell [p] is occupied in the grid derived from [blocks]. *)
Definition occupied (blocks : list Block) (p : SDL_Point) : Prop :=
  point_in_grid p = true /\ buildOcc blocks (pt_y p) (pt_x p) = true.

(** The entry of a grid at the cell [p]. *)
Definition at_point {A} (g : grid A) (p : SDL_Point) : A := g (pt_y p) (pt_x p).

(** The cells a traversal has collected or still has in its queue lie in
    the grid, are occupied, were not marked before the traversal began
    and are pairwise distinct; the marked cells are those marked before
    and these. *)
Record bfs_inv (occ : grid bool) (V0 : grid bool) (st : bfs_state) : Prop := {
  inv_cells : forall p, In p (bcells st ++ bq st) ->
      point_in_grid p = true /\ at_point occ p = true /\ at_point V0 p = false;
  inv_nodup : NoDup (bcells st ++ bq st);
  inv_visited : forall p, at_point (bvisited st) p = true <->
      at_point V0 p = true \/ In p (bcells st ++ bq st)
}.

(** Every marked cell that has left the queue has all its occupied
    neighbours marked. *)
Definition closed_but (occ : grid bool) (V : grid bool) (q : list SDL_Point) : Prop :=
  forall p n, at_point V p = true -> ~ In p q -> In n (neighbours p) ->
    point_in_grid n = true -> at_point occ n = true -> at_point V n = true.


(** The components a scan collects from the marks [V] on. *)
Record scan_ok (occ : grid bool) (V : grid bool) (todo : list SDL_Point)
    (comps : list (list SDL_Point)) : Prop := {
  so_cells : forall C p, In C comps -> In p C ->
      point_in_grid p = true /\ at_point occ p = true /\ at_point V p = false;
  so_nodup : NoDup (concat comps);
  so_cover : forall p, In p todo -> at_point occ p = true ->
      at_point V p = true \/ exists C, In C comps /\ In p C;
  so_nonempty : forall C, In C comps -> C <> [];
  so_closed : forall C p n, In C comps -> In p C -> In n (neighbours p) ->
      point_in_grid n = true -> at_point occ n = true -> In n C
}.


(** The player-support condition of rule 3 at the cell [p]. *)
Definition player_below (pL pR pT pB : Z) (p : SDL_Point) : Prop :=
  pT <= pt_y p + 1 <= pB /\ pL <= pt_x p <= pR.


(** A grid with a floating column and a cluster on the floor. *)
Definition support_example : list Block :=
  [ mkBlock 5 3 NORMAL; mkBlock 5 4 BOMB; mkBlock 5 5 NORMAL; mkBlock 5 6 NORMAL;
    mkBlock 2 19 NORMAL; mkBlock 2 18 FREEZE; mkBlock 3 18 NORMAL ].


(** Two [visited] arrays that agree on the cells [S] marks. *)
Definition agree (S V1 V2 : grid bool) : Prop :=
  forall m, at_point S m = true -> at_point V1 m = at_point V2 m.

(** Two traversals in step: same queue, same collected cells, marks that
    agree on [S], and a queue inside [S]. *)
Definition locked (S : grid bool) (st1 st2 : bfs_state) : Prop :=
  bq st1 = bq st2 /\ bcells st1 = bcells st2 /\
  agree S (bvisited st1) (bvisited st2) /\
  forall m, In m (bq st1) -> at_point S m = true.

(** ** The row clear as the specification words it *)

(** Row [r] is full: every column of the row holds a block. *)
Definition row_full (blocks : list Block) (r : Z) : Prop :=
  0 <= r < ROWS /\
  forall c, 0 <= c < COLS -> exists b, In b blocks /\ bcol b = c /\ brow b = r.

Definition row_fullb (blocks : list Block) (r : Z) : bool :=
  (0 <=? r) && (r <? ROWS) &&
  forallb (fun c => existsb (fun b => (bcol b =? c) && (brow b =? r)) blocks)
          (range COLS).

(** The number of full rows strictly below row [r0] (of greater index). *)
Definition full_rows_below (blocks : list Block) (r0 : Z) : Z :=
  Z.of_nat (length (filter (fun r => row_fullb blocks r && (r >? r0)) (range ROWS))).

(** Remove the blocks of the full rows; move every other block down by
    the number of full rows below its original row. *)
Definition row_clear_spec (blocks : list Block) : list Block :=
  map (fun b => mkBlock (bcol b) (brow b + full_rows_below blocks (brow b)) (btype b))
      (filter (fun b => negb (row_fullb blocks (brow b))) blocks).

(** Scenario B: row 10 entirely occupied, and a block at row 5. *)
Definition scenario_B : list Block :=
  mkBlock 3 5 BOMB :: map (fun c => mkBlock c 10 NORMAL) (range COLS).

(** ** The bomb as the specification words it *)


(** A state for the break action: a power block at the target among
    other blocks. *)
Definition break_example : list Block :=
  [ mkBlock 1 19 NORMAL; mkBlock 2 19 FREEZE; mkBlock 3 19 NORMAL ].

(** ** The landing candidates as the specification words them *)

(** The candidates of one cell: the floor candidate when the new bottom
    edge reaches the floor, and one candidate for every occupied tile of
    the cell's column whose top edge lies in the swept interval. *)
Definition cell_candidates (occ : grid bool) (s : FallingShape) (newY : Q)
    (cell : SDL_Point) : list Q :=
  let oldBottom := (fs_y s + of_int ((pt_y cell + 1) * CELL))%Q in
  let newBottom := (newY + of_int ((pt_y cell + 1) * CELL))%Q in
  let c := cell_column s cell in
  (if Qleb (of_int SCREEN_HEIGHT) newBottom
   then [of_int (SCREEN_HEIGHT - (pt_y cell + 1) * CELL)] else []) ++
  (if (c <? 0) || (c >=? COLS) then []
   else
     flat_map
       (fun r =>
          if occ r c && Qleb oldBottom (of_int (r * CELL)) &&
             Qleb (of_int (r * CELL)) newBottom
          then [(of_int (r * CELL) - of_int ((pt_y cell + 1) * CELL))%Q]
          else [])
       (range ROWS)).

Definition candidates (occ : grid bool) (dt : Q) (s : FallingShape) : list Q :=
  flat_map (cell_candidates occ s (new_y dt s)) (fs_cells s).

(** The bottom edge of a cell of [s] when the origin of [s] is at [y]. *)
Definition bottom_at (y : Q) (cell : SDL_Point) : Q :=
  (y + of_int ((pt_y cell + 1) * CELL))%Q.

(** Before the move no cell of the shape overlaps an occupied tile of its
    column: the tile is at or below the cell's bottom edge or entirely
    above the cell. *)
Definition shape_clear (occ : grid bool) (s : FallingShape) : Prop :=
  forall cell r, In cell (fs_cells s) -> 0 <= r < ROWS ->
    occ r (cell_column s cell) = true ->
    (bottom_at (fs_y s) cell <= of_int (r * CELL))%Q \/
    (of_int ((r + 1) * CELL) <= fs_y s + of_int (pt_y cell * CELL))%Q.

(** No cell of the shape has its bottom edge below the floor. *)
Definition above_floor (s : FallingShape) : Prop :=
  forall cell, In cell (fs_cells s) ->
    (bottom_at (fs_y s) cell <= of_int SCREEN_HEIGHT)%Q.

(** The origin of the shape is on a column boundary. *)
Definition aligned_x (s : FallingShape) : Prop :=
  exists k, (fs_x s == of_int (k * CELL))%Q.

(** A one-cell shape in column 0 whose cell already overlaps the block
    of row 19. *)
Definition sunk_shape : FallingShape :=
  mkShape 0 560 220 [mkPoint 0 0] [NORMAL].

Definition floor_block : list Block := [mkBlock 0 19 NORMAL].

(** Two one-cell shapes at the same place, about to reach the floor. *)
Definition twin_shape : FallingShape :=
  mkShape 0 565 220 [mkPoint 0 0] [NORMAL].

(** A one-cell shape in column 0, above the block of row 19 and clear
    of it. *)
Definition clear_shape : FallingShape :=
  mkShape 0 535 220 [mkPoint 0 0] [BOMB].

(** ** Vocabulary of the freeze property *)

(** [s'] is at the place of one of [shapes], with its speed. *)
Definition same_place (shapes : list FallingShape) (s' : FallingShape) : Prop :=
  exists s, In s shapes /\
    fs_x s' = fs_x s /\ fs_y s' = fs_y s /\ fs_speed s' = fs_speed s.

(** A frozen game: a block on the floor, a shape in the air, the freeze
    countdown at its full duration. *)
Definition frozen_game : game :=
  mkGame floor_block [clear_shape] 0 0 0 0 0 0 0 FREEZE_DURATION false.

Definition idle_input : input :=
  mkInput (1 # 20) false false false false false (mkRect 225 560 30 30) [].

(** ** Vocabulary of the further properties *)

(** [p] and [m] are joined by a chain of neighbouring cells of [C]. *)
Inductive linked (C : list SDL_Point) : SDL_Point -> SDL_Point -> Prop :=
| linked_refl : forall p, In p C -> linked C p p
| linked_step : forall p n m,
    linked C p n -> In m (neighbours n) -> In m C -> linked C p m.

(** The blocks the cells of a shape stand for at its present position
    (the conversion to static blocks, before the bounds test). *)
Definition shape_blocks (s : FallingShape) : list Block :=
  map (block_of_cell s) (with_types (fs_cells s) (fs_types s)).

(** All blocks lie in the grid. *)
Definition blocks_in_grid (blocks : list Block) : Prop :=
  forall b, In b blocks -> in_grid (bcol b) (brow b) = true.

(** A well-formed falling shape: at least one cell, distinct offsets, one
    type per cell, the origin on a column boundary and no cell below the
    floor. *)
Definition shape_ok (s : FallingShape) : Prop :=
  fs_cells s <> [] /\ NoDup (fs_cells s) /\
  length (fs_types s) = length (fs_cells s) /\
  aligned_x s /\ above_floor s.

Definition game_ok (g : game) : Prop :=
  blocks_in_grid (staticBlocks g) /\
  forall s, In s (fallingShapes g) -> shape_ok s.

(** The timers of a game are in their ranges. *)
Definition timers_ok (g : game) : Prop :=
  (0 <= cdLeft g <= ABILITY_CD /\ 0 <= cdRight g <= ABILITY_CD /\
   0 <= cdUp g <= ABILITY_CD /\ 0 <= cdDown g <= ABILITY_CD /\
   0 <= freezeTimer g <= FREEZE_DURATION /\
   0 <= spawnTimer g < spawnInterval /\
   0 <= elapsedTime g /\ 0 <= timeSinceLastPowerup g)%Q.

(** The number of power blocks among the types of a shape. *)
Definition power_count (types : list BlockType) : nat :=
  length (filter (fun t => negb (BlockType_eqb t NORMAL)) types).

(** ** Several shapes in one falling update *)

(** The blocks pushed by the shapes that land in one falling update. *)
Definition landing_blocks (occ : grid bool) (dt : Q)
    (shapes : list FallingShape) : list Block :=
  flat_map (fun s => landed_blocks (set_y s (finalY (landing occ dt s))))
           (filter (fun s => landed (landing occ dt s)) shapes).

(** The columns scanned below the cells of a shape. *)
Definition shape_columns (s : FallingShape) : list Z :=
  map (cell_column s) (fs_cells s).

(** No two shapes of the list have a cell in the same column. *)
Definition columns_apart (shapes : list FallingShape) : Prop :=
  ForallOrdPairs
    (fun s1 s2 => forall c, In c (shape_columns s1) -> ~ In c (shape_columns s2))
    shapes.

(** No cell of [s1] overlaps a cell of [s2]: of two cells of the same
    column one is entirely above the other. *)
Definition cells_apart (s1 s2 : FallingShape) : Prop :=
  forall c1 c2, In c1 (fs_cells s1) -> In c2 (fs_cells s2) ->
    cell_column s1 c1 = cell_column s2 c2 ->
    (bottom_at (fs_y s1) c1 <= fs_y s2 + of_int (pt_y c2 * CELL) \/
     bottom_at (fs_y s2) c2 <= fs_y s1 + of_int (pt_y c1 * CELL))%Q.

(** No two shapes of the list overlap. *)
Definition shapes_apart (shapes : list FallingShape) : Prop :=
  ForallOrdPairs cells_apart shapes.

(** Two shapes in neighbouring columns that land in the same update. *)
Definition side_shape : FallingShape :=
  mkShape 30 565 220 [mkPoint 0 0] [NORMAL].

(** ** The break of a FREEZE block *)

(** One arrow key breaks a FREEZE block: the key is down, the cooldown
    of the direction has run out, the target is in the grid and the
    first block of the list on the target is a FREEZE block. *)
Definition breaks_freeze (pressed : bool) (tc tr : Z) (cd : Q)
    (st : power_state * BlockType) : Prop :=
  pressed = true /\ Qltb 0 cd = false /\ in_grid tc tr = true /\
  exists rest, erase_first tc tr (pw_blocks (fst st)) = Some (FREEZE, rest).

(** A frozen game about to spawn: the floor row is full, a FREEZE block
    and a NORMAL block hang in the air with nothing below them, and a
    shape is in the air. *)
Definition freeze_scene : game :=
  mkGame (map (fun c => mkBlock c 19 NORMAL) (range COLS) ++
          [mkBlock 7 17 FREEZE; mkBlock 3 10 NORMAL])
         [mkShape 0 100 220 [mkPoint 0 0] [NORMAL]]
         (37 # 50) 0 0 0 0 0 0 5 false.

(** The left arrow is down; the player stands in column 8, row 17. *)
Definition freeze_input : input :=
  mkInput (1 # 20) true false false false false (mkRect 240 510 30 30)
          [0; 3; 50].

(** ** The range of [int] *)

Definition INT_MIN : Z := - 2 ^ 31.
Definition INT_MAX : Z := 2 ^ 31 - 1.

Definition int_range (z : Z) : Prop := INT_MIN <= z <= INT_MAX.

(** The fields of a rectangle and the sums [x + w] and [y + h] that
    [rectsOverlap] computes are values of [int]. *)
Definition rect_in_range (a : SDL_Rect) : Prop :=
  int_range (rx a) /\ int_range (ry a) /\
  int_range (rw a) /\ int_range (rh a) /\
  int_range (rx a + rw a) /\ int_range (ry a + rh a).

(** ** Rectangles, the player and the high scores *)

(** [rectsOverlap].  The sums are sums of [Z]: they are the sums the
    program computes when [rect_in_range] holds of both rectangles. *)
Definition rectsOverlap (a b : SDL_Rect) : bool :=
  (rx a <? rx b + rw b) && (rx a + rw a >? rx b) &&
  (ry a <? ry b + rh b) && (ry a + rh a >? ry b).

(** The pixel [(x, y)] belongs to the rectangle [a]. *)
Definition in_rect (a : SDL_Rect) (x y : Z) : Prop :=
  rx a <= x < rx a + rw a /\ ry a <= y < ry a + rh a.

(** The rectangle [br] of a static block. *)
Definition block_rect (b : Block) : SDL_Rect :=
  mkRect (bcol b * CELL) (brow b * CELL) CELL CELL.

Definition playerSpeed : Q := 220.
Definition GRAVITY : Q := 900.
Definition JUMP_V : Q := -430.

Record player_state : Type := mkPlayer {
  player : SDL_Rect;
  playerVy : Q;
  onGround : bool;
  prevJump : bool
}.

(** The keys of the movement: A, D and SPACE. *)
Record move_keys : Type := mkKeys {
  key_a : bool;
  key_d : bool;
  key_space : bool
}.

Definition set_rx (r : SDL_Rect) (x : Z) : SDL_Rect := mkRect x (ry r) (rw r) (rh r).
Definition set_ry (r : SDL_Rect) (y : Z) : SDL_Rect := mkRect (rx r) y (rw r) (rh r).

(** The body of the loop of the horizontal move; the state is [newX]
    and [hTest]. *)
Definition h_step (vx : Q) (w : Z) (st : Q * SDL_Rect) (b : Block) : Q * SDL_Rect :=
  let '(newX, hTest) := st in
  let br := block_rect b in
  if rectsOverlap hTest br then
    let newX' :=
      if Qltb 0 vx then of_int (rx br - w)
      else if Qltb vx 0 then of_int (rx br + rw br)
      else newX in
    (newX', set_rx hTest (to_int newX'))
  else st.

(** The state of the loop of the vertical move: [newY], [playerVy],
    [onGround] and [vTest]. *)
Record v_state : Type := mkV {
  v_newY : Q;
  v_vy : Q;
  v_onGround : bool;
  v_test : SDL_Rect
}.

Definition v_step (oldPy : Q) (h : Z) (st : v_state) (b : Block) : v_state :=
  let br := block_rect b in
  if negb (rectsOverlap (v_test st) br) then st
  else if Qltb 0 (v_vy st) && Qleb (oldPy + of_int h) (of_int (ry br)) then
    let newY := of_int (ry br - h) in
    mkV newY 0 true (set_ry (v_test st) (to_int newY))
  else if Qltb (v_vy st) 0 && Qleb (of_int (ry br + rh br)) oldPy then
    let newY := of_int (ry br + rh br) in
    mkV newY 0 (v_onGround st) (set_ry (v_test st) (to_int newY))
  else st.

(** The last ground test: the feet on the floor, or exactly on the top
    of a block the player stands over. *)
Definition ground_check (p : SDL_Rect) (blocks : list Block) : bool :=
  let footY := ry p + rh p in
  if footY >=? SCREEN_HEIGHT - 1 then true
  else
    existsb
      (fun b =>
         (brow b * CELL =? footY) &&
         (rx p + rw p >? bcol b * CELL) && (rx p <? bcol b * CELL + CELL))
      blocks.

(** "Player movement": one turn of a running game. *)
Definition move_player (dt : Q) (keys : move_keys) (blocks : list Block)
    (ps : player_state) : player_state :=
  let p := player ps in
  let oldPy := of_int (ry p) in
  let jumpPressed := key_space keys in
  let vx0 := if key_a keys then (0 - playerSpeed)%Q else 0%Q in
  let vx := if key_d keys then (vx0 + playerSpeed)%Q else vx0 in
  let newX0 := (of_int (rx p) + vx * dt)%Q in
  let newX1 := if Qltb newX0 0 then 0%Q else newX0 in
  let newX2 :=
    if Qltb (of_int SCREEN_WIDTH) (newX1 + of_int (rw p))
    then of_int (SCREEN_WIDTH - rw p) else newX1 in
  let '(newX, _) :=
    fold_left (h_step vx (rw p)) blocks (newX2, set_rx p (to_int newX2)) in
  let p1 := set_rx p (to_int newX) in
  let jump := jumpPressed && negb (prevJump ps) && onGround ps in
  let vy0 := if jump then JUMP_V else playerVy ps in
  let vy1 := (vy0 + GRAVITY * dt)%Q in
  let newY0 := (of_int (ry p1) + vy1 * dt)%Q in
  let floor := Qleb (of_int SCREEN_HEIGHT) (newY0 + of_int (rh p1)) in
  let newY1 := if floor then of_int (SCREEN_HEIGHT - rh p1) else newY0 in
  let vy2 := if floor then 0%Q else vy1 in
  let v := fold_left (v_step oldPy (rh p1)) blocks
             (mkV newY1 vy2 floor (set_ry p1 (to_int newY1))) in
  let p2 := set_ry p1 (to_int (v_newY v)) in
  mkPlayer p2 (v_vy v) (ground_check p2 blocks) jumpPressed.

(** [std::sort] with [std::greater<float>]. *)
Fixpoint insert_desc (x : Q) (l : list Q) : list Q :=
  match l with
  | [] => [x]
  | y :: l' => if Qltb y x then x :: l else y :: insert_desc x l'
  end.

Definition sort_desc (l : list Q) : list Q := fold_right insert_desc [] l.

(** The update of [highScores] when the game has just ended: push the
    final time, sort in decreasing order, keep at most five. *)
Definition record_score (finalTime : Q) (highScores : list Q) : list Q :=
  let l := sort_desc (highScores ++ [finalTime]) in
  if (5 <? length l)%nat then firstn 5 l else l.

(** * Grid facts *)

Lemma in_grid_iff c r :
  in_grid c r = true <-> 0 <= r < ROWS /\ 0 <= c < COLS.
Proof.
  unfold in_grid. rewrite !andb_true_iff, !Z.leb_le, !Z.ltb_lt. lia.
Qed.

Lemma out_of_grid_test c r :
  (c <? 0) || (c >=? COLS) || (r <? 0) || (r >=? ROWS) = negb (in_grid c r).
Proof.
  unfold in_grid.
  destruct (c <? 0) eqn:E1, (c >=? COLS) eqn:E2, (r <? 0) eqn:E3,
           (r >=? ROWS) eqn:E4, (0 <=? r) eqn:E5, (r <? ROWS) eqn:E6,
           (0 <=? c) eqn:E7, (c <? COLS) eqn:E8; simpl; try reflexivity;
  rewrite ?Z.ltb_lt, ?Z.ltb_ge, ?Z.geb_le, ?Z.leb_le, ?Z.leb_gt in *;
  try lia;
  try (apply Z.geb_le in E2; lia); try (apply Z.geb_le in E4; lia);
  try (rewrite Z.geb_leb in E2; apply Z.leb_gt in E2; lia);
  try (rewrite Z.geb_leb in E4; apply Z.leb_gt in E4; lia).
Qed.

Lemma grid_set_same {A} (g : grid A) r c v : grid_set g r c v r c = v.
Proof. unfold grid_set. now rewrite !Z.eqb_refl. Qed.

Lemma grid_set_other {A} (g : grid A) r c v r' c' :
  (r', c') <> (r, c) -> grid_set g r c v r' c' = g r' c'.
Proof.
  intros H. unfold grid_set.
  destruct (r' =? r) eqn:E1; destruct (c' =? c) eqn:E2; simpl; try reflexivity.
  apply Z.eqb_eq in E1, E2. subst. congruence.
Qed.

Lemma grid_set_true (g : grid bool) r c r' c' :
  grid_set g r c true r' c' = true <-> (r' = r /\ c' = c) \/ g r' c' = true.
Proof.
  unfold grid_set.
  destruct (r' =? r) eqn:E1; destruct (c' =? c) eqn:E2; simpl;
  rewrite ?Z.eqb_eq, ?Z.eqb_neq in *; intuition congruence.
Qed.

Lemma buildOcc_fold blocks acc r c :
  fold_left
    (fun occ b =>
       if in_grid (bcol b) (brow b)
       then grid_set occ (brow b) (bcol b) true
       else occ) blocks acc r c = true <->
  acc r c = true \/
  exists b, In b blocks /\ in_grid (bcol b) (brow b) = true /\
            brow b = r /\ bcol b = c.
Proof.
  revert acc. induction blocks as [|b blocks IH]; intros acc; simpl.
  - split; [auto | intros [H | [b [[] _]]]; exact H].
  - rewrite IH. destruct (in_grid (bcol b) (brow b)) eqn:E.
    + rewrite grid_set_true. split.
      * intros [[[-> ->] | H] | [b' [Hin H]]]; eauto 8.
      * intros [H | [b' [[-> | Hin] [Hg [Hr Hc]]]]]; eauto 8.
    + split.
      * intros [H | [b' [Hin H]]]; eauto 8.
      * intros [H | [b' [[-> | Hin] [Hg [Hr Hc]]]]]; eauto 8. congruence.
Qed.

Lemma buildOcc_spec blocks r c :
  buildOcc blocks r c = true <->
  exists b, In b blocks /\ in_grid (bcol b) (brow b) = true /\
            brow b = r /\ bcol b = c.
Proof.
  unfold buildOcc. rewrite buildOcc_fold. unfold grid_const.
  split; [intros [H | H]; [discriminate | exact H] | auto].
Qed.

Lemma buildOcc_in_grid blocks r c :
  buildOcc blocks r c = true -> in_grid c r = true.
Proof.
  rewrite buildOcc_spec. intros [b [_ [Hg [<- <-]]]]. exact Hg.
Qed.

(** * The cells of the two nested loops *)

Lemma In_range n z : In z (range n) <-> 0 <= z < n.
Proof.
  unfold range. rewrite in_map_iff. split.
  - intros [k [<- Hk]]. apply in_seq in Hk. lia.
  - intros Hz. exists (Z.to_nat z). split; [lia | apply in_seq; lia].
Qed.

Lemma NoDup_range n : NoDup (range n).
Proof.
  unfold range. apply Injective_map_NoDup.
  - intros a b H. lia.
  - apply seq_NoDup.
Qed.

Lemma In_all_cells p : In p all_cells <-> point_in_grid p = true.
Proof.
  unfold all_cells, point_in_grid. rewrite in_flat_map, in_grid_iff. split.
  - intros [r [Hr Hp]]. apply in_map_iff in Hp as [c [<- Hc]].
    apply In_range in Hr, Hc. simpl. lia.
  - intros [Hr Hc]. exists (pt_y p). split; [now apply In_range|].
    apply in_map_iff. exists (pt_x p). split; [now destruct p | now apply In_range].
Qed.

Lemma length_all_cells : length all_cells = bfs_fuel.
Proof. reflexivity. Qed.

Lemma existsb_ext_in {A} (f g : A -> bool) l :
  (forall x, In x l -> f x = g x) -> existsb f l = existsb g l.
Proof.
  induction l as [|a l IH]; intros H; simpl; [reflexivity|].
  rewrite (H a (or_introl eq_refl)). f_equal. apply IH.
  intros x Hx. apply H. now right.
Qed.

Lemma forallb_ext_in {A} (f g : A -> bool) l :
  (forall x, In x l -> f x = g x) -> forallb f l = forallb g l.
Proof.
  induction l as [|a l IH]; intros H; simpl; [reflexivity|].
  rewrite (H a (or_introl eq_refl)). f_equal. apply IH.
  intros x Hx. apply H. now right.
Qed.

(** * The breadth-first traversal *)

Lemma point_eta p : mkPoint (pt_x p) (pt_y p) = p.
Proof. now destruct p. Qed.

Lemma point_eq p q : pt_x p = pt_x q -> pt_y p = pt_y q -> p = q.
Proof. destruct p, q; simpl; congruence. Qed.

Lemma at_point_set_true (V : grid bool) n p :
  at_point (grid_set V (pt_y n) (pt_x n) true) p = true <->
  p = n \/ at_point V p = true.
Proof.
  unfold at_point. rewrite grid_set_true. split.
  - intros [[H1 H2] | H]; [left; now apply point_eq | now right].
  - intros [-> | H]; [left; split; reflexivity | now right].
Qed.

Lemma neighbours_sym p n : In n (neighbours p) -> In p (neighbours n).
Proof.
  unfold neighbours. simpl.
  intros [<- | [<- | [<- | [<- | []]]]]; simpl;
  [ right; left | left | do 3 right; left | do 2 right; left ];
  apply point_eq; simpl; lia.
Qed.

Section Traversal.

Variable occ : grid bool.

Lemma expand_cases V q n :
  (expand occ (V, q) n = (V, q) /\
   (point_in_grid n = true -> at_point occ n = true -> at_point V n = true)) \/
  (expand occ (V, q) n = (grid_set V (pt_y n) (pt_x n) true, q ++ [n]) /\
   point_in_grid n = true /\ at_point occ n = true /\ at_point V n = false).
Proof.
  unfold expand, point_in_grid, at_point. rewrite out_of_grid_test.
  destruct (in_grid (pt_x n) (pt_y n)); simpl.
  - destruct (occ (pt_y n) (pt_x n)); simpl.
    + destruct (V (pt_y n) (pt_x n)); simpl; auto.
    + left. split; [reflexivity | discriminate].
  - left. split; [reflexivity | discriminate].
Qed.

Lemma expand_fold ns : forall V q V' q',
  fold_left (expand occ) ns (V, q) = (V', q') ->
  exists added,
    q' = q ++ added /\
    (forall p, at_point V' p = true <-> at_point V p = true \/ In p added) /\
    (forall n, In n added ->
       In n ns /\ point_in_grid n = true /\ at_point occ n = true /\
       at_point V n = false) /\
    NoDup added /\
    (forall n, In n ns -> point_in_grid n = true -> at_point occ n = true ->
       at_point V' n = true).
Proof.
  induction ns as [|n ns IH]; intros V q V' q' H; cbn [fold_left] in H.
  - inversion H; subst. exists []. rewrite app_nil_r.
    split; [reflexivity|]. split; [|split; [|split]].
    + intros p. simpl. tauto.
    + intros m [].
    + constructor.
    + intros m [].
  - destruct (expand_cases V q n) as [[E Hn] | [E [Hg [Ho Hv]]]];
      rewrite E in H; apply IH in H as [added [Hq [HV [Hadd [Hnd Hall]]]]].
    + exists added. repeat split; auto.
      * apply HV.
      * apply HV.
      * right. now apply Hadd.
      * now apply Hadd.
      * now apply Hadd.
      * now apply Hadd.
      * intros m [<- | Hm] Hgm Hom; [apply HV; left; auto | auto].
    + exists (n :: added). split; [now rewrite Hq, <- app_assoc|].
      assert (Hfresh : ~ In n added).
      { intros Hin. apply Hadd in Hin as (_ & _ & _ & Hf).
        assert (at_point (grid_set V (pt_y n) (pt_x n) true) n = true)
          by (apply at_point_set_true; now left).
        congruence. }
      split; [|split; [|split]].
      * intros p. rewrite HV, at_point_set_true. simpl. intuition auto.
      * intros m [<- | Hm]; [simpl; auto|].
        destruct (Hadd m Hm) as (Hi & Hgm & Hom & Hvm). repeat split; auto.
        -- now right.
        -- destruct (at_point V m) eqn:Em; [|reflexivity].
           assert (at_point (grid_set V (pt_y n) (pt_x n) true) m = true)
             by (apply at_point_set_true; now right).
           congruence.
      * now constructor.
      * intros m [<- | Hm] Hgm Hom; [|auto].
        apply HV. left. apply at_point_set_true. now left.
Qed.

Lemma bfs_step_inv V0 st st' :
  bfs_inv occ V0 st -> bfs_step occ st = Some st' -> bfs_inv occ V0 st'.
Proof.
  intros [Hc Hnd Hv] Hstep. unfold bfs_step in Hstep.
  destruct (bq st) as [|p q] eqn:Eq; [discriminate|].
  destruct (fold_left (expand occ) (neighbours p) (bvisited st, q))
    as [V' q'] eqn:Ef.
  inversion Hstep; subst st'; clear Hstep.
  apply expand_fold in Ef as [added [-> [HV [Hadd [Hnda _]]]]]. simpl.
  assert (Hperm : forall x, In x ((bcells st ++ [p]) ++ q ++ added) <->
                            In x (bcells st ++ p :: q) \/ In x added).
  { intros x. rewrite !in_app_iff. simpl. tauto. }
  constructor; simpl.
  - intros x Hx. apply Hperm in Hx as [Hx | Hx]; [now apply Hc|].
    destruct (Hadd x Hx) as (_ & Hg & Ho & Hvx). repeat split; auto.
    destruct (at_point V0 x) eqn:E; [|reflexivity].
    assert (at_point (bvisited st) x = true) by (apply Hv; now left).
    congruence.
  - replace ((bcells st ++ [p]) ++ q ++ added)
      with ((bcells st ++ p :: q) ++ added)
      by (rewrite <- !app_assoc; reflexivity).
    apply NoDup_app; [exact Hnd | exact Hnda |].
    intros x Hx Hxa. apply Hadd in Hxa as (_ & _ & _ & Hvx).
    assert (at_point (bvisited st) x = true) by (apply Hv; now right).
    congruence.
  - intros x. rewrite HV, Hv, Hperm. tauto.
Qed.

Lemma bfs_step_closed V0 st st' :
  bfs_inv occ V0 st -> closed_but occ (bvisited st) (bq st) ->
  bfs_step occ st = Some st' -> closed_but occ (bvisited st') (bq st').
Proof.
  intros [Hc Hnd Hv] Hcl Hstep. unfold bfs_step in Hstep.
  destruct (bq st) as [|p q] eqn:Eq; [discriminate|].
  destruct (fold_left (expand occ) (neighbours p) (bvisited st, q))
    as [V' q'] eqn:Ef.
  inversion Hstep; subst st'; clear Hstep.
  apply expand_fold in Ef as [added [-> [HV [Hadd [Hnda Hall]]]]]. simpl.
  intros a n Ha Hnq Hn Hg Ho.
  rewrite in_app_iff in Hnq.
  apply HV in Ha as [Ha | Ha]; [|tauto].
  assert (Hdec : a = p \/ a <> p).
  { destruct a as [ax ay], p as [px py'].
    destruct (Z.eq_dec ax px), (Z.eq_dec ay py'); subst; auto;
    right; congruence. }
  destruct Hdec as [-> | Hne].
  - now apply Hall.
  - apply HV. left. apply (Hcl a n); auto.
    simpl. intros [<- | Hq]; tauto.
Qed.

Lemma bfs_step_none st : bfs_step occ st = None <-> bq st = [].
Proof.
  unfold bfs_step. destruct (bq st) as [|p q]; [tauto|].
  destruct (fold_left (expand occ) (neighbours p) (bvisited st, q)).
  split; discriminate.
Qed.

Lemma bfs_step_cells st st' :
  bfs_step occ st = Some st' ->
  exists p, bcells st' = bcells st ++ [p] /\ hd_error (bq st) = Some p.
Proof.
  unfold bfs_step. destruct (bq st) as [|p q]; [discriminate|].
  destruct (fold_left (expand occ) (neighbours p) (bvisited st, q)).
  intros H. inversion H; subst. simpl. eauto.
Qed.

Lemma bfs_loop_inv V0 fuel : forall st,
  bfs_inv occ V0 st -> bfs_inv occ V0 (bfs_loop fuel occ st).
Proof.
  induction fuel as [|fuel IH]; intros st Hinv; simpl; [exact Hinv|].
  destruct (bfs_step occ st) as [st'|] eqn:E; [|exact Hinv].
  apply IH. eapply bfs_step_inv; eauto.
Qed.

Lemma bfs_loop_closed V0 fuel : forall st,
  bfs_inv occ V0 st -> closed_but occ (bvisited st) (bq st) ->
  closed_but occ (bvisited (bfs_loop fuel occ st)) (bq (bfs_loop fuel occ st)).
Proof.
  induction fuel as [|fuel IH]; intros st Hinv Hcl; simpl; [exact Hcl|].
  destruct (bfs_step occ st) as [st'|] eqn:E; [|exact Hcl].
  apply IH; [eapply bfs_step_inv | eapply bfs_step_closed]; eauto.
Qed.

(** The queue and the collected cells together never hold more cells
    than the grid has. *)
Lemma bfs_inv_bound V0 st :
  bfs_inv occ V0 st -> (length (bcells st) + length (bq st) <= bfs_fuel)%nat.
Proof.
  intros [Hc Hnd _]. rewrite <- length_app, <- length_all_cells.
  apply NoDup_incl_length; [exact Hnd|].
  intros p Hp. apply In_all_cells. now apply Hc.
Qed.

(** The loop ends: with the fuel [bfs] gives it, it stops on an empty
    queue. *)
Lemma bfs_loop_terminates V0 fuel : forall st,
  bfs_inv occ V0 st -> (bfs_fuel <= length (bcells st) + fuel)%nat ->
  bq (bfs_loop fuel occ st) = [].
Proof.
  induction fuel as [|fuel IH]; intros st Hinv Hfuel; simpl.
  - pose proof (bfs_inv_bound V0 st Hinv).
    destruct (bq st); [reflexivity | simpl in *; lia].
  - destruct (bfs_step occ st) as [st'|] eqn:E.
    + apply IH; [eapply bfs_step_inv; eauto|].
      apply bfs_step_cells in E as [p [-> _]].
      rewrite length_app. simpl. lia.
    + now apply bfs_step_none.
Qed.

(** More fuel than needed changes nothing. *)
Lemma bfs_loop_more fuel : forall st k,
  bq (bfs_loop fuel occ st) = [] ->
  bfs_loop (fuel + k) occ st = bfs_loop fuel occ st.
Proof.
  induction fuel as [|fuel IH]; intros st k H; simpl in *.
  - destruct k; simpl; [reflexivity|].
    assert (E : bfs_step occ st = None) by now apply bfs_step_none.
    now rewrite E.
  - destruct (bfs_step occ st) as [st'|] eqn:E; [now apply IH | reflexivity].
Qed.

End Traversal.

(** * The scan over the grid *)

Section Scan.

Variable occ : grid bool.

Lemma bfs_loop_prefix fuel : forall st,
  exists rest, bcells (bfs_loop fuel occ st) = bcells st ++ rest.
Proof.
  induction fuel as [|fuel IH]; intros st; simpl.
  - exists []. now rewrite app_nil_r.
  - destruct (bfs_step occ st) as [st'|] eqn:E.
    + destruct (IH st') as [rest Hr].
      apply bfs_step_cells in E as [p [E _]].
      exists (p :: rest). rewrite Hr, E, <- app_assoc. reflexivity.
    + exists []. now rewrite app_nil_r.
Qed.

(** The first cell a traversal collects is its start. *)
Lemma bfs_cells_head V c0 r0 :
  exists rest, bcells (bfs occ V c0 r0) = mkPoint c0 r0 :: rest.
Proof.
  unfold bfs. change bfs_fuel with (S (Nat.pred bfs_fuel)).
  cbn [bfs_loop].
  destruct (bfs_step occ (mkBfs [mkPoint c0 r0] (grid_set V r0 c0 true) []))
    as [st'|] eqn:E.
  - destruct (bfs_loop_prefix (Nat.pred bfs_fuel) st') as [rest Hr].
    apply bfs_step_cells in E as [p [E Hp]]. simpl in E, Hp.
    inversion Hp; subst p. exists rest. now rewrite Hr, E.
  - apply bfs_step_none in E. discriminate.
Qed.

Lemma bfs_start_inv V c0 r0 :
  in_grid c0 r0 = true -> occ r0 c0 = true -> V r0 c0 = false ->
  bfs_inv occ V (mkBfs [mkPoint c0 r0] (grid_set V r0 c0 true) []).
Proof.
  intros Hg Ho Hv. constructor; simpl.
  - intros p [<- | []]. auto.
  - repeat constructor. intros [].
  - intros p.
    rewrite (at_point_set_true V (mkPoint c0 r0) p). intuition auto.
Qed.

(** What a traversal started on a free occupied cell returns. *)
Lemma bfs_result V c0 r0 :
  in_grid c0 r0 = true -> occ r0 c0 = true -> V r0 c0 = false ->
  closed_but occ V [] ->
  let b := bfs occ V c0 r0 in
  bq b = [] /\
  NoDup (bcells b) /\
  (forall p, In p (bcells b) ->
     point_in_grid p = true /\ at_point occ p = true /\ at_point V p = false) /\
  (forall p, at_point (bvisited b) p = true <->
     at_point V p = true \/ In p (bcells b)) /\
  closed_but occ (bvisited b) [].
Proof.
  intros Hg Ho Hv Hcl b.
  pose proof (bfs_start_inv V c0 r0 Hg Ho Hv) as Hstart.
  assert (Hinv : bfs_inv occ V b) by (apply bfs_loop_inv; exact Hstart).
  assert (Hq : bq b = []).
  { apply (bfs_loop_terminates occ V); [exact Hstart | simpl; lia]. }
  assert (Hclb : closed_but occ (bvisited b) (bq b)).
  { apply (bfs_loop_closed occ V); [exact Hstart|]. simpl.
    intros p n Hp Hnq Hn Hgn Hon.
    apply (at_point_set_true V (mkPoint c0 r0)).
    apply (at_point_set_true V (mkPoint c0 r0)) in Hp as [-> | Hp].
    - simpl in Hnq. tauto.
    - right. apply (Hcl p n); auto. }
  destruct Hinv as [Hc Hnd Hvis]. rewrite Hq in *. rewrite app_nil_r in *.
  auto.
Qed.

(** Every occupied neighbour of a collected cell is collected by the
    same traversal. *)
Lemma bfs_component_closed V c0 r0 :
  in_grid c0 r0 = true -> occ r0 c0 = true -> V r0 c0 = false ->
  closed_but occ V [] ->
  forall p n, In p (bcells (bfs occ V c0 r0)) -> In n (neighbours p) ->
    point_in_grid n = true -> at_point occ n = true ->
    In n (bcells (bfs occ V c0 r0)).
Proof.
  intros Hg Ho Hv Hcl p n Hp Hn Hgn Hon.
  destruct (bfs_result V c0 r0 Hg Ho Hv Hcl) as (_ & _ & Hc & Hvis & Hclb).
  destruct (Hc p Hp) as (Hgp & Hop & Hvp).
  assert (Hvn : at_point (bvisited (bfs occ V c0 r0)) n = true).
  { apply (Hclb p n); auto. apply Hvis. now right. }
  apply Hvis in Hvn as [Hvn | Hvn]; [|exact Hvn].
  assert (at_point V p = true).
  { apply (Hcl n p); auto. now apply neighbours_sym. }
  congruence.
Qed.

Lemma scan_facts todo : forall V,
  (forall p, In p todo -> point_in_grid p = true) ->
  closed_but occ V [] ->
  scan_ok occ V todo (scan occ V todo).
Proof.
  induction todo as [|p0 todo IH]; intros V Hg Hcl; simpl.
  - constructor; simpl; try tauto. constructor.
  - assert (Hg' : forall p, In p todo -> point_in_grid p = true)
      by (intros; apply Hg; now right).
    destruct (occ (pt_y p0) (pt_x p0)) eqn:Eo; simpl.
    + destruct (V (pt_y p0) (pt_x p0)) eqn:Ev.
      * destruct (IH V Hg' Hcl) as [H1 H2 H3 H4 H5].
        constructor; auto.
        intros p [<- | Hp] Hop; [now left | auto].
      * assert (Hg0 : in_grid (pt_x p0) (pt_y p0) = true)
          by (apply Hg; now left).
        destruct (bfs_result V _ _ Hg0 Eo Ev Hcl) as (_ & Hnd & Hc & Hvis & Hclb).
        pose proof (bfs_component_closed V _ _ Hg0 Eo Ev Hcl) as Hcc.
        destruct (bfs_cells_head V (pt_x p0) (pt_y p0)) as [rest Hhd].
        rewrite point_eta in Hhd.
        set (b := bfs occ V (pt_x p0) (pt_y p0)) in *.
        destruct (IH (bvisited b) Hg' Hclb) as [H1 H2 H3 H4 H5].
        constructor.
        -- intros C p [<- | HC] Hp; [now apply Hc|].
           destruct (H1 C p HC Hp) as (Hgp & Hop & Hvp).
           repeat split; auto.
           destruct (at_point V p) eqn:E; [|reflexivity].
           assert (at_point (bvisited b) p = true) by (apply Hvis; now left).
           congruence.
        -- simpl. apply NoDup_app; auto.
           intros p Hp Hp'. apply in_concat in Hp' as [C [HC HpC]].
           destruct (H1 C p HC HpC) as (_ & _ & Hvp).
           assert (at_point (bvisited b) p = true) by (apply Hvis; now right).
           congruence.
        -- intros p [<- | Hp] Hop.
           ++ right. exists (bcells b). split; [now left|].
              rewrite Hhd. now left.
           ++ destruct (H3 p Hp Hop) as [Hvp | [C [HC HpC]]].
              ** apply Hvis in Hvp as [Hvp | Hvp]; [now left|].
                 right. exists (bcells b). split; [now left | exact Hvp].
              ** right. exists C. split; [now right | exact HpC].
        -- intros C [<- | HC]; [rewrite Hhd; discriminate | auto].
        -- intros C p n [<- | HC]; [apply Hcc | now apply H5].
    + destruct (IH V Hg' Hcl) as [H1 H2 H3 H4 H5].
      constructor; auto.
      intros p [<- | Hp] Hop; [unfold at_point in Hop; congruence | auto].
Qed.

(** The head of a component is the cell its traversal started on. *)
Lemma scan_heads todo : forall V C,
  In C (scan occ V todo) ->
  exists p0 rest, C = p0 :: rest /\ In p0 todo /\
    at_point occ p0 = true.
Proof.
  induction todo as [|p0 todo IH]; intros V C HC; simpl in HC; [tauto|].
  destruct (occ (pt_y p0) (pt_x p0)) eqn:Eo; simpl in HC.
  - destruct (V (pt_y p0) (pt_x p0)).
    + destruct (IH _ _ HC) as (q0 & rest & ? & ? & ?).
      exists q0, rest. simpl. auto.
    + destruct HC as [<- | HC].
      * destruct (bfs_cells_head V (pt_x p0) (pt_y p0)) as [rest Hhd].
        rewrite point_eta in Hhd. exists p0, rest. simpl. auto.
      * destruct (IH _ _ HC) as (q0 & rest & ? & ? & ?).
        exists q0, rest. simpl. auto.
  - destruct (IH _ _ HC) as (q0 & rest & ? & ? & ?).
    exists q0, rest. simpl. auto.
Qed.

End Scan.

Lemma closed_but_const occ : closed_but occ (grid_const false) [].
Proof. intros p n Hp. discriminate. Qed.

Lemma components_scan blocks :
  components blocks = scan (buildOcc blocks) (grid_const false) all_cells.
Proof. destruct blocks; [vm_compute; reflexivity | reflexivity]. Qed.

Lemma components_ok blocks :
  scan_ok (buildOcc blocks) (grid_const false) all_cells (components blocks).
Proof.
  rewrite components_scan. apply scan_facts.
  - intros p. apply In_all_cells.
  - apply closed_but_const.
Qed.

Lemma occupied_iff blocks p :
  occupied blocks p <->
  exists b, In b blocks /\ bcol b = pt_x p /\ brow b = pt_y p /\
            in_grid (bcol b) (brow b) = true.
Proof.
  unfold occupied, point_in_grid. rewrite buildOcc_spec. split.
  - intros [Hg [b (Hin & Hgb & Hr & Hc)]]. exists b. auto.
  - intros [b (Hin & Hc & Hr & Hg)]. split; [now rewrite <- Hc, <- Hr|].
    exists b. auto.
Qed.

Lemma NoDup_concat_unique {A} (L : list (list A)) C C' x :
  NoDup (concat L) -> In C L -> In C' L -> In x C -> In x C' -> C = C'.
Proof.
  induction L as [|D L IH]; simpl; [tauto|].
  intros Hnd HC HC' Hx Hx'.
  assert (Hdis : forall y, In y D -> ~ In y (concat L)).
  { intros y Hy Hy'. revert Hnd Hy Hy'. clear. induction D as [|d D IH]; simpl.
    - tauto.
    - intros Hnd [-> | Hy] Hy'.
      + inversion Hnd; subst. apply H1. apply in_or_app. now right.
      + inversion Hnd; subst. now apply IH. }
  destruct HC as [<- | HC], HC' as [<- | HC'].
  - reflexivity.
  - exfalso. apply (Hdis x Hx). apply in_concat. eauto.
  - exfalso. apply (Hdis x Hx'). apply in_concat. eauto.
  - apply IH; auto. now apply NoDup_app_remove_l in Hnd.
Qed.

(** * The resolver in terms of its components *)

Section Resolve.

Variables (occ : grid bool) (typeAt : grid BlockType) (fallSpeed : Q).
Variables pLeftCol pRightCol pTopRow pBotRow : Z.


Lemma resolve_fold todo : forall st,
  let r := fold_left
             (resolve_cell occ typeAt fallSpeed pLeftCol pRightCol pTopRow pBotRow)
             todo st in
  let comps := scan occ (rs_visited st) todo in
  rs_newStatic r =
    rs_newStatic st ++
    concat (map (blocks_of typeAt)
              (filter (fun C => supported occ C pLeftCol pRightCol pTopRow pBotRow)
                      comps)) /\
  rs_shapes r =
    rs_shapes st ++
    map (shape_of typeAt fallSpeed)
        (filter (fun C => negb (supported occ C pLeftCol pRightCol pTopRow pBotRow))
                comps).
Proof.
  induction todo as [|p0 todo IH]; intros st; cbn [fold_left scan].
  - simpl. now rewrite !app_nil_r.
  - destruct (negb (occ (pt_y p0) (pt_x p0)) || rs_visited st (pt_y p0) (pt_x p0))
      eqn:E.
    + assert (Hc : resolve_cell occ typeAt fallSpeed pLeftCol pRightCol pTopRow
                     pBotRow st p0 = st)
        by (unfold resolve_cell; now rewrite E).
      rewrite Hc. apply IH.
    + set (b := bfs occ (rs_visited st) (pt_x p0) (pt_y p0)).
      cbn [filter]. cbv beta.
      destruct (supported occ (bcells b) pLeftCol pRightCol pTopRow pBotRow)
        eqn:Es; cbn [negb].
      * assert (Hc : resolve_cell occ typeAt fallSpeed pLeftCol pRightCol pTopRow
                       pBotRow st p0 =
                     mkResolve (bvisited b)
                       (rs_newStatic st ++ blocks_of typeAt (bcells b))
                       (rs_shapes st)).
        { unfold resolve_cell. rewrite E. fold b. now rewrite Es. }
        rewrite Hc.
        destruct (IH (mkResolve (bvisited b)
                        (rs_newStatic st ++ blocks_of typeAt (bcells b))
                        (rs_shapes st))) as [H1 H2].
        cbn [rs_visited rs_newStatic rs_shapes] in H1, H2.
        rewrite H1, H2. cbn [map concat]. now rewrite <- app_assoc.
      * assert (Hc : resolve_cell occ typeAt fallSpeed pLeftCol pRightCol pTopRow
                       pBotRow st p0 =
                     mkResolve (bvisited b) (rs_newStatic st)
                       (rs_shapes st ++ [shape_of typeAt fallSpeed (bcells b)])).
        { unfold resolve_cell. rewrite E. fold b. now rewrite Es. }
        rewrite Hc.
        destruct (IH (mkResolve (bvisited b) (rs_newStatic st)
                        (rs_shapes st ++ [shape_of typeAt fallSpeed (bcells b)])))
          as [H1 H2].
        cbn [rs_visited rs_newStatic rs_shapes] in H1, H2.
        rewrite H1, H2. cbn [map]. now rewrite <- app_assoc.
Qed.

End Resolve.

(** [resolveFloatingClusters] re-emits the supported components as blocks
    and appends one shape per floating component. *)
Lemma resolve_eq blocks shapes fallSpeed pL pR pT pB :
  let occ := buildOcc blocks in
  let typeAt := buildTypeAt blocks in
  let sup := fun C => supported occ C pL pR pT pB in
  resolveFloatingClusters blocks shapes fallSpeed pL pR pT pB =
  (concat (map (blocks_of typeAt) (filter sup (components blocks))),
   shapes ++ map (shape_of typeAt fallSpeed)
                 (filter (fun C => negb (sup C)) (components blocks))).
Proof.
  intros occ typeAt sup. destruct blocks as [|b blocks].
  - simpl. now rewrite app_nil_r.
  - unfold resolveFloatingClusters, components.
    match goal with |- context [fold_left ?f all_cells ?s] =>
      destruct (resolve_fold (buildOcc (b :: blocks)) (buildTypeAt (b :: blocks))
                  fallSpeed pL pR pT pB all_cells s) as [H1 H2] end.
    cbn [rs_visited rs_newStatic rs_shapes] in H1, H2.
    cbv zeta. rewrite H1, H2. reflexivity.
Qed.

(** * The support rules *)

Lemma belowInComp_iff cells col belowRow :
  belowInComp cells col belowRow = true <-> In (mkPoint col belowRow) cells.
Proof.
  unfold belowInComp. rewrite existsb_exists. split.
  - intros [q [Hq Hc]]. apply andb_true_iff in Hc as [H1 H2].
    apply Z.eqb_eq in H1, H2. subst. now rewrite point_eta.
  - intros H. exists (mkPoint col belowRow). simpl. now rewrite !Z.eqb_refl.
Qed.

Lemma supported_from_iff occ cells pL pR pT pB rest :
  supported_from occ cells pL pR pT pB rest = true <->
  exists p, In p rest /\
    (rule_ground p = true \/ rule_external occ cells p = true \/
     rule_player pL pR pT pB p = true).
Proof.
  induction rest as [|p rest IH]; simpl.
  - split; [discriminate | intros [p [[] _]]].
  - destruct (rule_ground p) eqn:E1; [split; eauto 6|].
    destruct (rule_external occ cells p) eqn:E2; [split; eauto 6|].
    destruct (rule_player pL pR pT pB p) eqn:E3; [split; eauto 6|].
    rewrite IH. split.
    + intros [q [Hq H]]. eauto.
    + intros [q [[<- | Hq] H]]; [|eauto].
      destruct H as [H | [H | H]]; congruence.
Qed.

Lemma supported_from_existsb occ cells pL pR pT pB rest :
  supported_from occ cells pL pR pT pB rest =
  existsb (fun p => rule_ground p || rule_external occ cells p ||
                    rule_player pL pR pT pB p) rest.
Proof.
  induction rest as [|p rest IH]; simpl; [reflexivity|].
  destruct (rule_ground p), (rule_external occ cells p),
           (rule_player pL pR pT pB p); simpl; auto.
Qed.

Lemma rule_player_iff pL pR pT pB p :
  rule_player pL pR pT pB p = true <->
  (pT <= pt_y p + 1 <= pB /\ pL <= pt_x p <= pR).
Proof.
  unfold rule_player. rewrite !andb_true_iff, !Z.geb_le, !Z.leb_le. lia.
Qed.

(** The cell directly below [p]. *)
Lemma rule_external_iff blocks cells p :
  rule_external (buildOcc blocks) cells p = true <->
  occupied blocks (mkPoint (pt_x p) (pt_y p + 1)) /\
  ~ In (mkPoint (pt_x p) (pt_y p + 1)) cells.
Proof.
  unfold rule_external, occupied, point_in_grid. simpl.
  rewrite !andb_true_iff, negb_true_iff, Z.ltb_lt.
  rewrite <- belowInComp_iff. split.
  - intros [[H1 H2] H3]. repeat split; auto.
    + now apply buildOcc_in_grid in H2.
    + congruence.
  - intros [[Hg Ho] Hn]. apply in_grid_iff in Hg. repeat split; auto; try lia.
    now destruct (belowInComp cells (pt_x p) (pt_y p + 1)).
Qed.

(** Rule 2 finds nothing on a component the scan collected. *)
Lemma rule_external_component blocks C p :
  In C (components blocks) -> In p C ->
  rule_external (buildOcc blocks) C p = false.
Proof.
  intros HC Hp.
  destruct (rule_external (buildOcc blocks) C p) eqn:E; [|reflexivity].
  apply rule_external_iff in E as [[Hg Ho] Hn]. exfalso. apply Hn.
  destruct (components_ok blocks) as [_ _ _ _ Hcl].
  apply (Hcl C p); auto.
  unfold neighbours. simpl. auto.
Qed.

(** On a component of the scan, the support loop is decided by the
    ground rule and the player rule. *)
Lemma supported_component blocks pL pR pT pB C :
  In C (components blocks) ->
  supported (buildOcc blocks) C pL pR pT pB =
  existsb (fun p => rule_ground p || rule_player pL pR pT pB p) C.
Proof.
  intros HC. unfold supported. rewrite supported_from_existsb.
  apply existsb_ext_in.
  intros p Hp. rewrite (rule_external_component blocks C p HC Hp).
  now rewrite orb_false_r.
Qed.

(** * Partition and support *)

(** C3 (partition property).  For every block list, the components the
    breadth-first traversals of [resolveFloatingClusters] collect
    partition the occupied cells of the derived grid: a cell belongs to a
    component exactly when it is occupied, no cell occurs twice (inside
    one component or in two of them), two components that share a cell
    are the same, and no component is empty. *)
Theorem components_partition (blocks : list Block) :
  (forall p, occupied blocks p <-> exists C, In C (components blocks) /\ In p C) /\
  NoDup (concat (components blocks)) /\
  (forall C C' p, In C (components blocks) -> In C' (components blocks) ->
     In p C -> In p C' -> C = C') /\
  (forall C, In C (components blocks) -> C <> []).
Proof.
  destruct (components_ok blocks) as [Hcells Hnd Hcov Hne _].
  split; [|split; [|split]].
  - intros p. split.
    + intros [Hg Ho].
      destruct (Hcov p) as [Hv | H]; auto.
      * now apply In_all_cells.
      * discriminate.
    + intros [C [HC Hp]]. destruct (Hcells C p HC Hp) as (Hg & Ho & _).
      split; assumption.
  - exact Hnd.
  - intros C C' p HC HC' Hp Hp'. eapply NoDup_concat_unique; eauto.
  - exact Hne.
Qed.

(** C4 (support correctness).  For a component found by
    [resolveFloatingClusters]: with a cell on row [ROWS - 1] it is
    classified supported and its cells are re-emitted as blocks; with no
    cell on that row, no member whose cell directly below is occupied
    outside the component and no member with the player below, it is
    classified floating and its falling shape is appended. *)
Theorem support_classification
    (blocks : list Block) (shapes : list FallingShape) (fallSpeed : Q)
    (pL pR pT pB : Z) (C : list SDL_Point) :
  In C (components blocks) ->
  ((exists p, In p C /\ pt_y p = ROWS - 1) ->
     supported (buildOcc blocks) C pL pR pT pB = true /\
     incl (blocks_of (buildTypeAt blocks) C)
          (fst (resolveFloatingClusters blocks shapes fallSpeed pL pR pT pB))) /\
  ((forall p, In p C -> pt_y p <> ROWS - 1) ->
   (forall p, In p C ->
      ~ (occupied blocks (mkPoint (pt_x p) (pt_y p + 1)) /\
         ~ In (mkPoint (pt_x p) (pt_y p + 1)) C)) ->
   (forall p, In p C -> ~ player_below pL pR pT pB p) ->
     supported (buildOcc blocks) C pL pR pT pB = false /\
     In (shape_of (buildTypeAt blocks) fallSpeed C)
        (snd (resolveFloatingClusters blocks shapes fallSpeed pL pR pT pB))).
Proof.
  intros HC. rewrite resolve_eq. cbn [fst snd]. split.
  - intros [p [Hp Hrow]].
    assert (Hs : supported (buildOcc blocks) C pL pR pT pB = true).
    { unfold supported. apply supported_from_iff. exists p. split; [exact Hp|].
      left. unfold rule_ground. now apply Z.eqb_eq. }
    split; [exact Hs|].
    intros b Hb. apply in_concat. exists (blocks_of (buildTypeAt blocks) C).
    split; [|exact Hb].
    apply in_map. apply filter_In. split; assumption.
  - intros Hfloor Hext Hplayer.
    assert (Hs : supported (buildOcc blocks) C pL pR pT pB = false).
    { destruct (supported (buildOcc blocks) C pL pR pT pB) eqn:E; [|reflexivity].
      unfold supported in E. apply supported_from_iff in E as [p [Hp H]].
      exfalso. destruct H as [H | [H | H]].
      - unfold rule_ground in H. apply Z.eqb_eq in H. now apply (Hfloor p).
      - apply rule_external_iff in H. now apply (Hext p).
      - apply rule_player_iff in H. now apply (Hplayer p). }
    split; [exact Hs|].
    apply in_or_app. right. apply in_map. apply filter_In.
    split; [exact HC | now rewrite Hs].
Qed.

Lemma support_classification_witness :
  (supported (buildOcc support_example)
     [mkPoint 2 18; mkPoint 3 18; mkPoint 2 19] 9 9 18 18 = true /\
   incl (blocks_of (buildTypeAt support_example)
           [mkPoint 2 18; mkPoint 3 18; mkPoint 2 19])
        (fst (resolveFloatingClusters support_example [] 220%Q 9 9 18 18))) /\
  (supported (buildOcc support_example)
     [mkPoint 5 3; mkPoint 5 4; mkPoint 5 5; mkPoint 5 6] 9 9 18 18 = false /\
   In (shape_of (buildTypeAt support_example) 220%Q
         [mkPoint 5 3; mkPoint 5 4; mkPoint 5 5; mkPoint 5 6])
      (snd (resolveFloatingClusters support_example [] 220%Q 9 9 18 18))).
Proof.
  assert (HC1 : In [mkPoint 2 18; mkPoint 3 18; mkPoint 2 19]
                   (components support_example)) by (vm_compute; auto).
  assert (HC2 : In [mkPoint 5 3; mkPoint 5 4; mkPoint 5 5; mkPoint 5 6]
                   (components support_example)) by (vm_compute; auto).
  pose proof (support_classification support_example [] 220%Q 9 9 18 18 _ HC1)
    as [H1 _].
  pose proof (support_classification support_example [] 220%Q 9 9 18 18 _ HC2)
    as [_ H2].
  split.
  - apply H1. exists (mkPoint 2 19). split; [do 2 right; now left | reflexivity].
  - apply H2.
    + intros p [<- | [<- | [<- | [<- | []]]]]; vm_compute; discriminate.
    + intros p [<- | [<- | [<- | [<- | []]]]]; intros [[_ Ho] Hn];
        try (vm_compute in Ho; discriminate).
      all: apply Hn; cbn [pt_x pt_y Z.add Pos.add Pos.succ In]; auto.
    + intros p [<- | [<- | [<- | [<- | []]]]]; unfold player_below; simpl; lia.
Defined.

(** C10 (rule 2 never fires).  On a component collected by the
    traversal, a member's occupied cell directly below is a member too,
    so the external-support test is false at every member and the
    classification is decided by the ground rule and the player rule
    alone. *)
Theorem external_support_never_succeeds
    (blocks : list Block) (pL pR pT pB : Z) (C : list SDL_Point) :
  In C (components blocks) ->
  (forall p, In p C -> occupied blocks (mkPoint (pt_x p) (pt_y p + 1)) ->
     In (mkPoint (pt_x p) (pt_y p + 1)) C /\
     belowInComp C (pt_x p) (pt_y p + 1) = true) /\
  (forall p, In p C -> rule_external (buildOcc blocks) C p = false) /\
  supported (buildOcc blocks) C pL pR pT pB =
  existsb (fun p => rule_ground p || rule_player pL pR pT pB p) C.
Proof.
  intros HC. split; [|split].
  - intros p Hp [Hg Ho].
    assert (Hin : In (mkPoint (pt_x p) (pt_y p + 1)) C).
    { destruct (components_ok blocks) as [_ _ _ _ Hcl].
      apply (Hcl C p); auto. unfold neighbours. simpl. auto. }
    split; [exact Hin | now apply belowInComp_iff].
  - intros p Hp. now apply rule_external_component.
  - now apply supported_component.
Qed.

Lemma external_support_never_succeeds_witness :
  (forall p, In p [mkPoint 2 18; mkPoint 3 18; mkPoint 2 19] ->
     occupied support_example (mkPoint (pt_x p) (pt_y p + 1)) ->
     In (mkPoint (pt_x p) (pt_y p + 1)) [mkPoint 2 18; mkPoint 3 18; mkPoint 2 19] /\
     belowInComp [mkPoint 2 18; mkPoint 3 18; mkPoint 2 19]
       (pt_x p) (pt_y p + 1) = true) /\
  (forall p, In p [mkPoint 2 18; mkPoint 3 18; mkPoint 2 19] ->
     rule_external (buildOcc support_example)
       [mkPoint 2 18; mkPoint 3 18; mkPoint 2 19] p = false) /\
  supported (buildOcc support_example)
    [mkPoint 2 18; mkPoint 3 18; mkPoint 2 19] 9 9 18 18 =
  existsb (fun p => rule_ground p || rule_player 9 9 18 18 p)
    [mkPoint 2 18; mkPoint 3 18; mkPoint 2 19].
Proof.
  assert (HC : In [mkPoint 2 18; mkPoint 3 18; mkPoint 2 19]
                  (components support_example)) by (vm_compute; auto).
  exact (external_support_never_succeeds support_example 9 9 18 18 _ HC).
Defined.

(** * Scanning a grid from which whole components were removed *)

Section Lockstep.

Variables occ1 occ2 : grid bool.

Hypothesis occ2_sub : forall p, at_point occ2 p = true -> at_point occ1 p = true.

Hypothesis occ2_closed : forall p n,
  at_point occ2 p = true -> In n (neighbours p) ->
  point_in_grid n = true -> at_point occ1 n = true -> at_point occ2 n = true.

Lemma agree_set V1 V2 n :
  agree occ2 V1 V2 ->
  agree occ2 (grid_set V1 (pt_y n) (pt_x n) true)
             (grid_set V2 (pt_y n) (pt_x n) true).
Proof.
  intros H m Hm. specialize (H m Hm). unfold at_point, grid_set in *.
  now destruct ((pt_y m =? pt_y n) && (pt_x m =? pt_x n)).
Qed.

Lemma expand_lock V1 V2 q p n :
  agree occ2 V1 V2 -> at_point occ2 p = true -> In n (neighbours p) ->
  (forall m, In m q -> at_point occ2 m = true) ->
  exists V1' V2' q',
    expand occ1 (V1, q) n = (V1', q') /\
    expand occ2 (V2, q) n = (V2', q') /\
    agree occ2 V1' V2' /\
    (forall m, In m q' -> at_point occ2 m = true).
Proof.
  intros Hag Hp Hn Hq.
  destruct (expand_cases occ1 V1 q n) as [[E1 H1] | [E1 (Hg1 & Ho1 & Hv1)]];
  destruct (expand_cases occ2 V2 q n) as [[E2 H2] | [E2 (Hg2 & Ho2 & Hv2)]];
  rewrite E1, E2.
  - exists V1, V2, q. auto.
  - exfalso. pose proof (Hag n Ho2) as Hnn.
    rewrite (H1 Hg2 (occ2_sub n Ho2)) in Hnn. congruence.
  - exfalso. assert (Ho2 : at_point occ2 n = true)
      by (apply (occ2_closed p n); auto).
    pose proof (Hag n Ho2) as Hnn. rewrite (H2 Hg1 Ho2) in Hnn. congruence.
  - do 3 eexists. split; [reflexivity|]. split; [reflexivity|].
    split; [now apply agree_set|].
    intros m Hm. apply in_app_iff in Hm as [Hm | [<- | []]]; auto.
Qed.

Lemma fold_lock p ns : forall V1 V2 q,
  agree occ2 V1 V2 -> at_point occ2 p = true ->
  (forall n, In n ns -> In n (neighbours p)) ->
  (forall m, In m q -> at_point occ2 m = true) ->
  exists V1' V2' q',
    fold_left (expand occ1) ns (V1, q) = (V1', q') /\
    fold_left (expand occ2) ns (V2, q) = (V2', q') /\
    agree occ2 V1' V2' /\
    (forall m, In m q' -> at_point occ2 m = true).
Proof.
  induction ns as [|n ns IH]; intros V1 V2 q Hag Hp Hns Hq; cbn [fold_left].
  - exists V1, V2, q. auto.
  - destruct (expand_lock V1 V2 q p n Hag Hp (Hns n (or_introl eq_refl)) Hq)
      as (V1' & V2' & q' & E1 & E2 & Hag' & Hq').
    rewrite E1, E2. apply IH; auto.
    intros m Hm. apply Hns. now right.
Qed.

Lemma step_lock st1 st2 :
  locked occ2 st1 st2 ->
  (bfs_step occ1 st1 = None /\ bfs_step occ2 st2 = None) \/
  (exists st1' st2', bfs_step occ1 st1 = Some st1' /\
     bfs_step occ2 st2 = Some st2' /\ locked occ2 st1' st2').
Proof.
  intros (Hq & Hc & Hag & Hin). unfold bfs_step. rewrite <- Hq, <- Hc.
  destruct (bq st1) as [|p q]; [now left|]. right.
  destruct (fold_lock p (neighbours p) (bvisited st1) (bvisited st2) q)
    as (V1' & V2' & q' & E1 & E2 & Hag' & Hq'); auto.
  - apply Hin. now left.
  - intros m Hm. apply Hin. now right.
  - rewrite E1, E2. do 2 eexists. split; [reflexivity|].
    split; [reflexivity|]. repeat split; auto.
Qed.

Lemma loop_lock fuel : forall st1 st2,
  locked occ2 st1 st2 ->
  locked occ2 (bfs_loop fuel occ1 st1) (bfs_loop fuel occ2 st2).
Proof.
  induction fuel as [|fuel IH]; intros st1 st2 H; simpl; [exact H|].
  destruct (step_lock st1 st2 H) as [[E1 E2] | (st1' & st2' & E1 & E2 & H')];
    rewrite E1, E2; auto.
Qed.

Lemma bfs_lock V1 V2 c0 r0 :
  agree occ2 V1 V2 -> occ2 r0 c0 = true ->
  locked occ2 (bfs occ1 V1 c0 r0) (bfs occ2 V2 c0 r0).
Proof.
  intros Hag Ho. unfold bfs. apply loop_lock. repeat split; simpl.
  - apply (agree_set V1 V2 (mkPoint c0 r0) Hag).
  - intros m [<- | []]. exact Ho.
Qed.

(** A traversal of [occ1] started outside [occ2] stays outside. *)
Lemma step_outside V0 st st' :
  bfs_inv occ1 V0 st ->
  (forall m, In m (bcells st ++ bq st) -> at_point occ2 m = false) ->
  bfs_step occ1 st = Some st' ->
  forall m, In m (bcells st' ++ bq st') -> at_point occ2 m = false.
Proof.
  intros [Hc _ _] Hout Hstep. unfold bfs_step in Hstep.
  destruct (bq st) as [|p q] eqn:Eq; [discriminate|].
  destruct (fold_left (expand occ1) (neighbours p) (bvisited st, q))
    as [V' q'] eqn:Ef.
  inversion Hstep; subst st'; clear Hstep.
  apply expand_fold in Ef as [added [-> [_ [Hadd _]]]]. simpl.
  intros m Hm.
  assert (Hm' : In m (bcells st ++ p :: q) \/ In m added).
  { rewrite !in_app_iff in Hm. simpl in Hm. rewrite in_app_iff. simpl. tauto. }
  destruct Hm' as [Hm' | Hm']; [now apply Hout|].
  destruct (Hadd m Hm') as (Hn & Hg & Ho & _).
  destruct (at_point occ2 m) eqn:E; [|reflexivity].
  assert (Hp : In p (bcells st ++ p :: q)) by (apply in_or_app; right; now left).
  destruct (Hc p Hp) as (Hgp & Hop & _).
  assert (at_point occ2 p = true).
  { apply (occ2_closed m p); auto. now apply neighbours_sym. }
  rewrite (Hout p Hp) in H. discriminate.
Qed.

Lemma loop_outside V0 fuel : forall st,
  bfs_inv occ1 V0 st ->
  (forall m, In m (bcells st ++ bq st) -> at_point occ2 m = false) ->
  forall m, In m (bcells (bfs_loop fuel occ1 st) ++ bq (bfs_loop fuel occ1 st)) ->
    at_point occ2 m = false.
Proof.
  induction fuel as [|fuel IH]; intros st Hinv Hout; simpl; [exact Hout|].
  destruct (bfs_step occ1 st) as [st'|] eqn:E; [|exact Hout].
  apply IH; [eapply bfs_step_inv | eapply step_outside]; eauto.
Qed.

Lemma bfs_outside V1 V2 c0 r0 :
  in_grid c0 r0 = true -> occ1 r0 c0 = true -> V1 r0 c0 = false ->
  occ2 r0 c0 = false -> agree occ2 V1 V2 ->
  agree occ2 (bvisited (bfs occ1 V1 c0 r0)) V2.
Proof.
  intros Hg Ho Hv Ho2 Hag m Hm.
  pose proof (bfs_start_inv occ1 V1 c0 r0 Hg Ho Hv) as Hstart.
  pose proof (bfs_loop_inv occ1 V1 bfs_fuel _ Hstart) as [_ _ Hvis].
  fold (bfs occ1 V1 c0 r0) in Hvis.
  assert (Hout : forall x,
            In x (bcells (bfs occ1 V1 c0 r0) ++ bq (bfs occ1 V1 c0 r0)) ->
            at_point occ2 x = false).
  { apply (loop_outside V1); [exact Hstart|].
    simpl. intros x [<- | []]. exact Ho2. }
  rewrite <- (Hag m Hm).
  destruct (at_point V1 m) eqn:E1.
  - apply Hvis. now left.
  - destruct (at_point (bvisited (bfs occ1 V1 c0 r0)) m) eqn:E; [|reflexivity].
    apply Hvis in E as [E | E]; [congruence|].
    rewrite (Hout m E) in Hm. discriminate.
Qed.

(** The scan of [occ2] collects the components of [occ1] whose first
    cell is in [occ2], in the same order and with the same cell order. *)
Lemma scan_restrict todo : forall V1 V2,
  (forall p, In p todo -> point_in_grid p = true) ->
  agree occ2 V1 V2 ->
  scan occ2 V2 todo =
  filter (fun C => at_point occ2 (hd (mkPoint 0 0) C)) (scan occ1 V1 todo).
Proof.
  induction todo as [|p0 todo IH]; intros V1 V2 Hg Hag; cbn [scan];
    [reflexivity|].
  assert (Hg' : forall p, In p todo -> point_in_grid p = true)
    by (intros; apply Hg; now right).
  assert (Hg0 : in_grid (pt_x p0) (pt_y p0) = true) by (apply Hg; now left).
  destruct (occ1 (pt_y p0) (pt_x p0)) eqn:Eo1; cbn [negb orb].
  - destruct (occ2 (pt_y p0) (pt_x p0)) eqn:Eo2; cbn [negb orb].
    + rewrite <- (Hag p0 Eo2 : V1 (pt_y p0) (pt_x p0) = V2 (pt_y p0) (pt_x p0)).
      destruct (V1 (pt_y p0) (pt_x p0)) eqn:Ev1; [now apply IH|].
      destruct (bfs_lock V1 V2 (pt_x p0) (pt_y p0) Hag Eo2)
        as (_ & Hcells & Hag' & _).
      destruct (bfs_cells_head occ1 V1 (pt_x p0) (pt_y p0)) as [rest Hhd].
      cbn [filter]. rewrite Hhd at 1. cbn [hd]. unfold at_point at 1.
      cbn [pt_x pt_y]. rewrite Eo2. rewrite <- Hcells. f_equal.
      now apply IH.
    + destruct (V1 (pt_y p0) (pt_x p0)) eqn:Ev1; [now apply IH|].
      destruct (bfs_cells_head occ1 V1 (pt_x p0) (pt_y p0)) as [rest Hhd].
      cbn [filter]. rewrite Hhd at 1. cbn [hd]. unfold at_point at 1.
      cbn [pt_x pt_y]. rewrite Eo2.
      apply IH; [exact Hg'|]. now apply bfs_outside.
  - assert (Eo2 : occ2 (pt_y p0) (pt_x p0) = false).
    { destruct (occ2 (pt_y p0) (pt_x p0)) eqn:E; [|reflexivity].
      pose proof (occ2_sub p0 E) as H. unfold at_point in H. congruence. }
    rewrite Eo2. cbn [negb orb]. now apply IH.
Qed.

End Lockstep.

(** * Running the resolver twice *)

Lemma buildTypeAt_fold blocks : forall acc r c t,
  (forall b, In b blocks -> in_grid (bcol b) (brow b) = true ->
     brow b = r -> bcol b = c -> btype b = t) ->
  (acc r c = t \/
   exists b, In b blocks /\ in_grid (bcol b) (brow b) = true /\
             brow b = r /\ bcol b = c) ->
  fold_left
    (fun ty b =>
       if in_grid (bcol b) (brow b)
       then grid_set ty (brow b) (bcol b) (btype b)
       else ty) blocks acc r c = t.
Proof.
  induction blocks as [|b0 blocks IH]; intros acc r c t Hall Hex; cbn [fold_left].
  - destruct Hex as [H | [b [[] _]]]. exact H.
  - apply IH.
    + intros b Hb. apply Hall. now right.
    + assert (Hdec : (brow b0 = r /\ bcol b0 = c) \/ (r, c) <> (brow b0, bcol b0)).
      { destruct (Z.eq_dec (brow b0) r), (Z.eq_dec (bcol b0) c); subst; auto;
        right; congruence. }
      destruct (in_grid (bcol b0) (brow b0)) eqn:Eg.
      * destruct Hdec as [[Hr Hc] | Hne].
        -- left. subst. rewrite grid_set_same.
           apply Hall; auto. now left.
        -- rewrite grid_set_other by exact Hne.
           destruct Hex as [H | [b [[<- | Hb] (Hg & Hr & Hc)]]].
           ++ now left.
           ++ subst. congruence.
           ++ right. eauto.
      * destruct Hex as [H | [b [[<- | Hb] (Hg & Hr & Hc)]]].
        -- now left.
        -- congruence.
        -- right. eauto.
Qed.

Lemma filter_all {A} (f : A -> bool) l :
  (forall x, In x l -> f x = true) -> filter f l = l.
Proof.
  induction l as [|a l IH]; intros H; simpl; [reflexivity|].
  rewrite (H a (or_introl eq_refl)). f_equal. apply IH.
  intros x Hx. apply H. now right.
Qed.

Lemma filter_none {A} (f : A -> bool) l :
  (forall x, In x l -> f x = false) -> filter f l = [].
Proof.
  induction l as [|a l IH]; intros H; simpl; [reflexivity|].
  rewrite (H a (or_introl eq_refl)). apply IH.
  intros x Hx. apply H. now right.
Qed.

Section Twice.

Variable blocks : list Block.
Variables pL pR pT pB : Z.

(** The block list after one run. *)
Lemma In_newStatic b :
  In b (concat (map (blocks_of (buildTypeAt blocks))
                  (filter (fun C => supported (buildOcc blocks) C pL pR pT pB)
                          (components blocks)))) <->
  exists C p, In C (components blocks) /\
    supported (buildOcc blocks) C pL pR pT pB = true /\ In p C /\
    b = mkBlock (pt_x p) (pt_y p) (buildTypeAt blocks (pt_y p) (pt_x p)).
Proof.
  rewrite in_concat. split.
  - intros [bs [Hbs Hb]]. apply in_map_iff in Hbs as [C [<- HC]].
    apply filter_In in HC as [HC Hs]. unfold blocks_of in Hb.
    apply in_map_iff in Hb as [p [<- Hp]]. exists C, p. auto.
  - intros (C & p & HC & Hs & Hp & ->).
    exists (blocks_of (buildTypeAt blocks) C). split.
    + apply in_map. apply filter_In. auto.
    + unfold blocks_of.
      apply (in_map (fun p => mkBlock (pt_x p) (pt_y p)
                                (buildTypeAt blocks (pt_y p) (pt_x p)))).
      exact Hp.
Qed.

Lemma occ_newStatic p :
  at_point
    (buildOcc
       (concat (map (blocks_of (buildTypeAt blocks))
                  (filter (fun C => supported (buildOcc blocks) C pL pR pT pB)
                          (components blocks))))) p = true <->
  exists C, In C (components blocks) /\
    supported (buildOcc blocks) C pL pR pT pB = true /\ In p C.
Proof.
  unfold at_point. rewrite buildOcc_spec.
  destruct (components_ok blocks) as [Hcells _ _ _ _]. split.
  - intros [b (Hb & Hg & Hr & Hc)].
    apply In_newStatic in Hb as (C & q & HC & Hs & Hq & ->). simpl in *.
    exists C. repeat split; auto.
    replace p with q; [exact Hq | now apply point_eq].
  - intros (C & HC & Hs & Hp).
    exists (mkBlock (pt_x p) (pt_y p) (buildTypeAt blocks (pt_y p) (pt_x p))).
    simpl. repeat split; auto.
    + apply In_newStatic. exists C, p. auto.
    + now apply (Hcells C p HC Hp).
Qed.

Lemma type_newStatic C p :
  In C (components blocks) ->
  supported (buildOcc blocks) C pL pR pT pB = true -> In p C ->
  buildTypeAt
    (concat (map (blocks_of (buildTypeAt blocks))
               (filter (fun C => supported (buildOcc blocks) C pL pR pT pB)
                       (components blocks)))) (pt_y p) (pt_x p) =
  buildTypeAt blocks (pt_y p) (pt_x p).
Proof.
  intros HC Hs Hp. unfold buildTypeAt at 1. apply buildTypeAt_fold.
  - intros b Hb _ Hr Hc.
    apply In_newStatic in Hb as (C' & q & _ & _ & _ & ->).
    cbn [brow bcol btype] in *. now rewrite Hr, Hc.
  - right.
    exists (mkBlock (pt_x p) (pt_y p) (buildTypeAt blocks (pt_y p) (pt_x p))).
    simpl. repeat split; auto.
    + apply In_newStatic. exists C, p. auto.
    + destruct (components_ok blocks) as [Hcells _ _ _ _].
      now apply (Hcells C p HC Hp).
Qed.

(** The components of the re-emitted blocks are the supported components
    of the original blocks. *)
Lemma components_newStatic :
  components
    (concat (map (blocks_of (buildTypeAt blocks))
               (filter (fun C => supported (buildOcc blocks) C pL pR pT pB)
                       (components blocks)))) =
  filter (fun C => supported (buildOcc blocks) C pL pR pT pB) (components blocks).
Proof.
  destruct (components_ok blocks) as [Hcells Hnd _ Hne Hcl].
  rewrite components_scan.
  rewrite (scan_restrict (buildOcc blocks)) with (V1 := grid_const false).
  - rewrite <- components_scan. apply filter_ext_in.
    intros C HC. destruct C as [|p0 C']; [now destruct (Hne [] HC)|].
    cbn [hd].
    destruct (supported (buildOcc blocks) (p0 :: C') pL pR pT pB) eqn:Es.
    + apply occ_newStatic. exists (p0 :: C'). repeat split; auto. now left.
    + match goal with |- ?x = false => destruct x eqn:E end; [|reflexivity].
      apply occ_newStatic in E as (C2 & HC2 & Hs2 & Hp2).
      assert (p0 :: C' = C2).
      { apply (NoDup_concat_unique (components blocks) _ _ p0); auto. now left. }
      subst. congruence.
  - intros p Hp. apply occ_newStatic in Hp as (C & HC & _ & HpC).
    now apply (Hcells C p HC HpC).
  - intros p n Hp Hn Hg Ho. apply occ_newStatic in Hp as (C & HC & Hs & HpC).
    apply occ_newStatic. exists C. repeat split; auto.
    now apply (Hcl C p n).
  - intros p. apply In_all_cells.
  - intros m _. reflexivity.
Qed.

End Twice.

(** C5 (idempotence).  Running [resolveFloatingClusters] on the state a
    first run produced, with the same fall speed and player footprint,
    changes nothing: the static block list is the same list and no
    falling shape is appended. *)
Theorem resolve_idempotent
    (blocks : list Block) (shapes : list FallingShape) (fallSpeed : Q)
    (pL pR pT pB : Z) :
  resolveFloatingClusters
    (fst (resolveFloatingClusters blocks shapes fallSpeed pL pR pT pB))
    (snd (resolveFloatingClusters blocks shapes fallSpeed pL pR pT pB))
    fallSpeed pL pR pT pB =
  resolveFloatingClusters blocks shapes fallSpeed pL pR pT pB.
Proof.
  rewrite (resolve_eq blocks). cbn [fst snd].
  rewrite resolve_eq. rewrite components_newStatic.
  set (F := filter (fun C => supported (buildOcc blocks) C pL pR pT pB)
                   (components blocks)).
  set (N := concat (map (blocks_of (buildTypeAt blocks)) F)).
  assert (HF : forall C, In C F ->
            In C (components blocks) /\
            supported (buildOcc blocks) C pL pR pT pB = true).
  { intros C HC. now apply filter_In in HC. }
  assert (Hsup : forall C, In C F -> supported (buildOcc N) C pL pR pT pB = true).
  { intros C HC. destruct (HF C HC) as [HC1 Hs1].
    rewrite supported_component.
    - now rewrite <- (supported_component blocks).
    - unfold N, F. now rewrite components_newStatic. }
  rewrite (filter_all _ F Hsup).
  rewrite (filter_none (fun C => negb (supported (buildOcc N) C pL pR pT pB)) F).
  - cbn [map]. rewrite app_nil_r. f_equal. unfold N at 2. f_equal.
    apply map_ext_in. intros C HC. destruct (HF C HC) as [HC1 Hs1].
    unfold blocks_of. apply map_ext_in. intros p Hp. f_equal.
    now apply (type_newStatic blocks pL pR pT pB C p).
  - intros C HC. now rewrite (Hsup C HC).
Qed.

(** * Full-row clear *)

Lemma In_insert_sorted x y l : In y (insert_sorted x l) <-> y = x \/ In y l.
Proof.
  induction l as [|a l IH]; simpl.
  - intuition auto.
  - destruct (x <=? a); simpl; rewrite ?IH; intuition auto.
Qed.

Lemma In_sort x l : In x (sort l) <-> In x l.
Proof.
  induction l as [|a l IH]; simpl; [tauto|].
  rewrite In_insert_sorted, IH. intuition auto.
Qed.

Lemma filter_insert_sorted (f : Z -> bool) x l :
  length (filter f (insert_sorted x l)) = length (filter f (x :: l)).
Proof.
  induction l as [|a l IH]; simpl; [reflexivity|].
  destruct (x <=? a); simpl; [reflexivity|].
  simpl in IH. destruct (f a), (f x); simpl in *; lia.
Qed.

Lemma filter_sort (f : Z -> bool) l :
  length (filter f (sort l)) = length (filter f l).
Proof.
  induction l as [|a l IH]; simpl; [reflexivity|].
  rewrite filter_insert_sorted. simpl. destruct (f a); simpl; lia.
Qed.

Lemma binary_search_iff l x : binary_search l x = true <-> In x l.
Proof.
  unfold binary_search. rewrite existsb_exists. split.
  - intros [y [Hy E]]. apply Z.eqb_eq in E. now subst.
  - intros H. exists x. split; [exact H | apply Z.eqb_refl].
Qed.

Lemma filter_filter {A} (f g : A -> bool) l :
  filter f (filter g l) = filter (fun x => g x && f x) l.
Proof.
  induction l as [|a l IH]; simpl; [reflexivity|].
  destruct (g a); simpl; [destruct (f a); simpl; now rewrite IH | exact IH].
Qed.

Lemma occ_existsb blocks r c :
  in_grid c r = true ->
  buildOcc blocks r c = existsb (fun b => (bcol b =? c) && (brow b =? r)) blocks.
Proof.
  intros Hg. apply eq_true_iff_eq. rewrite buildOcc_spec, existsb_exists. split.
  - intros [b (Hb & _ & Hr & Hc)]. exists b. split; [exact Hb|].
    now rewrite Hr, Hc, !Z.eqb_refl.
  - intros [b [Hb H]]. apply andb_true_iff in H as [Hc Hr].
    apply Z.eqb_eq in Hc, Hr. exists b. subst. auto.
Qed.

Lemma full_row_test blocks r :
  In r (range ROWS) ->
  forallb (fun c => buildOcc blocks r c) (range COLS) = row_fullb blocks r.
Proof.
  intros Hr. apply In_range in Hr. unfold row_fullb.
  replace ((0 <=? r) && (r <? ROWS)) with true
    by (symmetry; apply andb_true_iff; split; [apply Z.leb_le | apply Z.ltb_lt]; lia).
  cbn [andb]. apply forallb_ext_in.
  intros c Hc. apply In_range in Hc. apply occ_existsb.
  apply in_grid_iff. lia.
Qed.

Lemma full_rows_iff blocks r :
  In r (full_rows (buildOcc blocks)) <-> row_fullb blocks r = true.
Proof.
  unfold full_rows. rewrite filter_In. split.
  - intros [Hr H]. now rewrite <- full_row_test.
  - intros H. assert (Hr : In r (range ROWS)).
    { unfold row_fullb in H. rewrite !andb_true_iff, Z.leb_le, Z.ltb_lt in H.
      apply In_range. lia. }
    split; [exact Hr | now rewrite full_row_test].
Qed.

Lemma row_fullb_iff blocks r : row_fullb blocks r = true <-> row_full blocks r.
Proof.
  unfold row_fullb, row_full.
  rewrite !andb_true_iff, Z.leb_le, Z.ltb_lt, forallb_forall. split.
  - intros [Hr H]. split; [lia|]. intros c Hc.
    assert (Hin : In c (range COLS)) by now apply In_range.
    apply H in Hin. apply existsb_exists in Hin as [b [Hb E]].
    apply andb_true_iff in E as [E1 E2]. apply Z.eqb_eq in E1, E2. eauto.
  - intros [Hr H]. split; [lia|]. intros c Hc. apply In_range in Hc.
    destruct (H c Hc) as [b (Hb & E1 & E2)]. apply existsb_exists.
    exists b. split; [exact Hb|]. now rewrite E1, E2, !Z.eqb_refl.
Qed.

Lemma full_rows_count blocks r0 :
  Z.of_nat (length (filter (fun fr => fr >? r0) (sort (full_rows (buildOcc blocks)))))
  = full_rows_below blocks r0.
Proof.
  unfold full_rows_below, full_rows. rewrite filter_sort, filter_filter.
  f_equal. f_equal. apply filter_ext_in.
  intros r Hr. now rewrite full_row_test.
Qed.

Lemma row_clear_eq blocks : row_clear blocks = row_clear_spec blocks.
Proof.
  unfold row_clear, row_clear_spec.
  destruct blocks as [|b0 blocks']; [reflexivity|].
  set (blocks := b0 :: blocks').
  destruct (full_rows (buildOcc blocks)) as [|fr frs] eqn:Ef.
  - assert (Hnone : forall r, row_fullb blocks r = false).
    { intros r. destruct (row_fullb blocks r) eqn:E; [|reflexivity].
      apply full_rows_iff in E. rewrite Ef in E. destruct E. }
    rewrite (filter_ext _ (fun _ => true))
      by (intros b; now rewrite Hnone).
    assert (Hid : forall l : list Block, filter (fun _ => true) l = l).
    { induction l; simpl; congruence. }
    rewrite Hid. rewrite <- (map_id blocks) at 1. apply map_ext.
    intros b. unfold full_rows_below.
    rewrite (filter_ext _ (fun _ => false))
      by (intros r; now rewrite Hnone).
    assert (Hnil : forall l : list Z, filter (fun _ => false) l = []).
    { induction l; simpl; congruence. }
    rewrite Hnil. simpl. rewrite Z.add_0_r. now destruct b.
  - rewrite <- Ef.
    rewrite (filter_ext_in _ (fun b => negb (row_fullb blocks (brow b)))).
    + apply map_ext. intros b. unfold row_shift. now rewrite full_rows_count.
    + intros b _. f_equal. apply eq_true_iff_eq.
      now rewrite binary_search_iff, In_sort, full_rows_iff.
Qed.

(** C6 (row-clear conservation).  The row-clear pass removes exactly the
    blocks whose row is full and moves every surviving block down by the
    number of full rows of greater index than its original row, all
    counted on the rows before the removal; in scenario B the blocks of
    row 10 disappear and the block of row 5 arrives on row 6. *)
Theorem row_clear_conservation (blocks : list Block) :
  row_clear blocks = row_clear_spec blocks /\
  (forall r, row_fullb blocks r = true <-> row_full blocks r) /\
  (forall b', In b' (row_clear blocks) <->
     exists b, In b blocks /\ ~ row_full blocks (brow b) /\
       b' = mkBlock (bcol b) (brow b + full_rows_below blocks (brow b)) (btype b)) /\
  row_clear scenario_B = [mkBlock 3 6 BOMB].
Proof.
  split; [apply row_clear_eq|]. split; [apply row_fullb_iff|]. split.
  - intros b'. rewrite row_clear_eq. unfold row_clear_spec.
    rewrite in_map_iff. split.
    + intros [b [<- Hb]]. apply filter_In in Hb as [Hb Hn].
      exists b. repeat split; auto.
      rewrite <- row_fullb_iff. now destruct (row_fullb blocks (brow b)).
    + intros [b (Hb & Hn & ->)]. exists b. split; [reflexivity|].
      apply filter_In. split; [exact Hb|].
      rewrite <- row_fullb_iff in Hn. now destruct (row_fullb blocks (brow b)).
  - vm_compute. reflexivity.
Qed.

(** * The break action *)

Lemma erase_first_none tc tr blocks :
  erase_first tc tr blocks = None <->
  (forall b, In b blocks -> cell_of b <> (tc, tr)).
Proof.
  induction blocks as [|b blocks IH]; simpl.
  - split; [intros _ b [] | reflexivity].
  - destruct ((bcol b =? tc) && (brow b =? tr)) eqn:E.
    + split; [discriminate|]. intros H. exfalso.
      apply andb_true_iff in E as [E1 E2]. apply Z.eqb_eq in E1, E2.
      apply (H b (or_introl eq_refl)). unfold cell_of. congruence.
    + destruct (erase_first tc tr blocks) as [[t rest]|].
      * split; [discriminate|]. intros H.
        assert (HN : Some (t, rest) = None)
          by (apply IH; intros b' Hb'; apply H; now right).
        discriminate.
      * split; [|reflexivity]. intros _ b' [<- | Hb'].
        -- unfold cell_of. intros Heq. inversion Heq; subst.
           now rewrite !Z.eqb_refl in E.
        -- now apply IH.
Qed.

Lemma erase_first_some tc tr blocks t rest :
  erase_first tc tr blocks = Some (t, rest) ->
  exists l1 b l2, blocks = l1 ++ b :: l2 /\ rest = l1 ++ l2 /\
    cell_of b = (tc, tr) /\ btype b = t /\
    (forall b', In b' l1 -> cell_of b' <> (tc, tr)).
Proof.
  revert t rest. induction blocks as [|b blocks IH]; intros t rest H; simpl in H.
  - discriminate.
  - destruct ((bcol b =? tc) && (brow b =? tr)) eqn:E.
    + inversion H; subst. apply andb_true_iff in E as [E1 E2].
      apply Z.eqb_eq in E1, E2.
      exists [], b, rest. simpl.
      split; [reflexivity|]. split; [reflexivity|].
      split; [unfold cell_of; congruence|]. split; [reflexivity|].
      intros b' [].
    + destruct (erase_first tc tr blocks) as [[t' rest']|] eqn:Er; [|discriminate].
      inversion H; subst.
      destruct (IH t rest' eq_refl) as (l1 & b0 & l2 & -> & -> & Hc & Ht & Hl1).
      exists (b :: l1), b0, l2. simpl.
      split; [reflexivity|]. split; [reflexivity|].
      split; [exact Hc|]. split; [exact Ht|].
      intros b' [<- | Hb']; [|now apply Hl1].
      unfold cell_of. intros Heq. inversion Heq; subst.
      now rewrite !Z.eqb_refl in E.
Qed.

Lemma Qltb_iff a b : Qltb a b = true <-> (a < b)%Q.
Proof.
  unfold Qltb. rewrite negb_true_iff. split.
  - intros H. apply Qnot_le_lt. intros Hle. apply Qle_bool_iff in Hle. congruence.
  - intros H. destruct (Qle_bool b a) eqn:E; [|reflexivity].
    apply Qle_bool_iff in E. exfalso. now apply (Qlt_not_le a b).
Qed.

Lemma Qleb_iff a b : Qleb a b = true <-> (a <= b)%Q.
Proof. apply Qle_bool_iff. Qed.

Lemma one_per_cell_split l1 b l2 :
  one_per_cell (l1 ++ b :: l2) ->
  forall b', In b' (l1 ++ l2) -> cell_of b' <> cell_of b.
Proof.
  unfold one_per_cell. rewrite map_app. simpl. intros Hnd b' Hb' Heq.
  apply NoDup_remove_2 in Hnd. apply Hnd. rewrite <- map_app, <- Heq.
  now apply in_map.
Qed.

(** C8 (break contract).  [breakAt] returns [false] and leaves the block
    list, the cooldown and [usedType] as they were when the cooldown is
    positive, the target is outside the grid or no block is at the
    target; otherwise it erases one block, the first of the list at the
    target, sets the cooldown to [ABILITY_CD], returns [true] and yields
    the type of the erased block; with one block per cell no block is
    left at the target. *)
Theorem breakAt_contract (tc tr : Z) (st : break_state) :
  (((0 < bk_cd st)%Q \/ in_grid tc tr = false \/
    (forall b, In b (bk_blocks st) -> cell_of b <> (tc, tr))) ->
   breakAt tc tr st = (false, st)) /\
  (~ (0 < bk_cd st)%Q -> in_grid tc tr = true ->
   (exists b, In b (bk_blocks st) /\ cell_of b = (tc, tr)) ->
   exists l1 b l2,
     bk_blocks st = l1 ++ b :: l2 /\ cell_of b = (tc, tr) /\
     (forall b', In b' l1 -> cell_of b' <> (tc, tr)) /\
     breakAt tc tr st = (true, mkBreak (l1 ++ l2) ABILITY_CD (btype b)) /\
     (one_per_cell (bk_blocks st) ->
      forall b', In b' (l1 ++ l2) -> cell_of b' <> (tc, tr))).
Proof.
  unfold breakAt. rewrite out_of_grid_test. split.
  - intros [Hcd | [Hg | Hnone]].
    + apply Qltb_iff in Hcd. now rewrite Hcd.
    + destruct (Qltb 0 (bk_cd st)); [reflexivity|]. now rewrite Hg.
    + destruct (Qltb 0 (bk_cd st)); [reflexivity|].
      destruct (negb (in_grid tc tr)); [reflexivity|].
      apply erase_first_none in Hnone. now rewrite Hnone.
  - intros Hcd Hg [b0 [Hb0 Hc0]].
    destruct (Qltb 0 (bk_cd st)) eqn:E; [now apply Qltb_iff in E|].
    rewrite Hg. cbn [negb].
    destruct (erase_first tc tr (bk_blocks st)) as [[t rest]|] eqn:Er.
    + apply erase_first_some in Er as (l1 & b & l2 & Hsplit & -> & Hc & <- & Hl1).
      exists l1, b, l2. repeat split; auto.
      intros Hone b' Hb'. rewrite <- Hc. rewrite Hsplit in Hone.
      now apply (one_per_cell_split l1 b l2).
    + exfalso. rewrite erase_first_none in Er. now apply (Er b0).
Qed.

Lemma breakAt_contract_witness :
  breakAt 2 19 (mkBreak break_example (1 # 4) NORMAL) =
    (false, mkBreak break_example (1 # 4) NORMAL) /\
  exists l1 b l2,
    break_example = l1 ++ b :: l2 /\ cell_of b = (2, 19) /\
    (forall b', In b' l1 -> cell_of b' <> (2, 19)) /\
    breakAt 2 19 (mkBreak break_example 0 NORMAL) =
      (true, mkBreak (l1 ++ l2) ABILITY_CD (btype b)) /\
    (one_per_cell break_example ->
     forall b', In b' (l1 ++ l2) -> cell_of b' <> (2, 19)).
Proof.
  split.
  - apply (proj1 (breakAt_contract 2 19 (mkBreak break_example (1 # 4) NORMAL))).
    left. reflexivity.
  - apply (proj2 (breakAt_contract 2 19 (mkBreak break_example 0 NORMAL))).
    + simpl. intros H. discriminate H.
    + reflexivity.
    + exists (mkBlock 2 19 FREEZE). split; [simpl; auto | reflexivity].
Defined.

(** * The bomb *)


Lemma strip_spec hit cells : forall types,
  fst (strip hit cells types) = filter (fun cell => negb (hit cell)) cells /\
  with_types (fst (strip hit cells types)) (snd (strip hit cells types)) =
    filter (fun ct => negb (hit (fst ct))) (with_types cells types).
Proof.
  induction cells as [|cell cells IH]; intros types; simpl; [auto|].
  destruct (IH (tl types)) as [H1 H2].
  destruct (strip hit cells (tl types)) as [nc nt]. simpl in *.
  destruct (hit cell); simpl; [auto|]. split; congruence.
Qed.

Lemma strip_shape_spec hit s :
  fs_x (strip_shape hit s) = fs_x s /\
  fs_y (strip_shape hit s) = fs_y s /\
  fs_speed (strip_shape hit s) = fs_speed s /\
  fs_cells (strip_shape hit s) =
    filter (fun cell => negb (hit s cell)) (fs_cells s) /\
  with_types (fs_cells (strip_shape hit s)) (fs_types (strip_shape hit s)) =
    filter (fun ct => negb (hit s (fst ct))) (with_types (fs_cells s) (fs_types s)).
Proof.
  unfold strip_shape.
  destruct (strip_spec (hit s) (fs_cells s) (fs_types s)) as [H1 H2].
  destruct (strip (hit s) (fs_cells s) (fs_types s)) as [nc nt]. simpl in *.
  auto.
Qed.


(** * The falling-shape update *)

Lemma to_int_comp x y : (x == y)%Q -> to_int x = to_int y.
Proof.
  intros H. unfold to_int.
  destruct (Qle_bool 0 x) eqn:Ex, (Qle_bool 0 y) eqn:Ey.
  - now apply Qfloor_comp.
  - apply Qle_bool_iff in Ex. rewrite H in Ex. apply Qle_bool_iff in Ex. congruence.
  - apply Qle_bool_iff in Ey. rewrite <- H in Ey. apply Qle_bool_iff in Ey.
    congruence.
  - now apply Qceiling_comp.
Qed.

Lemma to_int_of_int z : to_int (of_int z) = z.
Proof.
  unfold to_int, of_int. destruct (Qle_bool 0 (inject_Z z));
    [apply Qfloor_Z | apply Qceiling_Z].
Qed.

Lemma to_int_eq x z : (x == of_int z)%Q -> to_int x = z.
Proof. intros H. rewrite (to_int_comp _ _ H). apply to_int_of_int. Qed.

Lemma of_int_CELL_div k n :
  (of_int (k * CELL) / of_int CELL + of_int n == of_int (k + n))%Q.
Proof.
  unfold of_int, CELL. rewrite inject_Z_mult, inject_Z_plus. field.
Qed.

Lemma col_test c : (c <? 0) || (c >=? COLS) = false <-> 0 <= c < COLS.
Proof.
  rewrite orb_false_iff, Z.ltb_ge, Z.geb_leb, Z.leb_gt. lia.
Qed.

Lemma fold_left_flat_map {A B C} (f : A -> C -> A) (g : B -> list C) l :
  forall a,
  fold_left f (flat_map g l) a = fold_left (fun a x => fold_left f (g x) a) l a.
Proof.
  induction l as [|x l IH]; intros a; simpl; [reflexivity|].
  now rewrite fold_left_app, IH.
Qed.

Lemma fold_left_ext_in {A B} (f g : A -> B -> A) l :
  (forall a x, In x l -> f a x = g a x) ->
  forall a, fold_left f l a = fold_left g l a.
Proof.
  induction l as [|x l IH]; intros H a; simpl; [reflexivity|].
  rewrite (H a x (or_introl eq_refl)). apply IH.
  intros a' x' Hx'. apply H. now right.
Qed.

(** The loop of the update considers the candidates one after the
    other. *)
Lemma land_cell_candidates occ s newY st cell :
  land_cell occ s newY st cell =
  fold_left (fun st y => consider y st) (cell_candidates occ s newY cell) st.
Proof.
  unfold land_cell, cell_candidates. rewrite fold_left_app.
  set (st1 := if Qleb (of_int SCREEN_HEIGHT) (newY + of_int ((pt_y cell + 1) * CELL))
              then consider (of_int (SCREEN_HEIGHT - (pt_y cell + 1) * CELL)) st
              else st).
  assert (E1 : fold_left (fun st y => consider y st)
                 (if Qleb (of_int SCREEN_HEIGHT) (newY + of_int ((pt_y cell + 1) * CELL))
                  then [of_int (SCREEN_HEIGHT - (pt_y cell + 1) * CELL)] else []) st
               = st1).
  { unfold st1.
    now destruct (Qleb (of_int SCREEN_HEIGHT) (newY + of_int ((pt_y cell + 1) * CELL))). }
  rewrite E1.
  destruct ((cell_column s cell <? 0) || (cell_column s cell >=? COLS));
    [reflexivity|].
  unfold land_tiles. rewrite fold_left_flat_map. apply fold_left_ext_in.
  intros a r _. destruct (occ r (cell_column s cell)); cbn [negb andb]; [|reflexivity].
  now destruct (Qleb (fs_y s + of_int ((pt_y cell + 1) * CELL)) (of_int (r * CELL))
                && Qleb (of_int (r * CELL)) (newY + of_int ((pt_y cell + 1) * CELL))).
Qed.

Lemma landing_candidates occ dt s :
  landing occ dt s =
  fold_left (fun st y => consider y st) (candidates occ dt s)
            (mkLand (new_y dt s) false).
Proof.
  unfold landing, candidates. rewrite fold_left_flat_map.
  apply fold_left_ext_in. intros a cell _. apply land_cell_candidates.
Qed.

Lemma consider_fold l : forall st,
  let st' := fold_left (fun st y => consider y st) l st in
  (landed st' = true <-> landed st = true \/ l <> []) /\
  (landed st' = true ->
     (landed st = true /\ finalY st' = finalY st) \/ In (finalY st') l) /\
  (landed st = true -> (finalY st' <= finalY st)%Q) /\
  (forall y, In y l -> (finalY st' <= y)%Q) /\
  (landed st' = false -> st' = st).
Proof.
  induction l as [|y l IH]; intros st; cbn [fold_left].
  - cbv zeta. split; [intuition congruence|]. split; [auto|].
    split; [intros; apply Qle_refl|]. split; [intros y []|reflexivity].
  - destruct (IH (consider y st)) as (H1 & H2 & H3 & H4 & H5).
    cbv zeta in *.
    set (st' := fold_left (fun st y => consider y st) l (consider y st)) in *.
    assert (Hc : (consider y st = mkLand y true /\
                  (landed st = true -> (y < finalY st)%Q)) \/
                 (consider y st = st /\ landed st = true /\ (finalY st <= y)%Q)).
    { unfold consider. destruct (landed st) eqn:El; cbn [negb orb].
      - destruct (Qltb y (finalY st)) eqn:E.
        + left. split; [reflexivity|]. intros _. now apply Qltb_iff.
        + right. repeat split; auto.
          apply Qnot_lt_le. intros Hlt. apply Qltb_iff in Hlt. congruence.
      - left. split; [reflexivity | discriminate]. }
    destruct Hc as [[Ec Hlt] | [Ec [El Hle]]]; rewrite Ec in *; cbn [landed finalY] in *.
    + split; [split; [intros _; right; discriminate | intros _; apply H1; now left]|].
      split.
      { intros Hl. destruct (H2 Hl) as [[_ E] | Hin].
        - right. left. now rewrite E.
        - right. now right. }
      split.
      { intros El. specialize (H3 eq_refl). specialize (Hlt El).
        apply Qle_trans with y; [exact H3 | now apply Qlt_le_weak]. }
      split.
      { intros z [<- | Hz]; [now apply H3 | now apply H4]. }
      intros Hl. exfalso.
      assert (landed st' = true) by (apply H1; now left). congruence.
    + split; [split; [intros _; now left | intros _; apply H1; now left]|].
      split.
      { intros Hl. destruct (H2 Hl) as [[_ E] | Hin]; [left; auto | right; now right]. }
      split; [intros _; now apply H3|].
      split.
      { intros z [<- | Hz]; [|now apply H4].
        apply Qle_trans with (finalY st); [now apply H3 | exact Hle]. }
      intros Hl. exfalso.
      assert (landed st' = true) by (apply H1; now left). congruence.
Qed.

(** The landing position is the least candidate. *)
Lemma landing_min occ dt s :
  (landed (landing occ dt s) = true <-> candidates occ dt s <> []) /\
  (landed (landing occ dt s) = true ->
     In (finalY (landing occ dt s)) (candidates occ dt s)) /\
  (forall y, In y (candidates occ dt s) -> (finalY (landing occ dt s) <= y)%Q) /\
  (landed (landing occ dt s) = false ->
     finalY (landing occ dt s) = new_y dt s).
Proof.
  rewrite landing_candidates.
  destruct (consider_fold (candidates occ dt s) (mkLand (new_y dt s) false))
    as (H1 & H2 & _ & H4 & H5). cbv zeta in *. cbn [landed finalY] in *.
  split; [rewrite H1; intuition congruence|].
  split; [intros Hl; destruct (H2 Hl) as [[? _] | ?]; [discriminate | assumption]|].
  split; [exact H4|].
  intros Hl. now rewrite (H5 Hl).
Qed.

(** What a candidate is. *)
Lemma In_candidates occ dt s y :
  In y (candidates occ dt s) <->
  exists cell, In cell (fs_cells s) /\
    (((of_int SCREEN_HEIGHT <= bottom_at (new_y dt s) cell)%Q /\
      y = of_int (SCREEN_HEIGHT - (pt_y cell + 1) * CELL)) \/
     (exists r, 0 <= r < ROWS /\ 0 <= cell_column s cell < COLS /\
        occ r (cell_column s cell) = true /\
        (bottom_at (fs_y s) cell <= of_int (r * CELL))%Q /\
        (of_int (r * CELL) <= bottom_at (new_y dt s) cell)%Q /\
        y = (of_int (r * CELL) - of_int ((pt_y cell + 1) * CELL))%Q)).
Proof.
  unfold candidates, bottom_at. rewrite in_flat_map.
  split; intros [cell [Hcell H]]; exists cell; (split; [exact Hcell|]).
  - unfold cell_candidates in H. apply in_app_iff in H as [H | H].
    + left.
      destruct (Qleb (of_int SCREEN_HEIGHT)
                  (new_y dt s + of_int ((pt_y cell + 1) * CELL))) eqn:E;
        [|destruct H].
      destruct H as [<- | []]. split; [now apply Qleb_iff | reflexivity].
    + right.
      destruct ((cell_column s cell <? 0) || (cell_column s cell >=? COLS)) eqn:Ec;
        [destruct H|].
      apply col_test in Ec.
      apply in_flat_map in H as [r [Hr H]]. apply In_range in Hr.
      destruct (occ r (cell_column s cell)) eqn:Eo; cbn [andb] in H; [|destruct H].
      destruct (Qleb (fs_y s + of_int ((pt_y cell + 1) * CELL)) (of_int (r * CELL)))
        eqn:E1; cbn [andb] in H; [|destruct H].
      destruct (Qleb (of_int (r * CELL))
                  (new_y dt s + of_int ((pt_y cell + 1) * CELL))) eqn:E2;
        [|destruct H].
      destruct H as [<- | []]. apply Qleb_iff in E1, E2.
      exists r. auto 8.
  - unfold cell_candidates. apply in_or_app. destruct H as [[Hf ->] | H].
    + left. apply Qleb_iff in Hf. rewrite Hf. now left.
    + right. destruct H as [r (Hr & Hc & Ho & H1 & H2 & ->)].
      apply col_test in Hc. rewrite Hc.
      apply in_flat_map. exists r. split; [now apply In_range|].
      apply Qleb_iff in H1, H2. rewrite Ho, H1, H2. now left.
Qed.

(** Pixel quantities as linear expressions. *)
Lemma q_of_int_mul_CELL z : (of_int (z * CELL) == 30 * inject_Z z)%Q.
Proof.
  unfold of_int, CELL. rewrite inject_Z_mult.
  change (inject_Z 30) with 30%Q. ring.
Qed.

Lemma q_bottom y cell :
  (bottom_at y cell == y + 30 * inject_Z (pt_y cell) + 30)%Q.
Proof.
  unfold bottom_at. rewrite q_of_int_mul_CELL, inject_Z_plus.
  change (inject_Z 1) with 1%Q. ring.
Qed.

Lemma q_floor_cand cell :
  (of_int (SCREEN_HEIGHT - (pt_y cell + 1) * CELL) ==
   570 - 30 * inject_Z (pt_y cell))%Q.
Proof.
  unfold of_int, SCREEN_HEIGHT, CELL, Z.sub.
  rewrite inject_Z_plus, inject_Z_opp, inject_Z_mult, inject_Z_plus.
  change (inject_Z 30) with 30%Q. change (inject_Z 600) with 600%Q.
  change (inject_Z 1) with 1%Q. ring.
Qed.

Lemma q_tile_cand r cell :
  (of_int (r * CELL) - of_int ((pt_y cell + 1) * CELL) ==
   30 * inject_Z r - 30 * inject_Z (pt_y cell) - 30)%Q.
Proof.
  rewrite !q_of_int_mul_CELL, inject_Z_plus.
  change (inject_Z 1) with 1%Q. ring.
Qed.

Lemma q_tile_next r : (of_int ((r + 1) * CELL) == 30 * inject_Z r + 30)%Q.
Proof.
  rewrite q_of_int_mul_CELL, inject_Z_plus. change (inject_Z 1) with 1%Q. ring.
Qed.

Lemma q_screen : (of_int SCREEN_HEIGHT == 600)%Q.
Proof. reflexivity. Qed.

(** Every candidate is at most the unclamped new position, and a
    multiple of [CELL]. *)
Lemma candidate_le_new occ dt s y :
  In y (candidates occ dt s) -> (y <= new_y dt s)%Q.
Proof.
  intros H. apply In_candidates in H as [cell [_ [[Hf ->] | H]]].
  - rewrite q_bottom, q_screen in Hf. rewrite q_floor_cand. lra.
  - destruct H as [r (_ & _ & _ & _ & H2 & ->)].
    rewrite q_bottom, q_of_int_mul_CELL in H2. rewrite q_tile_cand. lra.
Qed.

Lemma candidate_ge_old occ dt s y :
  above_floor s -> In y (candidates occ dt s) -> (fs_y s <= y)%Q.
Proof.
  intros Hfloor H. apply In_candidates in H as [cell [Hcell [[Hf ->] | H]]].
  - specialize (Hfloor cell Hcell). rewrite q_bottom, q_screen in Hfloor.
    rewrite q_floor_cand. lra.
  - destruct H as [r (_ & _ & _ & H1 & _ & ->)].
    rewrite q_bottom, q_of_int_mul_CELL in H1. rewrite q_tile_cand. lra.
Qed.

Lemma candidate_multiple occ dt s y :
  In y (candidates occ dt s) -> exists m, (y == of_int (m * CELL))%Q.
Proof.
  intros H. apply In_candidates in H as [cell [_ [[_ ->] | H]]].
  - exists (19 - pt_y cell). rewrite q_floor_cand, q_of_int_mul_CELL.
    unfold Z.sub. rewrite inject_Z_plus, inject_Z_opp.
    change (inject_Z 19) with 19%Q. ring.
  - destruct H as [r (_ & _ & _ & _ & _ & ->)].
    exists (r - pt_y cell - 1). rewrite q_tile_cand, q_of_int_mul_CELL.
    unfold Z.sub. rewrite !inject_Z_plus, !inject_Z_opp.
    change (inject_Z 1) with 1%Q. ring.
Qed.

(** The grid cell of a landed block. *)
Lemma block_column s y ct :
  bcol (block_of_cell (set_y s y) ct) = cell_column s (fst ct).
Proof.
  unfold block_of_cell, cell_column. cbn [bcol set_y fs_x].
  apply to_int_comp. rewrite q_of_int_mul_CELL.
  unfold of_int, CELL. change (inject_Z 30) with 30%Q. field.
Qed.

Lemma block_row s y m ct :
  (y == of_int (m * CELL))%Q ->
  brow (block_of_cell (set_y s y) ct) = m + pt_y (fst ct).
Proof.
  intros Hy. unfold block_of_cell. cbn [brow set_y fs_y].
  apply to_int_eq. rewrite Hy. apply of_int_CELL_div.
Qed.

Lemma In_with_types cells : forall types ct,
  In ct (with_types cells types) -> In (fst ct) cells.
Proof.
  induction cells as [|cell cells IH]; intros types ct H; simpl in *; [exact H|].
  destruct H as [<- | H]; [now left | right; eauto].
Qed.

Lemma with_types_fst cells : forall types,
  map fst (with_types cells types) = cells.
Proof.
  induction cells as [|cell cells IH]; intros types; simpl; [reflexivity|].
  now rewrite IH.
Qed.

(** A block made of a landed shape that was clear of the static tiles
    lies on a free cell of the grid the update was given. *)
Lemma landed_block_free occ dt s b :
  shape_clear occ s -> above_floor s ->
  landed (landing occ dt s) = true ->
  In b (landed_blocks (set_y s (finalY (landing occ dt s)))) ->
  occ (brow b) (bcol b) = false.
Proof.
  intros Hclear Hfloor Hland Hb.
  destruct (landing_min occ dt s) as (_ & Hin & Hmin & _).
  specialize (Hin Hland). set (fy := finalY (landing occ dt s)) in *.
  destruct (candidate_multiple occ dt s fy Hin) as [m Hm].
  pose proof (candidate_le_new occ dt s fy Hin) as Hnew.
  pose proof (candidate_ge_old occ dt s fy Hfloor Hin) as Hold.
  unfold landed_blocks in Hb. apply filter_In in Hb as [Hb Hg].
  cbn [set_y fs_cells fs_types] in Hb.
  apply in_map_iff in Hb as [ct [<- Hct]].
  apply In_with_types in Hct.
  rewrite block_column, (block_row s fy m ct Hm) in *.
  apply in_grid_iff in Hg as [Hr Hc].
  destruct (occ (m + pt_y (fst ct)) (cell_column s (fst ct))) eqn:Eo; [|reflexivity].
  exfalso. rewrite q_of_int_mul_CELL in Hm.
  destruct (Hclear (fst ct) (m + pt_y (fst ct)) Hct Hr Eo) as [H | H].
  - assert (Hcand : In (of_int ((m + pt_y (fst ct)) * CELL) -
                        of_int ((pt_y (fst ct) + 1) * CELL))%Q
                       (candidates occ dt s)).
    { apply In_candidates. exists (fst ct). split; [exact Hct|]. right.
      exists (m + pt_y (fst ct)). repeat split; auto; try lia.
      rewrite q_bottom, q_of_int_mul_CELL, inject_Z_plus. lra. }
    apply Hmin in Hcand. rewrite q_tile_cand, inject_Z_plus in Hcand. lra.
  - rewrite q_tile_next, q_of_int_mul_CELL, inject_Z_plus in H. lra.
Qed.

(** After the update no cell of the shape has its bottom edge below the
    floor. *)
Lemma final_above_floor occ dt s cell :
  In cell (fs_cells s) ->
  (bottom_at (finalY (landing occ dt s)) cell <= of_int SCREEN_HEIGHT)%Q.
Proof.
  intros Hcell.
  destruct (landing_min occ dt s) as (_ & Hin & Hmin & Hnot).
  destruct (Qlt_le_dec (bottom_at (new_y dt s) cell) (of_int SCREEN_HEIGHT))
    as [Hlt | Hge].
  - assert (Hle : (finalY (landing occ dt s) <= new_y dt s)%Q).
    { destruct (landed (landing occ dt s)) eqn:El.
      - apply (candidate_le_new occ). now apply Hin.
      - rewrite (Hnot eq_refl). apply Qle_refl. }
    rewrite q_bottom in *. lra.
  - assert (Hcand : In (of_int (SCREEN_HEIGHT - (pt_y cell + 1) * CELL))
                       (candidates occ dt s)).
    { apply In_candidates. exists cell. split; [exact Hcell|]. left. auto. }
    apply Hmin in Hcand. rewrite q_floor_cand in Hcand.
    rewrite q_bottom, q_screen. lra.
Qed.

Lemma landed_block_new blocks dt s b b0 :
  shape_clear (buildOcc blocks) s -> above_floor s ->
  landed (landing (buildOcc blocks) dt s) = true ->
  In b (landed_blocks (set_y s (finalY (landing (buildOcc blocks) dt s)))) ->
  In b0 blocks -> cell_of b <> cell_of b0.
Proof.
  intros Hclear Hfloor Hland Hb Hb0 Heq.
  pose proof (landed_block_free _ dt s b Hclear Hfloor Hland Hb) as Hfree.
  assert (Hg : in_grid (bcol b) (brow b) = true).
  { unfold landed_blocks in Hb. now apply filter_In in Hb. }
  unfold cell_of in Heq. inversion Heq as [[Hc Hr]].
  assert (buildOcc blocks (brow b) (bcol b) = true).
  { apply buildOcc_spec. exists b0. rewrite <- Hc, <- Hr. auto. }
  congruence.
Qed.

(** C1, as the code has it (landing minimum and clearance).  When a
    falling shape has a landing candidate, the update lands it at the
    least candidate over all its cells (floor candidates and swept tile
    candidates) and converts it to blocks; at the landing position no
    cell's bottom edge is below the floor, nor is it anywhere on the way
    when the shape started with no bottom edge below the floor; and when
    moreover no cell of the shape overlapped an occupied tile of its
    column before the move, no resulting block shares its cell with a
    block that was static when the update built its occupancy grid. *)
Theorem landing_minimum_and_clearance
    (blocks : list Block) (dt : Q) (s : FallingShape)
    (newShapes : list FallingShape) :
  candidates (buildOcc blocks) dt s <> [] ->
  let l := landing (buildOcc blocks) dt s in
  landed l = true /\
  update_shape (buildOcc blocks) dt (blocks, newShapes) s =
    (blocks ++ landed_blocks (set_y s (finalY l)), newShapes) /\
  In (finalY l) (candidates (buildOcc blocks) dt s) /\
  (forall y, In y (candidates (buildOcc blocks) dt s) -> (finalY l <= y)%Q) /\
  (forall cell, In cell (fs_cells s) ->
     (bottom_at (finalY l) cell <= of_int SCREEN_HEIGHT)%Q) /\
  (above_floor s ->
     (fs_y s <= finalY l)%Q /\
     forall cell y, In cell (fs_cells s) -> (fs_y s <= y <= finalY l)%Q ->
       (bottom_at y cell <= of_int SCREEN_HEIGHT)%Q) /\
  (above_floor s -> shape_clear (buildOcc blocks) s ->
     forall b b0, In b (landed_blocks (set_y s (finalY l))) -> In b0 blocks ->
       cell_of b <> cell_of b0).
Proof.
  intros Hcand l.
  destruct (landing_min (buildOcc blocks) dt s) as (Hl & Hin & Hmin & _).
  assert (Hland : landed l = true) by now apply Hl.
  split; [exact Hland|].
  split; [unfold update_shape; fold l; now rewrite Hland|].
  split; [now apply Hin|]. split; [exact Hmin|].
  split; [intros cell Hcell; now apply final_above_floor|].
  split.
  - intros Hfloor. split.
    + apply (candidate_ge_old (buildOcc blocks) dt); [exact Hfloor | now apply Hin].
    + intros cell y Hcell [_ Hy].
      pose proof (final_above_floor (buildOcc blocks) dt s cell Hcell) as Hf.
      fold l in Hf. rewrite q_bottom in *. lra.
  - intros Hfloor Hclear b b0 Hb Hb0.
    now apply (landed_block_new blocks dt s b b0).
Qed.

Lemma landing_minimum_and_clearance_witness :
  let l := landing (buildOcc floor_block) (1 # 20) clear_shape in
  candidates (buildOcc floor_block) (1 # 20) clear_shape <> [] /\
  above_floor clear_shape /\
  shape_clear (buildOcc floor_block) clear_shape /\
  landed l = true /\
  finalY l = 540%Q /\
  (forall y, In y (candidates (buildOcc floor_block) (1 # 20) clear_shape) ->
     (finalY l <= y)%Q) /\
  (forall cell y, In cell (fs_cells clear_shape) ->
     (fs_y clear_shape <= y <= finalY l)%Q ->
     (bottom_at y cell <= of_int SCREEN_HEIGHT)%Q) /\
  (forall b b0, In b (landed_blocks (set_y clear_shape (finalY l))) ->
     In b0 floor_block -> cell_of b <> cell_of b0).
Proof.
  intros l.
  assert (Hcand : candidates (buildOcc floor_block) (1 # 20) clear_shape <> [])
    by (vm_compute; discriminate).
  assert (Hfloor : above_floor clear_shape).
  { intros cell [<- | []]. vm_compute. discriminate. }
  assert (Hclear : shape_clear (buildOcc floor_block) clear_shape).
  { intros cell r [<- | []] Hr Ho.
    apply buildOcc_spec in Ho as [b [[<- | []] (_ & Hrow & _)]].
    simpl in Hrow. subst r. left. vm_compute. discriminate. }
  destruct (landing_minimum_and_clearance floor_block (1 # 20) clear_shape []
              Hcand) as (H1 & _ & _ & H4 & _ & H6 & H7).
  split; [exact Hcand|]. split; [exact Hfloor|]. split; [exact Hclear|].
  split; [exact H1|]. split; [reflexivity|]. split; [exact H4|].
  split; [exact (proj2 (H6 Hfloor)) | exact (H7 Hfloor Hclear)].
Defined.

(** C1 as stated fails: the one-cell shape [sunk_shape] has a landing
    candidate (the floor), lands on row 19 of column 0 and becomes a
    block on the cell where [floor_block] already has one. *)
Lemma landing_overlap_counterexample :
  candidates (buildOcc floor_block) (1 # 20) sunk_shape <> [] /\
  exists b b0,
    In b (landed_blocks
            (set_y sunk_shape
               (finalY (landing (buildOcc floor_block) (1 # 20) sunk_shape)))) /\
    In b0 floor_block /\ cell_of b = cell_of b0.
Proof.
  split; [vm_compute; discriminate|].
  exists (mkBlock 0 19 NORMAL), (mkBlock 0 19 NORMAL).
  split; [vm_compute; auto|]. split; [simpl; auto | reflexivity].
Qed.

(** * At most one block per cell *)

Lemma NoDup_map_filter {A B} (f : A -> B) (p : A -> bool) l :
  NoDup (map f l) -> NoDup (map f (filter p l)).
Proof.
  induction l as [|a l IH]; simpl; intros H; [constructor|].
  inversion H as [|? ? Hn Hnd]; subst.
  destruct (p a); simpl; [|now apply IH].
  constructor; [|now apply IH].
  intros Hin. apply Hn. apply in_map_iff in Hin as [x [E Hx]].
  apply filter_In in Hx as [Hx _]. rewrite <- E. now apply in_map.
Qed.

Lemma NoDup_map_rel {A B C} (f : A -> B) (g : A -> C) l :
  NoDup (map f l) ->
  (forall x y, In x l -> In y l -> g x = g y -> f x = f y) ->
  NoDup (map g l).
Proof.
  induction l as [|a l IH]; simpl; intros H Hinj; [constructor|].
  inversion H as [|? ? Hn Hnd]; subst. constructor.
  - intros Hin. apply Hn. apply in_map_iff in Hin as [x [E Hx]].
    rewrite (Hinj a x); auto. now apply in_map.
  - apply IH; auto.
Qed.

Lemma NoDup_concat_filter {A} (p : list A -> bool) (L : list (list A)) :
  NoDup (concat L) -> NoDup (concat (filter p L)).
Proof.
  induction L as [|C L IH]; simpl; intros H; [constructor|].
  assert (HL : NoDup (concat L)) by now apply NoDup_app_remove_l in H.
  destruct (p C); simpl; [|now apply IH].
  apply NoDup_app.
  - now apply NoDup_app_remove_r in H.
  - now apply IH.
  - intros x Hx Hx'.
    assert (Hin : In x (concat L)).
    { apply in_concat in Hx' as [D [HD HxD]]. apply filter_In in HD as [HD _].
      apply in_concat. eauto. }
    revert H Hx Hin. clear. induction C as [|c C IH]; simpl; [tauto|].
    intros Hnd [-> | Hx] Hin.
    + inversion Hnd; subst. apply H1. apply in_or_app. now right.
    + inversion Hnd; subst. now apply IH.
Qed.

(** ** Break and power effects *)

Lemma breakAt_one_per_cell tc tr st :
  one_per_cell (bk_blocks st) ->
  one_per_cell (bk_blocks (snd (breakAt tc tr st))).
Proof.
  intros H. unfold breakAt.
  destruct (Qltb 0 (bk_cd st)); [exact H|].
  destruct ((tc <? 0) || (tc >=? COLS) || (tr <? 0) || (tr >=? ROWS)); [exact H|].
  destruct (erase_first tc tr (bk_blocks st)) as [[t rest]|] eqn:E; [|exact H].
  apply erase_first_some in E as (l1 & b & l2 & Hs & -> & _).
  cbn [snd bk_blocks]. unfold one_per_cell in *. rewrite Hs in H.
  rewrite map_app in *. simpl in H. now apply NoDup_remove_1 in H.
Qed.

Lemma applyPower_one_per_cell type col row st :
  one_per_cell (pw_blocks st) ->
  one_per_cell (pw_blocks (applyPower type col row st)).
Proof.
  intros H. destruct type; cbn [applyPower pw_blocks]; try exact H;
    now apply NoDup_map_filter.
Qed.

(** ** Row clear *)

Lemma count_interval l a b :
  NoDup l -> (forall x, In x l -> a < x < b) ->
  Z.of_nat (length l) <= Z.max 0 (b - a - 1).
Proof.
  intros Hnd Hall.
  assert (Hle : (length l <= length (map (fun k : nat => (a + 1 + Z.of_nat k)%Z)
                                         (seq 0 (Z.to_nat (b - a - 1)%Z))))%nat).
  { apply NoDup_incl_length; [exact Hnd|].
    intros x Hx. apply Hall in Hx. apply in_map_iff.
    exists (Z.to_nat (x - a - 1)). split; [lia|]. apply in_seq. lia. }
  rewrite length_map, length_seq in Hle. lia.
Qed.

Lemma count_split (F : Z -> bool) r1 r2 l :
  r1 < r2 -> F r2 = false ->
  (length (filter (fun r => F r && (r >? r1)%Z) l) <=
   length (filter (fun r => F r && (r >? r2)%Z) l) +
   length (filter (fun r => F r && (r1 <? r)%Z && (r <? r2)%Z) l))%nat.
Proof.
  intros Hlt HF. induction l as [|r l IH]; simpl; [lia|].
  destruct (F r) eqn:E; cbn [andb]; [|exact IH].
  assert (r <> r2) by congruence.
  destruct (r >? r1) eqn:E1, (r >? r2) eqn:E2, (r1 <? r) eqn:E3, (r <? r2) eqn:E4;
    cbn [andb length]; try lia;
    rewrite ?Z.gtb_ltb, ?Z.ltb_lt, ?Z.ltb_ge in *; lia.
Qed.

Lemma shift_lt blocks r1 r2 :
  r1 < r2 -> row_fullb blocks r2 = false ->
  r1 + full_rows_below blocks r1 < r2 + full_rows_below blocks r2.
Proof.
  intros Hlt HF. unfold full_rows_below.
  pose proof (count_split (row_fullb blocks) r1 r2 (range ROWS) Hlt HF) as Hs.
  assert (Hi : Z.of_nat (length (filter (fun r => row_fullb blocks r && (r1 <? r)
                                                  && (r <? r2)) (range ROWS)))
               <= Z.max 0 (r2 - r1 - 1)).
  { apply count_interval.
    - apply NoDup_filter, NoDup_range.
    - intros x Hx. apply filter_In in Hx as [_ Hx].
      rewrite !andb_true_iff, !Z.ltb_lt in Hx. lia. }
  lia.
Qed.

Lemma row_clear_one_per_cell blocks :
  one_per_cell blocks -> one_per_cell (row_clear blocks).
Proof.
  intros H. rewrite row_clear_eq. unfold row_clear_spec, one_per_cell.
  rewrite map_map.
  apply (NoDup_map_rel cell_of); [now apply NoDup_map_filter|].
  intros x y Hx Hy Heq.
  apply filter_In in Hx as [_ Hx]. apply filter_In in Hy as [_ Hy].
  apply negb_true_iff in Hx, Hy.
  unfold cell_of in *. cbn [bcol brow] in Heq. inversion Heq as [[Hc Hr]].
  f_equal.
  destruct (Z.lt_trichotomy (brow x) (brow y)) as [Hlt | [E | Hgt]].
  - pose proof (shift_lt blocks _ _ Hlt Hy). lia.
  - exact E.
  - pose proof (shift_lt blocks _ _ Hgt Hx). lia.
Qed.

(** ** Cluster resolution *)

Lemma resolve_one_per_cell blocks shapes fallSpeed pL pR pT pB :
  one_per_cell (fst (resolveFloatingClusters blocks shapes fallSpeed pL pR pT pB)).
Proof.
  rewrite resolve_eq. cbn [fst]. unfold one_per_cell.
  rewrite concat_map, map_map.
  rewrite (map_ext _ (map (fun p => (pt_x p, pt_y p))))
    by (intros C; unfold blocks_of; now rewrite map_map).
  rewrite <- concat_map.
  apply Injective_map_NoDup.
  - intros p q E. inversion E. now apply point_eq.
  - apply NoDup_concat_filter. now destruct (components_ok blocks).
Qed.

(** ** Landing conversion *)

Lemma cell_column_aligned s k cell :
  (fs_x s == of_int (k * CELL))%Q -> cell_column s cell = k + pt_x cell.
Proof.
  intros H. unfold cell_column. apply to_int_eq. rewrite H.
  rewrite !q_of_int_mul_CELL. unfold of_int, CELL. rewrite inject_Z_plus.
  change (inject_Z 30) with 30%Q. field.
Qed.

Lemma landed_one_per_cell occ dt s :
  NoDup (fs_cells s) -> aligned_x s ->
  landed (landing occ dt s) = true ->
  one_per_cell (landed_blocks (set_y s (finalY (landing occ dt s)))).
Proof.
  intros Hnd [k Hk] Hland.
  destruct (landing_min occ dt s) as (_ & Hin & _).
  destruct (candidate_multiple occ dt s _ (Hin Hland)) as [m Hm].
  unfold one_per_cell, landed_blocks. apply NoDup_map_filter.
  cbn [set_y fs_cells fs_types]. rewrite map_map.
  apply (NoDup_map_rel fst); [now rewrite with_types_fst|].
  intros x y _ _ Heq. unfold cell_of in Heq.
  rewrite !block_column, !(block_row s _ m _ Hm) in Heq.
  rewrite !(cell_column_aligned s k _ Hk) in Heq.
  inversion Heq as [[Hc Hr]]. apply point_eq; lia.
Qed.

Lemma update_shape_one_per_cell blocks dt s newShapes :
  one_per_cell blocks ->
  NoDup (fs_cells s) -> aligned_x s -> above_floor s ->
  shape_clear (buildOcc blocks) s ->
  one_per_cell (fst (update_shape (buildOcc blocks) dt (blocks, newShapes) s)).
Proof.
  intros H Hnd Hal Hfloor Hclear. unfold update_shape.
  destruct (landed (landing (buildOcc blocks) dt s)) eqn:Hland; cbn [fst];
    [|exact H].
  unfold one_per_cell. rewrite map_app. apply NoDup_app.
  - exact H.
  - now apply landed_one_per_cell.
  - intros c Hc Hc'.
    apply in_map_iff in Hc as [b0 [<- Hb0]].
    apply in_map_iff in Hc' as [b [E Hb]].
    now apply (landed_block_new blocks dt s b b0 Hclear Hfloor Hland Hb Hb0).
Qed.

(** C2 as stated fails: two shapes that land in the same turn are both
    tested against the grid built before the first landed, and both
    become a block on cell (0, 19). *)
Lemma one_per_cell_counterexample :
  one_per_cell [] /\
  fst (update_falling (1 # 20) [] [twin_shape; twin_shape]) =
    [mkBlock 0 19 NORMAL; mkBlock 0 19 NORMAL] /\
  ~ one_per_cell (fst (update_falling (1 # 20) [] [twin_shape; twin_shape])).
Proof.
  split; [constructor|].
  assert (E : fst (update_falling (1 # 20) [] [twin_shape; twin_shape]) =
              [mkBlock 0 19 NORMAL; mkBlock 0 19 NORMAL])
    by (vm_compute; reflexivity).
  split; [exact E|]. rewrite E. unfold one_per_cell. simpl.
  intros H. inversion H as [|? ? Hn _]. apply Hn. now left.
Qed.

(** * Freeze *)

Lemma frozen_iff g : frozen g = true <-> Qleb (freezeTimer g) 0 = false.
Proof. unfold frozen, Qltb, Qleb. apply negb_true_iff. Qed.

Lemma same_place_refl shapes s : In s shapes -> same_place shapes s.
Proof. intros H. exists s. auto. Qed.

Lemma same_place_trans shapes1 shapes2 s :
  (forall s', In s' shapes2 -> same_place shapes1 s') ->
  same_place shapes2 s -> same_place shapes1 s.
Proof.
  intros H [s2 (Hin & Hx & Hy & Hv)].
  destruct (H s2 Hin) as [s1 (Hin1 & Hx1 & Hy1 & Hv1)].
  exists s1. repeat split; congruence.
Qed.

Lemma strip_shapes_same_place hit shapes s' :
  In s' (strip_shapes hit shapes) -> same_place shapes s'.
Proof.
  unfold strip_shapes. intros H. apply filter_In in H as [H _].
  apply in_map_iff in H as [s [<- Hs]].
  destruct (strip_shape_spec hit s) as (Hx & Hy & Hv & _).
  exists s. auto.
Qed.

Lemma applyPower_facts type col row st :
  (length (pw_blocks (applyPower type col row st)) <= length (pw_blocks st))%nat /\
  (forall s', In s' (pw_shapes (applyPower type col row st)) ->
     same_place (pw_shapes st) s') /\
  (pw_freeze (applyPower type col row st) = pw_freeze st \/
   pw_freeze (applyPower type col row st) = FREEZE_DURATION).
Proof.
  destruct type; cbn [applyPower pw_blocks pw_shapes pw_freeze];
    (split; [try apply filter_length_le; auto|]);
    (split; [try (intros s'; apply strip_shapes_same_place);
             try (intros s'; apply same_place_refl) | auto]).
Qed.

Lemma erase_first_length tc tr blocks t rest :
  erase_first tc tr blocks = Some (t, rest) ->
  (length rest <= length blocks)%nat.
Proof.
  intros H. apply erase_first_some in H as (l1 & b & l2 & -> & -> & _).
  rewrite !length_app. simpl. lia.
Qed.

Lemma breakAt_length tc tr st :
  (length (bk_blocks (snd (breakAt tc tr st))) <= length (bk_blocks st))%nat.
Proof.
  unfold breakAt. destruct (Qltb 0 (bk_cd st)); [simpl; lia|].
  destruct ((tc <? 0) || (tc >=? COLS) || (tr <? 0) || (tr >=? ROWS));
    [simpl; lia|].
  destruct (erase_first tc tr (bk_blocks st)) as [[t rest]|] eqn:E; [|simpl; lia].
  simpl. now apply erase_first_length in E.
Qed.

Lemma break_dir_facts pressed tc tr cd st :
  (length (pw_blocks (fst (snd (break_dir pressed tc tr cd st)))) <=
   length (pw_blocks (fst st)))%nat /\
  (forall s', In s' (pw_shapes (fst (snd (break_dir pressed tc tr cd st)))) ->
     same_place (pw_shapes (fst st)) s') /\
  (pw_freeze (fst (snd (break_dir pressed tc tr cd st))) = pw_freeze (fst st) \/
   pw_freeze (fst (snd (break_dir pressed tc tr cd st))) = FREEZE_DURATION).
Proof.
  unfold break_dir. destruct pressed.
  - pose proof (breakAt_length tc tr (mkBreak (pw_blocks (fst st)) cd (snd st)))
      as Hlen.
    destruct (breakAt tc tr (mkBreak (pw_blocks (fst st)) cd (snd st)))
      as [ok bs]. cbn [snd bk_blocks] in Hlen.
    destruct ok; cbn [fst snd pw_blocks pw_shapes pw_freeze].
    + destruct (applyPower_facts (bk_usedType bs) tc tr
                  (mkPower (bk_blocks bs) (pw_shapes (fst st)) (pw_freeze (fst st))))
        as (H1 & H2 & H3).
      cbn [pw_blocks pw_shapes pw_freeze] in *.
      split; [lia|]. split; assumption.
    + split; [exact Hlen|]. split; [intros s'; apply same_place_refl | now left].
  - cbn [fst snd]. split; [lia|].
    split; [intros s'; apply same_place_refl | now left].
Qed.

Lemma phase_break_facts i g :
  gameOver g = false ->
  (length (staticBlocks (phase_break i g)) <= length (staticBlocks g))%nat /\
  (forall s', In s' (fallingShapes (phase_break i g)) ->
     same_place (fallingShapes g) s') /\
  (freezeTimer (phase_break i g) = freezeTimer g \/
   freezeTimer (phase_break i g) = FREEZE_DURATION) /\
  gameOver (phase_break i g) = false.
Proof.
  intros Hgo. unfold phase_break. rewrite Hgo.
  set (pCol := Z.quot (rx (in_player i)) CELL).
  set (pRow := Z.quot (ry (in_player i)) CELL).
  set (st0 := (mkPower (staticBlocks g) (fallingShapes g) (freezeTimer g), NORMAL)).
  pose proof (break_dir_facts (in_left i) (pCol - 1) pRow (cdLeft g) st0) as F1.
  destruct (break_dir (in_left i) (pCol - 1) pRow (cdLeft g) st0) as [cdL st1].
  pose proof (break_dir_facts (in_right i) (pCol + 1) pRow (cdRight g) st1) as F2.
  destruct (break_dir (in_right i) (pCol + 1) pRow (cdRight g) st1) as [cdR st2].
  pose proof (break_dir_facts (in_up i) pCol (pRow - 1) (cdUp g) st2) as F3.
  destruct (break_dir (in_up i) pCol (pRow - 1) (cdUp g) st2) as [cdU st3].
  pose proof (break_dir_facts (in_down i) pCol (pRow + 1) (cdDown g) st3) as F4.
  destruct (break_dir (in_down i) pCol (pRow + 1) (cdDown g) st3) as [cdD st4].
  cbn [fst snd] in *. cbn [staticBlocks fallingShapes freezeTimer gameOver].
  destruct F1 as (L1 & S1 & Z1), F2 as (L2 & S2 & Z2),
           F3 as (L3 & S3 & Z3), F4 as (L4 & S4 & Z4).
  unfold st0 in *. cbn [fst pw_blocks pw_shapes pw_freeze] in *.
  split; [lia|]. split; [|split; [|reflexivity]].
  - intros s' Hs'.
    apply (same_place_trans _ (pw_shapes (fst st1))); [exact S1|].
    apply (same_place_trans _ (pw_shapes (fst st2))); [exact S2|].
    apply (same_place_trans _ (pw_shapes (fst st3))); [exact S3|].
    now apply S4.
  - destruct Z4 as [Z4 | Z4]; [|now right]. rewrite Z4.
    destruct Z3 as [Z3 | Z3]; [|now right]. rewrite Z3.
    destruct Z2 as [Z2 | Z2]; [|now right]. rewrite Z2.
    exact Z1.
Qed.

Lemma phase_spawn_facts dt fallSpeed rng g :
  staticBlocks (phase_spawn dt fallSpeed rng g) = staticBlocks g /\
  freezeTimer (phase_spawn dt fallSpeed rng g) = freezeTimer g /\
  gameOver (phase_spawn dt fallSpeed rng g) = gameOver g.
Proof.
  unfold phase_spawn. destruct (gameOver g) eqn:E; [auto|].
  destruct (Qleb spawnInterval (spawnTimer g + dt)); [|simpl; auto].
  destruct (spawn_shape fallSpeed (timeSinceLastPowerup g) rng). simpl. auto.
Qed.

Lemma frozen_FREEZE_DURATION g :
  freezeTimer g = FREEZE_DURATION -> frozen g = true.
Proof. intros H. unfold frozen. now rewrite H. Qed.

Lemma row_clear_length blocks :
  (length (row_clear blocks) <= length blocks)%nat.
Proof.
  rewrite row_clear_eq. unfold row_clear_spec. rewrite length_map.
  apply filter_length_le.
Qed.

(** * Further properties of the resolver *)

(** X1: what [buildOcc] marks. *)
Theorem buildOcc_marks (blocks : list Block) (r c : Z) :
  (buildOcc blocks r c = true <->
   exists b, In b blocks /\ bcol b = c /\ brow b = r /\
             0 <= r < ROWS /\ 0 <= c < COLS) /\
  (buildOcc blocks r c = true -> 0 <= r < ROWS /\ 0 <= c < COLS).
Proof.
  assert (H : buildOcc blocks r c = true <->
              exists b, In b blocks /\ bcol b = c /\ brow b = r /\
                        0 <= r < ROWS /\ 0 <= c < COLS).
  { rewrite buildOcc_spec. split.
    - intros [b (Hb & Hg & Hr & Hc)]. exists b. subst.
      apply in_grid_iff in Hg. auto.
    - intros [b (Hb & Hc & Hr & Hrr & Hcc)]. exists b. subst.
      repeat split; auto. apply in_grid_iff. auto. }
  split; [exact H|]. intros Ho. apply H in Ho as [b (_ & _ & _ & Hr & Hc)]. auto.
Qed.

Lemma linked_incl C D p m :
  incl C D -> linked C p m -> linked D p m.
Proof.
  intros Hi H. induction H as [p Hp | p n m _ IH Hn Hm].
  - apply linked_refl. now apply Hi.
  - eapply linked_step; eauto.
Qed.

Section Connected.

Variable occ : grid bool.

Lemma bfs_step_linked start st st' :
  (forall m, In m (bcells st ++ bq st) -> linked (bcells st ++ bq st) start m) ->
  bfs_step occ st = Some st' ->
  forall m, In m (bcells st' ++ bq st') -> linked (bcells st' ++ bq st') start m.
Proof.
  intros Hl Hstep. unfold bfs_step in Hstep.
  destruct (bq st) as [|p q] eqn:Eq; [discriminate|].
  destruct (fold_left (expand occ) (neighbours p) (bvisited st, q))
    as [V' q'] eqn:Ef.
  inversion Hstep; subst st'; clear Hstep.
  apply expand_fold in Ef as [added [-> [_ [Hadd _]]]]. cbn [bcells bq].
  assert (Hi : incl (bcells st ++ p :: q) ((bcells st ++ [p]) ++ q ++ added)).
  { intros x Hx. rewrite !in_app_iff in *. simpl in *. tauto. }
  intros m Hm.
  assert (Hm' : In m (bcells st ++ p :: q) \/ In m added).
  { rewrite !in_app_iff in Hm. simpl in Hm. rewrite in_app_iff. simpl. tauto. }
  destruct Hm' as [Hm' | Hm'].
  - apply (linked_incl _ _ _ _ Hi). now apply Hl.
  - destruct (Hadd m Hm') as (Hn & _).
    apply linked_step with p; [|exact Hn | exact Hm].
    apply (linked_incl _ _ _ _ Hi). apply Hl.
    apply in_or_app. right. now left.
Qed.

Lemma bfs_loop_linked start fuel : forall st,
  (forall m, In m (bcells st ++ bq st) -> linked (bcells st ++ bq st) start m) ->
  forall m, In m (bcells (bfs_loop fuel occ st) ++ bq (bfs_loop fuel occ st)) ->
    linked (bcells (bfs_loop fuel occ st) ++ bq (bfs_loop fuel occ st)) start m.
Proof.
  induction fuel as [|fuel IH]; intros st Hl; simpl; [exact Hl|].
  destruct (bfs_step occ st) as [st'|] eqn:E; [|exact Hl].
  apply IH. eapply bfs_step_linked; eauto.
Qed.

Lemma bfs_linked V c0 r0 m :
  in_grid c0 r0 = true -> occ r0 c0 = true -> V r0 c0 = false ->
  In m (bcells (bfs occ V c0 r0)) ->
  linked (bcells (bfs occ V c0 r0)) (mkPoint c0 r0) m.
Proof.
  intros Hg Ho Hv Hm.
  pose proof (bfs_start_inv occ V c0 r0 Hg Ho Hv) as Hstart.
  assert (Hq : bq (bfs occ V c0 r0) = []).
  { apply (bfs_loop_terminates occ V); [exact Hstart | simpl; lia]. }
  pose proof (bfs_loop_linked (mkPoint c0 r0) bfs_fuel
                (mkBfs [mkPoint c0 r0] (grid_set V r0 c0 true) [])) as H.
  fold (bfs occ V c0 r0) in H. rewrite Hq, app_nil_r in H.
  apply H; [|exact Hm].
  simpl. intros x [<- | []]. apply linked_refl. now left.
Qed.

Lemma scan_linked todo : forall V C p,
  (forall q, In q todo -> point_in_grid q = true) ->
  In C (scan occ V todo) -> In p C -> linked C (hd (mkPoint 0 0) C) p.
Proof.
  induction todo as [|p0 todo IH]; intros V C p Hg HC Hp; simpl in HC; [tauto|].
  assert (Hg' : forall q, In q todo -> point_in_grid q = true)
    by (intros; apply Hg; now right).
  destruct (occ (pt_y p0) (pt_x p0)) eqn:Eo; simpl in HC; [|eauto].
  destruct (V (pt_y p0) (pt_x p0)) eqn:Ev; [eauto|].
  destruct HC as [<- | HC]; [|eauto].
  destruct (bfs_cells_head occ V (pt_x p0) (pt_y p0)) as [rest Hhd].
  rewrite Hhd at 2. cbn [hd].
  apply bfs_linked; auto. apply Hg. now left.
Qed.

End Connected.

(** X2: every component is 4-connected: each of its cells is joined to
    its first cell by a chain of neighbouring cells of the component. *)
Theorem components_connected (blocks : list Block) (C : list SDL_Point)
    (p : SDL_Point) :
  In C (components blocks) -> In p C -> linked C (hd (mkPoint 0 0) C) p.
Proof.
  rewrite components_scan. apply scan_linked.
  intros q. apply In_all_cells.
Qed.

Lemma components_connected_witness :
  linked [mkPoint 2 18; mkPoint 3 18; mkPoint 2 19] (mkPoint 2 18) (mkPoint 2 19).
Proof.
  apply (components_connected support_example
           [mkPoint 2 18; mkPoint 3 18; mkPoint 2 19] (mkPoint 2 19)).
  - vm_compute. auto.
  - do 2 right. now left.
Defined.

(** * From a floating component to a falling shape, and back *)

Lemma min_over_fold (f : SDL_Point -> Z) (cells : list SDL_Point) : forall m0,
  let m := fold_left (fun m p => if f p <? m then f p else m) cells m0 in
  m <= m0 /\ (forall p, In p cells -> m <= f p) /\
  (m = m0 \/ exists p, In p cells /\ f p = m).
Proof.
  induction cells as [|c cells IH]; intros m0; simpl.
  - split; [lia|]. split; [intros p []|now left].
  - destruct (IH (if f c <? m0 then f c else m0)) as (H1 & H2 & H3).
    cbv zeta in *.
    set (m := fold_left (fun m p => if f p <? m then f p else m) cells
                (if f c <? m0 then f c else m0)) in *.
    destruct (f c <? m0) eqn:E;
      [apply Z.ltb_lt in E | apply Z.ltb_ge in E].
    + split; [lia|]. split.
      * intros p [<- | Hp]; [lia | now apply H2].
      * right. destruct H3 as [-> | [p [Hp Hf]]]; eauto.
    + split; [lia|]. split.
      * intros p [<- | Hp]; [lia | now apply H2].
      * destruct H3 as [-> | [p [Hp Hf]]]; eauto.
Qed.

Lemma min_over_spec (f : SDL_Point -> Z) (cells : list SDL_Point) :
  (forall p, In p cells -> min_over f cells <= f p) /\
  (cells <> [] -> exists p, In p cells /\ f p = min_over f cells).
Proof.
  unfold min_over.
  destruct (min_over_fold f cells (f (hd (mkPoint 0 0) cells))) as (H1 & H2 & H3).
  split; [exact H2|]. intros Hne.
  destruct H3 as [E | H3]; [|exact H3].
  destruct cells as [|c cells]; [congruence|].
  exists c. split; [now left|]. simpl in *. now rewrite E.
Qed.

Lemma with_types_map {A} (f : A -> SDL_Point) (g : A -> BlockType) l :
  with_types (map f l) (map g l) = map (fun a => (f a, g a)) l.
Proof. induction l as [|a l IH]; simpl; [reflexivity | now rewrite IH]. Qed.

Lemma to_int_origin k n :
  to_int (of_int (k * CELL) / of_int CELL + of_int n)%Q = k + n.
Proof. apply to_int_eq. apply of_int_CELL_div. Qed.

Lemma shape_blocks_shape_of typeAt fallSpeed cells :
  shape_blocks (shape_of typeAt fallSpeed cells) = blocks_of typeAt cells.
Proof.
  unfold shape_blocks, shape_of, blocks_of. cbn [fs_cells fs_types].
  rewrite with_types_map, map_map. apply map_ext. intros p.
  unfold block_of_cell. cbn [fs_x fs_y fst snd pt_x pt_y].
  rewrite !to_int_origin. f_equal; lia.
Qed.

(** X3: conservation when a floating component becomes a falling shape.
    The shape has one cell and one type per cell of the component, in
    the same order; its offsets are non-negative and some offset has
    column 0 and some has row 0 (the origin is the top-left corner of the
    bounding box); and the blocks its cells stand for at its origin are
    the blocks of the component, with their types. *)
Theorem shape_of_conservation (typeAt : grid BlockType) (fallSpeed : Q)
    (cells : list SDL_Point) :
  let s := shape_of typeAt fallSpeed cells in
  length (fs_cells s) = length cells /\
  length (fs_types s) = length cells /\
  fs_speed s = fallSpeed /\
  (forall o, In o (fs_cells s) -> 0 <= pt_x o /\ 0 <= pt_y o) /\
  (cells <> [] ->
     (exists o, In o (fs_cells s) /\ pt_x o = 0) /\
     (exists o, In o (fs_cells s) /\ pt_y o = 0)) /\
  shape_blocks s = blocks_of typeAt cells /\
  landed_blocks s = filter (fun b => in_grid (bcol b) (brow b))
                           (blocks_of typeAt cells).
Proof.
  intros s.
  destruct (min_over_spec pt_x cells) as [Hx1 Hx2].
  destruct (min_over_spec pt_y cells) as [Hy1 Hy2].
  split; [apply length_map|]. split; [apply length_map|].
  split; [reflexivity|]. split; [|split; [|split]].
  - intros o Ho. unfold s, shape_of in Ho. cbn [fs_cells] in Ho.
    apply in_map_iff in Ho as [p [<- Hp]]. cbn [pt_x pt_y].
    specialize (Hx1 p Hp). specialize (Hy1 p Hp). lia.
  - intros Hne. split.
    + destruct (Hx2 Hne) as [p [Hp E]].
      exists (mkPoint (pt_x p - min_over pt_x cells) (pt_y p - min_over pt_y cells)).
      split; [|cbn [pt_x]; lia].
      unfold s, shape_of. cbn [fs_cells].
      apply (in_map (fun p => mkPoint (pt_x p - min_over pt_x cells)
                                      (pt_y p - min_over pt_y cells))).
      exact Hp.
    + destruct (Hy2 Hne) as [p [Hp E]].
      exists (mkPoint (pt_x p - min_over pt_x cells) (pt_y p - min_over pt_y cells)).
      split; [|cbn [pt_y]; lia].
      unfold s, shape_of. cbn [fs_cells].
      apply (in_map (fun p => mkPoint (pt_x p - min_over pt_x cells)
                                      (pt_y p - min_over pt_y cells))).
      exact Hp.
  - apply shape_blocks_shape_of.
  - unfold landed_blocks. fold (shape_blocks s). unfold s.
    now rewrite shape_blocks_shape_of.
Qed.

Lemma shape_of_conservation_witness :
  (exists o, In o (fs_cells (shape_of (buildTypeAt support_example) 220
                     [mkPoint 5 3; mkPoint 5 4; mkPoint 5 5; mkPoint 5 6])) /\
             pt_x o = 0) /\
  (exists o, In o (fs_cells (shape_of (buildTypeAt support_example) 220
                     [mkPoint 5 3; mkPoint 5 4; mkPoint 5 5; mkPoint 5 6])) /\
             pt_y o = 0).
Proof.
  apply (shape_of_conservation (buildTypeAt support_example) 220
           [mkPoint 5 3; mkPoint 5 4; mkPoint 5 5; mkPoint 5 6]).
  discriminate.
Defined.

(** * What the resolver returns *)

Lemma In_blocks_of typeAt cells b :
  In b (blocks_of typeAt cells) <->
  exists p, In p cells /\
    b = mkBlock (pt_x p) (pt_y p) (typeAt (pt_y p) (pt_x p)).
Proof.
  unfold blocks_of. rewrite in_map_iff. split; intros [p [H1 H2]]; eauto.
Qed.

Lemma buildTypeAt_unique blocks b :
  one_per_cell blocks -> In b blocks -> in_grid (bcol b) (brow b) = true ->
  buildTypeAt blocks (brow b) (bcol b) = btype b.
Proof.
  intros Hone Hb Hg. unfold buildTypeAt. apply buildTypeAt_fold.
  - intros b' Hb' _ Hr Hc.
    assert (E : b' = b); [|now rewrite E].
    unfold one_per_cell in Hone.
    revert Hone Hb Hb' Hr Hc. clear. induction blocks as [|a l IH]; simpl; [tauto|].
    intros Hnd [-> | Hb] [-> | Hb'] Hr Hc; auto.
    + inversion Hnd as [|? ? Hn _]; subst. exfalso. apply Hn.
      replace (cell_of b) with (cell_of b') by (unfold cell_of; congruence).
      now apply in_map.
    + inversion Hnd as [|? ? Hn _]; subst. exfalso. apply Hn.
      replace (cell_of b') with (cell_of b) by (unfold cell_of; congruence).
      now apply in_map.
    + inversion Hnd; subst. auto.
  - right. exists b. auto.
Qed.

Lemma one_per_cell_NoDup blocks : one_per_cell blocks -> NoDup blocks.
Proof. apply NoDup_map_inv. Qed.

Lemma concat_filter_split {A} (p : list A -> bool) (L : list (list A)) :
  Permutation (concat (filter p L) ++ concat (filter (fun C => negb (p C)) L))
              (concat L).
Proof.
  induction L as [|C L IH]; simpl; [constructor|].
  destruct (p C); simpl.
  - rewrite <- app_assoc. now apply Permutation_app_head.
  - rewrite <- IH. rewrite !app_assoc. apply Permutation_app_tail.
    apply Permutation_app_comm.
Qed.

Lemma flat_map_shape_blocks typeAt fallSpeed L :
  flat_map shape_blocks (map (shape_of typeAt fallSpeed) L) =
  concat (map (blocks_of typeAt) L).
Proof.
  induction L as [|C L IH]; simpl; [reflexivity|].
  now rewrite shape_blocks_shape_of, IH.
Qed.

Lemma concat_blocks_of typeAt L :
  concat (map (blocks_of typeAt) L) = blocks_of typeAt (concat L).
Proof.
  unfold blocks_of. now rewrite <- concat_map.
Qed.

Lemma resolve_all blocks shapes fallSpeed pL pR pT pB :
  exists new,
    snd (resolveFloatingClusters blocks shapes fallSpeed pL pR pT pB) =
      shapes ++ new /\
    new = map (shape_of (buildTypeAt blocks) fallSpeed)
              (filter (fun C => negb (supported (buildOcc blocks) C pL pR pT pB))
                      (components blocks)) /\
    Permutation
      (fst (resolveFloatingClusters blocks shapes fallSpeed pL pR pT pB) ++
       flat_map shape_blocks new)
      (blocks_of (buildTypeAt blocks) (concat (components blocks))).
Proof.
  rewrite resolve_eq. cbn [fst snd]. eexists. split; [reflexivity|].
  split; [reflexivity|].
  rewrite flat_map_shape_blocks, !concat_blocks_of.
  unfold blocks_of. rewrite <- map_app. apply Permutation_map.
  apply concat_filter_split.
Qed.

Lemma In_all_blocks blocks b :
  In b (blocks_of (buildTypeAt blocks) (concat (components blocks))) <->
  in_grid (bcol b) (brow b) = true /\
  buildOcc blocks (brow b) (bcol b) = true /\
  btype b = buildTypeAt blocks (brow b) (bcol b).
Proof.
  destruct (components_ok blocks) as [Hcells _ Hcov _ _].
  rewrite In_blocks_of. split.
  - intros [p [Hp ->]]. apply in_concat in Hp as [C [HC HpC]].
    destruct (Hcells C p HC HpC) as (Hg & Ho & _). cbn [bcol brow btype]. auto.
  - intros (Hg & Ho & Ht). exists (mkPoint (bcol b) (brow b)). split.
    + destruct (Hcov (mkPoint (bcol b) (brow b))) as [Hv | [C [HC Hp]]].
      * now apply In_all_cells.
      * exact Ho.
      * discriminate.
      * apply in_concat. eauto.
    + cbn [pt_x pt_y]. rewrite <- Ht. now destruct b.
Qed.

Lemma all_blocks_one_per_cell blocks :
  one_per_cell (blocks_of (buildTypeAt blocks) (concat (components blocks))).
Proof.
  unfold one_per_cell, blocks_of. rewrite map_map.
  apply Injective_map_NoDup.
  - intros p q E. unfold cell_of in E. cbn [bcol brow] in E.
    inversion E. now apply point_eq.
  - now destruct (components_ok blocks).
Qed.

Lemma resolve_blocks_in_grid blocks shapes fallSpeed pL pR pT pB :
  blocks_in_grid (fst (resolveFloatingClusters blocks shapes fallSpeed pL pR pT pB)).
Proof.
  destruct (resolve_all blocks shapes fallSpeed pL pR pT pB) as (new & _ & _ & Hperm).
  intros b Hb.
  assert (Hin : In b (blocks_of (buildTypeAt blocks) (concat (components blocks)))).
  { apply (Permutation_in _ Hperm). apply in_or_app. now left. }
  apply In_all_blocks in Hin. tauto.
Qed.

(** X4: the resolver conserves the grid.  Whatever the block list, the
    re-emitted blocks together with the blocks the appended shapes stand
    for lie in the grid, hold exactly one block on every occupied cell
    of the derived grid and none elsewhere; the old shapes are kept in
    front of the appended ones; and when the list had one block per cell,
    all in the grid, these blocks are the input blocks themselves, types
    included, in some order. *)
Theorem resolve_conservation
    (blocks : list Block) (shapes : list FallingShape) (fallSpeed : Q)
    (pL pR pT pB : Z) :
  exists new,
    snd (resolveFloatingClusters blocks shapes fallSpeed pL pR pT pB) =
      shapes ++ new /\
    let out := fst (resolveFloatingClusters blocks shapes fallSpeed pL pR pT pB)
               ++ flat_map shape_blocks new in
    blocks_in_grid out /\
    one_per_cell out /\
    (forall c r, buildOcc blocks r c = true <->
                 exists b, In b out /\ bcol b = c /\ brow b = r) /\
    (forall s, In s new -> fs_cells s <> [] /\ fs_speed s = fallSpeed /\
                           length (fs_types s) = length (fs_cells s)) /\
    (one_per_cell blocks -> blocks_in_grid blocks -> Permutation out blocks).
Proof.
  destruct (resolve_all blocks shapes fallSpeed pL pR pT pB)
    as (new & Hsnd & Hnew & Hperm).
  exists new. split; [exact Hsnd|]. intros out. fold out in Hperm.
  assert (Hin : forall b, In b out <->
            In b (blocks_of (buildTypeAt blocks) (concat (components blocks)))).
  { intros b. split; apply Permutation_in; [exact Hperm | now symmetry]. }
  split; [|split; [|split; [|split]]].
  - intros b Hb. apply Hin, In_all_blocks in Hb. tauto.
  - unfold one_per_cell.
    apply (Permutation_NoDup (l := map cell_of
             (blocks_of (buildTypeAt blocks) (concat (components blocks))))).
    + apply Permutation_map. now symmetry.
    + apply all_blocks_one_per_cell.
  - intros c r. split.
    + intros Ho.
      exists (mkBlock c r (buildTypeAt blocks r c)). cbn [bcol brow].
      split; [|auto]. apply Hin, In_all_blocks. cbn [bcol brow btype].
      split; [now apply buildOcc_in_grid in Ho | auto].
    + intros [b (Hb & <- & <-)]. apply Hin, In_all_blocks in Hb. tauto.
  - intros s Hs. rewrite Hnew in Hs. apply in_map_iff in Hs as [C [<- HC]].
    apply filter_In in HC as [HC _].
    destruct (components_ok blocks) as [_ _ _ Hne _].
    unfold shape_of. cbn [fs_cells fs_types fs_speed]. rewrite !length_map.
    split; [|auto]. specialize (Hne C HC). destruct C; [congruence | discriminate].
  - intros Hone Hgrid. rewrite Hperm.
    apply NoDup_Permutation.
    + apply one_per_cell_NoDup, all_blocks_one_per_cell.
    + now apply one_per_cell_NoDup.
    + intros b. rewrite In_all_blocks. split.
      * intros (Hg & Ho & Ht). apply buildOcc_spec in Ho as [b0 (Hb0 & Hg0 & Hr & Hc)].
        assert (E : b = b0); [|now rewrite E].
        pose proof (buildTypeAt_unique blocks b0 Hone Hb0 Hg0) as Hty.
        rewrite Hr, Hc, <- Ht in Hty.
        destruct b as [c1 r1 t1], b0 as [c2 r2 t2].
        cbn [bcol brow btype] in *. congruence.
      * intros Hb. split; [now apply Hgrid|]. split.
        -- apply buildOcc_spec. exists b. auto.
        -- symmetry. apply buildTypeAt_unique; auto.
Qed.

Lemma resolve_conservation_witness :
  exists new,
    snd (resolveFloatingClusters support_example [] 220 9 9 18 18) = [] ++ new /\
    Permutation
      (fst (resolveFloatingClusters support_example [] 220 9 9 18 18) ++
       flat_map shape_blocks new)
      support_example.
Proof.
  destruct (resolve_conservation support_example [] 220 9 9 18 18)
    as (new & H1 & _ & _ & _ & _ & H6).
  exists new. split; [exact H1|]. apply H6.
  - unfold one_per_cell. vm_compute.
    repeat (constructor; [simpl; intuition discriminate|]). constructor.
  - intros b Hb. simpl in Hb.
    repeat (destruct Hb as [<- | Hb]; [reflexivity|]). destruct Hb.
Defined.

(** * Further properties of the row clear *)

Lemma full_rows_below_bound blocks r :
  0 <= r < ROWS -> 0 <= full_rows_below blocks r <= ROWS - 1 - r.
Proof.
  intros Hr. unfold full_rows_below. split; [lia|].
  assert (H : Z.of_nat (length (filter (fun r' => row_fullb blocks r' && (r' >? r))
                                       (range ROWS)))
              <= Z.max 0 (ROWS - r - 1)).
  { apply count_interval.
    - apply NoDup_filter, NoDup_range.
    - intros x Hx. apply filter_In in Hx as [Hx1 Hx2].
      apply In_range in Hx1. apply andb_true_iff in Hx2 as [_ Hx2].
      rewrite Z.gtb_ltb, Z.ltb_lt in Hx2. lia. }
  lia.
Qed.

Lemma In_row_clear blocks b' :
  In b' (row_clear blocks) <->
  exists b, In b blocks /\ row_fullb blocks (brow b) = false /\
    b' = mkBlock (bcol b) (brow b + full_rows_below blocks (brow b)) (btype b).
Proof.
  rewrite row_clear_eq. unfold row_clear_spec. rewrite in_map_iff. split.
  - intros [b [<- Hb]]. apply filter_In in Hb as [Hb Hn].
    apply negb_true_iff in Hn. eauto.
  - intros [b (Hb & Hn & ->)]. exists b. split; [reflexivity|].
    apply filter_In. split; [exact Hb | now rewrite Hn].
Qed.

Lemma row_clear_origin blocks b' :
  blocks_in_grid blocks -> In b' (row_clear blocks) ->
  exists b, In b blocks /\ ~ row_full blocks (brow b) /\
    bcol b' = bcol b /\ btype b' = btype b /\
    brow b <= brow b' <= ROWS - 1.
Proof.
  intros Hg Hb'. apply In_row_clear in Hb' as [b (Hb & Hn & ->)].
  exists b. cbn [bcol brow btype].
  pose proof (Hg b Hb) as Hgb. apply in_grid_iff in Hgb as [Hr Hc].
  pose proof (full_rows_below_bound blocks (brow b) Hr).
  repeat split; auto; try lia.
  rewrite <- row_fullb_iff. congruence.
Qed.

Lemma row_clear_keeps_grid blocks :
  blocks_in_grid blocks -> blocks_in_grid (row_clear blocks).
Proof.
  intros Hg b' Hb'. destruct (row_clear_origin blocks b' Hg Hb')
    as [b (Hb & _ & Hc & _ & Hr)].
  pose proof (Hg b Hb) as Hgb. apply in_grid_iff in Hgb.
  apply in_grid_iff. rewrite Hc. lia.
Qed.

(** X5: the row clear keeps the blocks in the grid.  With all blocks in
    the grid, every block left after the clear is in the grid, in the
    column and with the type of a block that stood on a row that was not
    full, and not above the row it came from. *)
Theorem row_clear_in_grid (blocks : list Block) :
  blocks_in_grid blocks ->
  blocks_in_grid (row_clear blocks) /\
  (forall b', In b' (row_clear blocks) ->
     exists b, In b blocks /\ ~ row_full blocks (brow b) /\
       bcol b' = bcol b /\ btype b' = btype b /\
       brow b <= brow b' <= ROWS - 1).
Proof.
  intros Hg. split; [now apply row_clear_keeps_grid|].
  intros b' Hb'. now apply row_clear_origin.
Qed.

Lemma row_clear_in_grid_witness :
  blocks_in_grid (row_clear scenario_B).
Proof.
  apply (row_clear_in_grid scenario_B).
  intros b Hb. vm_compute in Hb.
  repeat (destruct Hb as [<- | Hb]; [reflexivity|]). destruct Hb.
Defined.

Lemma shift_inj blocks r1 r2 :
  row_fullb blocks r1 = false -> row_fullb blocks r2 = false ->
  r1 + full_rows_below blocks r1 = r2 + full_rows_below blocks r2 -> r1 = r2.
Proof.
  intros H1 H2 E. destruct (Z.lt_trichotomy r1 r2) as [Hlt | [Heq | Hgt]].
  - pose proof (shift_lt blocks r1 r2 Hlt H2). lia.
  - exact Heq.
  - pose proof (shift_lt blocks r2 r1 Hgt H1). lia.
Qed.

Lemma row_clear_no_full_row blocks r :
  blocks_in_grid blocks -> row_fullb (row_clear blocks) r = false.
Proof.
  intros Hg. destruct (row_fullb (row_clear blocks) r) eqn:E; [|reflexivity].
  exfalso. apply row_fullb_iff in E as [Hr Hall].
  assert (H0 : 0 <= 0 < COLS) by (vm_compute; split; congruence).
  destruct (Hall 0 H0) as [b0' (Hb0' & _ & Hr0)].
  apply In_row_clear in Hb0' as [b0 (Hb0 & Hn0 & ->)]. cbn [brow] in Hr0.
  assert (Hfull : row_full blocks (brow b0)).
  { split.
    - pose proof (Hg b0 Hb0) as Hgb. apply in_grid_iff in Hgb. tauto.
    - intros c Hc. destruct (Hall c Hc) as [b' (Hb' & Hcb & Hrb)].
      apply In_row_clear in Hb' as [b (Hb & Hn & ->)]. cbn [bcol brow] in *.
      exists b. repeat split; auto.
      apply (shift_inj blocks (brow b) (brow b0) Hn Hn0). lia. }
  apply row_fullb_iff in Hfull. congruence.
Qed.

(** X6: after a row clear of blocks that lie in the grid no row is full,
    and a second clear changes nothing. *)
Theorem row_clear_idempotent (blocks : list Block) :
  blocks_in_grid blocks ->
  (forall r, ~ row_full (row_clear blocks) r) /\
  row_clear (row_clear blocks) = row_clear blocks.
Proof.
  intros Hg. split.
  - intros r Hr. apply row_fullb_iff in Hr.
    now rewrite row_clear_no_full_row in Hr.
  - unfold row_clear at 1. destruct (row_clear blocks) as [|b l] eqn:E;
      [reflexivity|].
    destruct (full_rows (buildOcc (b :: l))) as [|fr frs] eqn:Ef; [reflexivity|].
    exfalso.
    assert (Hin : In fr (full_rows (buildOcc (b :: l)))) by (rewrite Ef; now left).
    apply full_rows_iff in Hin. rewrite <- E in Hin.
    now rewrite row_clear_no_full_row in Hin.
Qed.

Lemma row_clear_idempotent_witness :
  row_clear (row_clear scenario_B) = row_clear scenario_B.
Proof.
  apply (row_clear_idempotent scenario_B).
  intros b Hb. vm_compute in Hb.
  repeat (destruct Hb as [<- | Hb]; [reflexivity|]). destruct Hb.
Defined.

(** * Further properties of the power effects *)

Lemma strip_shapes_spec hit shapes s' :
  In s' (strip_shapes hit shapes) <->
  exists s, In s shapes /\ s' = strip_shape hit s /\ fs_cells s' <> [].
Proof.
  unfold strip_shapes. rewrite filter_In, in_map_iff. split.
  - intros [[s [<- Hs]] Hne]. exists s. repeat split; auto.
    unfold cells_empty in Hne. destruct (fs_cells (strip_shape hit s));
      [discriminate | discriminate].
  - intros [s (Hs & -> & Hne)]. split; [eauto|].
    unfold cells_empty. destruct (fs_cells (strip_shape hit s)); [congruence | auto].
Qed.

Lemma strip_shape_cells hit s cell :
  In cell (fs_cells (strip_shape hit s)) <->
  In cell (fs_cells s) /\ hit s cell = false.
Proof.
  destruct (strip_shape_spec hit s) as (_ & _ & _ & Hc & _).
  rewrite Hc, filter_In, negb_true_iff. tauto.
Qed.

(** X7: the lasers.  LASER_H removes exactly the static blocks of the
    trigger row and the shape cells whose derived row is the trigger row;
    LASER_V does the same with columns; both discard the shapes left
    without cells and keep every other block and cell, the positions and
    the freeze countdown; NORMAL changes nothing. *)
Theorem laser_effect (col row : Z) (st : power_state) :
  (forall b, In b (pw_blocks (applyPower LASER_H col row st)) <->
     In b (pw_blocks st) /\ brow b <> row) /\
  (forall s', In s' (pw_shapes (applyPower LASER_H col row st)) <->
     exists s, In s (pw_shapes st) /\
       s' = strip_shape (fun s cell => cell_gr s cell =? row) s /\
       fs_cells s' <> []) /\
  (forall s cell,
     In cell (fs_cells (strip_shape (fun s cell => cell_gr s cell =? row) s)) <->
     In cell (fs_cells s) /\ cell_gr s cell <> row) /\
  (forall b, In b (pw_blocks (applyPower LASER_V col row st)) <->
     In b (pw_blocks st) /\ bcol b <> col) /\
  (forall s', In s' (pw_shapes (applyPower LASER_V col row st)) <->
     exists s, In s (pw_shapes st) /\
       s' = strip_shape (fun s cell => cell_gc s cell =? col) s /\
       fs_cells s' <> []) /\
  (forall s cell,
     In cell (fs_cells (strip_shape (fun s cell => cell_gc s cell =? col) s)) <->
     In cell (fs_cells s) /\ cell_gc s cell <> col) /\
  pw_freeze (applyPower LASER_H col row st) = pw_freeze st /\
  pw_freeze (applyPower LASER_V col row st) = pw_freeze st /\
  applyPower NORMAL col row st = st.
Proof.
  split; [|split; [|split; [|split; [|split; [|split]]]]].
  - intros b. cbn [applyPower pw_blocks].
    rewrite filter_In, negb_true_iff, Z.eqb_neq. tauto.
  - intros s'. apply strip_shapes_spec.
  - intros s cell. rewrite strip_shape_cells, Z.eqb_neq. tauto.
  - intros b. cbn [applyPower pw_blocks].
    rewrite filter_In, negb_true_iff, Z.eqb_neq. tauto.
  - intros s'. apply strip_shapes_spec.
  - intros s cell. rewrite strip_shape_cells, Z.eqb_neq. tauto.
  - auto.
Qed.

Lemma strip_lengths hit cells : forall types,
  length (snd (strip hit cells types)) = length (fst (strip hit cells types)).
Proof.
  induction cells as [|cell cells IH]; intros types; simpl; [reflexivity|].
  specialize (IH (tl types)).
  destruct (strip hit cells (tl types)) as [nc nt]. simpl in *.
  destruct (hit cell); simpl; congruence.
Qed.

Lemma strip_none hit cells : forall types,
  (forall cell, In cell cells -> hit cell = false) ->
  length types = length cells ->
  strip hit cells types = (cells, types).
Proof.
  induction cells as [|cell cells IH]; intros types Hall Hlen; simpl.
  - destruct types; [reflexivity | discriminate].
  - destruct types as [|t types]; [discriminate|]. simpl in *.
    rewrite IH; [|intros; apply Hall; now right | congruence].
    now rewrite (Hall cell (or_introl eq_refl)).
Qed.

Lemma strip_shape_twice hit s :
  (forall s1 s2 cell, fs_x s1 = fs_x s2 -> fs_y s1 = fs_y s2 ->
     hit s1 cell = hit s2 cell) ->
  strip_shape hit (strip_shape hit s) = strip_shape hit s.
Proof.
  intros Hext.
  destruct (strip_shape_spec hit s) as (Hx & Hy & Hv & Hc & _).
  assert (Hlen : length (fs_types (strip_shape hit s)) =
                 length (fs_cells (strip_shape hit s))).
  { unfold strip_shape.
    pose proof (strip_lengths (hit s) (fs_cells s) (fs_types s)) as H.
    destruct (strip (hit s) (fs_cells s) (fs_types s)). exact H. }
  unfold strip_shape at 1.
  rewrite strip_none; [now destruct (strip_shape hit s)| |exact Hlen].
  intros cell Hcell. rewrite (Hext _ s cell Hx Hy).
  now apply strip_shape_cells in Hcell.
Qed.

Lemma filter_idem {A} (f : A -> bool) l : filter f (filter f l) = filter f l.
Proof.
  induction l as [|a l IH]; simpl; [reflexivity|].
  destruct (f a) eqn:E; simpl; [rewrite E; now f_equal | exact IH].
Qed.

Lemma strip_shapes_twice hit shapes :
  (forall s1 s2 cell, fs_x s1 = fs_x s2 -> fs_y s1 = fs_y s2 ->
     hit s1 cell = hit s2 cell) ->
  strip_shapes hit (strip_shapes hit shapes) = strip_shapes hit shapes.
Proof.
  intros Hext. unfold strip_shapes at 1.
  rewrite (map_ext_in _ (fun s => s)).
  - rewrite map_id. unfold strip_shapes. apply filter_idem.
  - intros s' Hs'. apply strip_shapes_spec in Hs' as [s (_ & -> & _)].
    now apply strip_shape_twice.
Qed.

(** X8: a power effect applied twice at the same cell does what it does
    once: nothing is left for the second application to remove. *)
Theorem applyPower_idempotent (type : BlockType) (col row : Z)
    (st : power_state) :
  applyPower type col row (applyPower type col row st) =
  applyPower type col row st.
Proof.
  destruct type; cbn [applyPower pw_blocks pw_shapes pw_freeze];
    try reflexivity; rewrite filter_idem; f_equal;
    apply strip_shapes_twice; intros s1 s2 cell Hx Hy;
    unfold cell_gc, cell_gr; rewrite ?Hx, ?Hy; reflexivity.
Qed.

(** * Further properties of the falling-shape update *)

Lemma update_falling_fold occ dt shapes : forall blocks newShapes,
  fold_left (update_shape occ dt) shapes (blocks, newShapes) =
  (blocks ++
   flat_map (fun s => landed_blocks (set_y s (finalY (landing occ dt s))))
            (filter (fun s => landed (landing occ dt s)) shapes),
   newShapes ++
   map (fun s => set_y s (new_y dt s))
       (filter (fun s => negb (landed (landing occ dt s))) shapes)).
Proof.
  induction shapes as [|s shapes IH]; intros blocks newShapes; cbn [fold_left].
  - simpl. now rewrite !app_nil_r.
  - unfold update_shape at 2. cbn [filter].
    destruct (landed (landing occ dt s)) eqn:E; cbn [negb].
    + rewrite IH. cbn [flat_map]. now rewrite <- app_assoc.
    + rewrite IH. cbn [map]. now rewrite <- app_assoc.
Qed.

Lemma update_falling_eq dt blocks shapes :
  update_falling dt blocks shapes =
  (blocks ++
   flat_map (fun s => landed_blocks
                        (set_y s (finalY (landing (buildOcc blocks) dt s))))
            (filter (fun s => landed (landing (buildOcc blocks) dt s)) shapes),
   map (fun s => set_y s (new_y dt s))
       (filter (fun s => negb (landed (landing (buildOcc blocks) dt s))) shapes)).
Proof. unfold update_falling. now rewrite update_falling_fold. Qed.

(** X9: the falling update handles every shape on its own, against the
    grid built from the blocks it was given.  The old blocks stay, in
    order, in front of the blocks of the landed shapes; the shapes with a
    landing candidate are converted, the others move by [speed * dt] and
    stay in order; every added block is in the grid. *)
Theorem update_falling_independent (dt : Q) (blocks : list Block)
    (shapes : list FallingShape) :
  let occ := buildOcc blocks in
  let lands := fun s => landed (landing occ dt s) in
  update_falling dt blocks shapes =
    (blocks ++
     flat_map (fun s => landed_blocks (set_y s (finalY (landing occ dt s))))
              (filter lands shapes),
     map (fun s => set_y s (new_y dt s))
         (filter (fun s => negb (lands s)) shapes)) /\
  (forall s, lands s = true <-> candidates occ dt s <> []) /\
  (forall b, In b (fst (update_falling dt blocks shapes)) ->
     In b blocks \/ in_grid (bcol b) (brow b) = true) /\
  (length (snd (update_falling dt blocks shapes)) +
   length (filter lands shapes) = length shapes)%nat.
Proof.
  intros occ lands.
  assert (E : update_falling dt blocks shapes =
    (blocks ++
     flat_map (fun s => landed_blocks (set_y s (finalY (landing occ dt s))))
              (filter lands shapes),
     map (fun s => set_y s (new_y dt s))
         (filter (fun s => negb (lands s)) shapes))).
  { apply update_falling_eq. }
  split; [exact E|]. split; [|split].
  - intros s. apply (landing_min occ dt s).
  - rewrite E. cbn [fst]. intros b Hb. apply in_app_iff in Hb as [Hb | Hb];
      [now left|]. right.
    apply in_flat_map in Hb as [s [_ Hb]]. unfold landed_blocks in Hb.
    now apply filter_In in Hb.
  - rewrite E. cbn [snd]. rewrite length_map.
    clear E. induction shapes as [|s shapes IH]; simpl; [reflexivity|].
    destruct (lands s); simpl; lia.
Qed.

(** X10: where a shape lands.  The landing position is a whole number of
    cells, and every block made of the shape lies in the grid, in the
    column scanned for its cell and on the row of the landing position
    plus the row offset of the cell. *)
Theorem landing_position (occ : grid bool) (dt : Q) (s : FallingShape) :
  landed (landing occ dt s) = true ->
  exists m,
    (finalY (landing occ dt s) == of_int (m * CELL))%Q /\
    (forall b, In b (landed_blocks (set_y s (finalY (landing occ dt s)))) ->
       in_grid (bcol b) (brow b) = true /\
       exists cell, In cell (fs_cells s) /\
         bcol b = cell_column s cell /\ brow b = m + pt_y cell).
Proof.
  intros Hland.
  destruct (landing_min occ dt s) as (_ & Hin & _). specialize (Hin Hland).
  destruct (candidate_multiple occ dt s _ Hin) as [m Hm].
  exists m. split; [exact Hm|].
  intros b Hb. unfold landed_blocks in Hb. apply filter_In in Hb as [Hb Hg].
  split; [exact Hg|]. cbn [set_y fs_cells fs_types] in Hb.
  apply in_map_iff in Hb as [ct [<- Hct]]. exists (fst ct).
  split; [now apply In_with_types in Hct|].
  split; [apply block_column | now apply block_row].
Qed.

Lemma landing_position_witness :
  exists m,
    (finalY (landing (buildOcc floor_block) (1 # 20) clear_shape)
     == of_int (m * CELL))%Q /\
    forall b,
      In b (landed_blocks
              (set_y clear_shape
                 (finalY (landing (buildOcc floor_block) (1 # 20) clear_shape)))) ->
      in_grid (bcol b) (brow b) = true.
Proof.
  destruct (landing_position (buildOcc floor_block) (1 # 20) clear_shape)
    as [m (H1 & H2)].
  - vm_compute. reflexivity.
  - exists m. split; [exact H1|]. intros b Hb. exact (proj1 (H2 b Hb)).
Defined.

(** X11: a shape that keeps falling has reached nothing.  When the update
    finds no landing candidate the shape moves to the unclamped new
    position, where every cell's bottom edge is strictly above the floor,
    and no occupied tile of a cell's column has its top edge in the
    interval the cell's bottom edge swept. *)
Theorem still_falling (occ : grid bool) (dt : Q) (s : FallingShape) :
  landed (landing occ dt s) = false ->
  finalY (landing occ dt s) = new_y dt s /\
  forall cell, In cell (fs_cells s) ->
    (bottom_at (new_y dt s) cell < of_int SCREEN_HEIGHT)%Q /\
    forall r, 0 <= r < ROWS -> 0 <= cell_column s cell < COLS ->
      occ r (cell_column s cell) = true ->
      ~ (bottom_at (fs_y s) cell <= of_int (r * CELL) /\
         of_int (r * CELL) <= bottom_at (new_y dt s) cell)%Q.
Proof.
  intros Hnot.
  destruct (landing_min occ dt s) as (Hl & _ & _ & Hfy).
  assert (Hnone : candidates occ dt s = []).
  { destruct (candidates occ dt s) eqn:E; [reflexivity|].
    assert (landed (landing occ dt s) = true) by (apply Hl; discriminate).
    congruence. }
  split; [now apply Hfy|]. intros cell Hcell. split.
  - apply Qnot_le_lt. intros Hge.
    assert (Hin : In (of_int (SCREEN_HEIGHT - (pt_y cell + 1) * CELL))
                     (candidates occ dt s)).
    { apply In_candidates. exists cell. split; [exact Hcell | now left]. }
    now rewrite Hnone in Hin.
  - intros r Hr Hc Ho [H1 H2].
    assert (Hin : In (of_int (r * CELL) - of_int ((pt_y cell + 1) * CELL))%Q
                     (candidates occ dt s)).
    { apply In_candidates. exists cell. split; [exact Hcell|]. right.
      exists r. auto 8. }
    now rewrite Hnone in Hin.
Qed.

Lemma still_falling_witness :
  landed (landing (buildOcc floor_block) (1 # 20)
            (mkShape 0 90 220 [mkPoint 0 0] [NORMAL])) = false /\
  finalY (landing (buildOcc floor_block) (1 # 20)
            (mkShape 0 90 220 [mkPoint 0 0] [NORMAL])) =
  new_y (1 # 20) (mkShape 0 90 220 [mkPoint 0 0] [NORMAL]).
Proof.
  assert (H : landed (landing (buildOcc floor_block) (1 # 20)
                        (mkShape 0 90 220 [mkPoint 0 0] [NORMAL])) = false)
    by (vm_compute; reflexivity).
  split; [exact H|].
  exact (proj1 (still_falling (buildOcc floor_block) (1 # 20)
                  (mkShape 0 90 220 [mkPoint 0 0] [NORMAL]) H)).
Defined.




(** * The game-over state and the timers *)

Lemma phase_fall_gameOver dt g : gameOver (phase_fall dt g) = gameOver g.
Proof.
  unfold phase_fall. destruct (gameOver g) eqn:E; [exact E|].
  destruct (frozen g); [exact E|].
  now destruct (update_falling dt (staticBlocks g) (fallingShapes g)).
Qed.

Lemma phase_row_clear_gameOver g : gameOver (phase_row_clear g) = gameOver g.
Proof. unfold phase_row_clear. now destruct (gameOver g) eqn:E. Qed.

Lemma phase_resolve_gameOver v player g :
  gameOver (phase_resolve v player g) = gameOver g.
Proof.
  unfold phase_resolve. destruct (gameOver g) eqn:E; [exact E|].
  destruct (Qleb (freezeTimer g) 0); [|exact E].
  now destruct (resolveFloatingClusters _ _ _ _ _ _ _).
Qed.

Lemma tick_running i g :
  gameOver g = false ->
  exists g6, gameOver g6 = false /\ tick i g = phase_game_over g6.
Proof.
  intros Hgo. unfold tick.
  assert (H1 : gameOver (phase_timers (clamp_dt (in_dt i)) g) = false) by exact Hgo.
  rewrite H1. cbn [andb]. eexists. split; [|reflexivity].
  rewrite phase_resolve_gameOver, phase_row_clear_gameOver.
  apply phase_break_facts. rewrite phase_fall_gameOver.
  now rewrite (proj2 (proj2 (phase_spawn_facts _ _ _ _))).
Qed.

(** X13: the game-over check.  At the end of a turn of a running game the
    game is over exactly when a static block stands on row 0 or above
    it. *)
Theorem game_over_check (i : input) (g : game) :
  gameOver g = false ->
  (gameOver (tick i g) = true <->
   exists b, In b (staticBlocks (tick i g)) /\ brow b <= 0).
Proof.
  intros Hgo. destruct (tick_running i g Hgo) as [g6 [H6 ->]].
  unfold phase_game_over. rewrite H6. cbn [gameOver staticBlocks].
  rewrite existsb_exists. split; intros [b [Hb H]]; exists b;
    (split; [exact Hb|]); now apply Z.leb_le.
Qed.

Lemma game_over_check_witness :
  gameOver (tick idle_input frozen_game) = true <->
  exists b, In b (staticBlocks (tick idle_input frozen_game)) /\ brow b <= 0.
Proof. apply (game_over_check idle_input frozen_game). reflexivity. Defined.

(** X14: nothing moves once the game is over.  In a turn of a game that
    is over, without the restart key the blocks, the shapes, the elapsed
    time, the spawn timer and the power-up accumulator stay as they are
    and the game stays over (only the cooldowns and the freeze countdown
    decay); with the restart key the turn returns the reset state. *)
Theorem game_over_halts (i : input) (g : game) :
  gameOver g = true ->
  (in_restart i = true -> tick i g = resetGame) /\
  (in_restart i = false ->
     tick i g = phase_timers (clamp_dt (in_dt i)) g /\
     staticBlocks (tick i g) = staticBlocks g /\
     fallingShapes (tick i g) = fallingShapes g /\
     elapsedTime (tick i g) = elapsedTime g /\
     spawnTimer (tick i g) = spawnTimer g /\
     timeSinceLastPowerup (tick i g) = timeSinceLastPowerup g /\
     gameOver (tick i g) = true).
Proof.
  intros Hgo.
  assert (H1 : gameOver (phase_timers (clamp_dt (in_dt i)) g) = true) by exact Hgo.
  split; intros Hr; unfold tick; rewrite H1, Hr; cbn [andb]; [reflexivity|].
  set (g1 := phase_timers (clamp_dt (in_dt i)) g) in *.
  assert (E2 : phase_spawn (clamp_dt (in_dt i)) (fall_speed g1) (in_rand i) g1 = g1)
    by (unfold phase_spawn; now rewrite H1).
  rewrite E2.
  assert (E3 : phase_fall (clamp_dt (in_dt i)) g1 = g1)
    by (unfold phase_fall; now rewrite H1).
  rewrite E3.
  assert (E4 : phase_break i g1 = g1) by (unfold phase_break; now rewrite H1).
  rewrite E4.
  assert (E5 : phase_row_clear g1 = g1) by (unfold phase_row_clear; now rewrite H1).
  rewrite E5.
  assert (E6 : phase_resolve (fall_speed g1) (in_player i) g1 = g1)
    by (unfold phase_resolve; now rewrite H1).
  rewrite E6.
  assert (E7 : phase_game_over g1 = g1) by (unfold phase_game_over; now rewrite H1).
  rewrite E7. unfold g1, phase_timers. rewrite Hgo.
  cbn [staticBlocks fallingShapes elapsedTime spawnTimer timeSinceLastPowerup
       gameOver]. auto 8.
Qed.

Lemma game_over_halts_witness :
  tick (mkInput (1 # 20) true false false false true (mkRect 225 560 30 30) [])
       (mkGame [mkBlock 3 0 NORMAL] [clear_shape] 0 12 0 0 0 0 3 0 true)
  = resetGame /\
  staticBlocks
    (tick idle_input (mkGame [mkBlock 3 0 NORMAL] [clear_shape] 0 12 0 0 0 0 3 0 true))
  = [mkBlock 3 0 NORMAL].
Proof.
  split.
  - apply (game_over_halts
             (mkInput (1 # 20) true false false false true (mkRect 225 560 30 30) [])
             (mkGame [mkBlock 3 0 NORMAL] [clear_shape] 0 12 0 0 0 0 3 0 true));
      reflexivity.
  - apply (game_over_halts idle_input
             (mkGame [mkBlock 3 0 NORMAL] [clear_shape] 0 12 0 0 0 0 3 0 true));
      reflexivity.
Defined.

Lemma clamp_dt_range dt : (0 <= dt -> 0 <= clamp_dt dt <= 1 # 20)%Q.
Proof.
  intros H. unfold clamp_dt. destruct (Qltb (1 # 20) dt) eqn:E.
  - split; [discriminate | apply Qle_refl].
  - split; [exact H|]. apply Qnot_lt_le. intros Hlt.
    apply Qltb_iff in Hlt. congruence.
Qed.

Lemma fmax_cases a b :
  (fmax a b = a /\ (b <= a)%Q) \/ (fmax a b = b /\ (a < b)%Q).
Proof.
  unfold fmax. destruct (Qltb a b) eqn:E.
  - right. split; [reflexivity | now apply Qltb_iff].
  - left. split; [reflexivity|]. apply Qnot_lt_le. intros H.
    apply Qltb_iff in H. congruence.
Qed.

Lemma fmin_cases a b :
  (fmin a b = a /\ (a <= b)%Q) \/ (fmin a b = b /\ (b < a)%Q).
Proof.
  unfold fmin. destruct (Qltb b a) eqn:E.
  - right. split; [reflexivity | now apply Qltb_iff].
  - left. split; [reflexivity|]. apply Qnot_lt_le. intros H.
    apply Qltb_iff in H. congruence.
Qed.

Lemma cooldown_decay cd dt :
  (0 <= dt -> 0 <= cd <= ABILITY_CD -> 0 <= fmax 0 (cd - dt) <= ABILITY_CD)%Q.
Proof.
  intros Hdt [H1 H2]. destruct (fmax_cases 0 (cd - dt)) as [[-> _] | [-> H]].
  - split; [apply Qle_refl | discriminate].
  - split; lra.
Qed.

Lemma phase_timers_ok dt g :
  (0 <= dt)%Q -> timers_ok g ->
  (0 <= cdLeft (phase_timers dt g) <= ABILITY_CD /\
   0 <= cdRight (phase_timers dt g) <= ABILITY_CD /\
   0 <= cdUp (phase_timers dt g) <= ABILITY_CD /\
   0 <= cdDown (phase_timers dt g) <= ABILITY_CD /\
   0 <= freezeTimer (phase_timers dt g) <= FREEZE_DURATION /\
   0 <= spawnTimer (phase_timers dt g) < spawnInterval /\
   0 <= elapsedTime (phase_timers dt g) /\
   0 <= timeSinceLastPowerup (phase_timers dt g))%Q.
Proof.
  intros Hdt (H1 & H2 & H3 & H4 & H5 & H6 & H7 & H8).
  unfold phase_timers.
  cbn [cdLeft cdRight cdUp cdDown freezeTimer spawnTimer elapsedTime
       timeSinceLastPowerup].
  repeat split; try (now apply cooldown_decay); try tauto.
  - destruct (Qltb 0 (freezeTimer g)); [|tauto].
    destruct (Qltb (freezeTimer g - dt) 0) eqn:E; [apply Qle_refl|].
    apply Qnot_lt_le. intros Hlt. apply Qltb_iff in Hlt. congruence.
  - destruct (Qltb 0 (freezeTimer g)); [|tauto].
    destruct (Qltb (freezeTimer g - dt) 0); [discriminate | lra].
  - destruct (gameOver g); [tauto | lra].
  - destruct (gameOver g); [tauto | lra].
Qed.

Lemma spawn_shape_since v since rng :
  snd (spawn_shape v since rng) = since \/ snd (spawn_shape v since rng) = 0%Q.
Proof.
  unfold spawn_shape.
  destruct (next_rand rng) as [r1 rng1].
  destruct (shape_dims (Z.rem r1 5)) as [w h].
  destruct (if COLS - w >? 0
            then let '(r2, rng0) := next_rand rng1 in (Z.rem r2 (COLS - w + 1), rng0)
            else (0, rng1)) as [col rng2].
  destruct (if Qleb POWERUP_MAX_GAP since
            then let '(r3, rng0) := next_rand rng2 in (true, Z.rem r3 (w * h), rng0)
            else
              let '(r3, rng0) := next_rand rng2 in
              if Z.rem r3 100 <? 7
              then let '(r4, rng3) := next_rand rng0 in (true, Z.rem r4 (w * h), rng3)
              else (false, -1, rng0)) as [[mk idx] rng3].
  destruct (mk && (w * h >? 0)).
  - destruct (next_rand rng3). now right.
  - now left.
Qed.

Lemma break_dir_cd pressed tc tr cd st :
  fst (break_dir pressed tc tr cd st) = cd \/
  fst (break_dir pressed tc tr cd st) = ABILITY_CD.
Proof.
  unfold break_dir. destruct pressed; [|now left].
  unfold breakAt. cbn [bk_cd bk_blocks].
  destruct (Qltb 0 cd); [now left|].
  destruct ((tc <? 0) || (tc >=? COLS) || (tr <? 0) || (tr >=? ROWS)); [now left|].
  destruct (erase_first tc tr (pw_blocks (fst st))) as [[t rest]|];
    [now right | now left].
Qed.

Lemma phase_break_timers i g :
  (cdLeft (phase_break i g) = cdLeft g \/ cdLeft (phase_break i g) = ABILITY_CD) /\
  (cdRight (phase_break i g) = cdRight g \/ cdRight (phase_break i g) = ABILITY_CD) /\
  (cdUp (phase_break i g) = cdUp g \/ cdUp (phase_break i g) = ABILITY_CD) /\
  (cdDown (phase_break i g) = cdDown g \/ cdDown (phase_break i g) = ABILITY_CD) /\
  (freezeTimer (phase_break i g) = freezeTimer g \/
   freezeTimer (phase_break i g) = FREEZE_DURATION) /\
  spawnTimer (phase_break i g) = spawnTimer g /\
  elapsedTime (phase_break i g) = elapsedTime g /\
  timeSinceLastPowerup (phase_break i g) = timeSinceLastPowerup g.
Proof.
  destruct (gameOver g) eqn:Hgo.
  - unfold phase_break. rewrite Hgo. auto 12.
  - destruct (phase_break_facts i g Hgo) as (_ & _ & Hz & _).
    split; [|split; [|split; [|split; [|split; [exact Hz|]]]]];
      unfold phase_break; rewrite Hgo;
      set (pCol := Z.quot (rx (in_player i)) CELL);
      set (pRow := Z.quot (ry (in_player i)) CELL);
      set (st0 := (mkPower (staticBlocks g) (fallingShapes g) (freezeTimer g),
                   NORMAL));
      pose proof (break_dir_cd (in_left i) (pCol - 1) pRow (cdLeft g) st0) as F1;
      destruct (break_dir (in_left i) (pCol - 1) pRow (cdLeft g) st0) as [cdL st1];
      pose proof (break_dir_cd (in_right i) (pCol + 1) pRow (cdRight g) st1) as F2;
      destruct (break_dir (in_right i) (pCol + 1) pRow (cdRight g) st1) as [cdR st2];
      pose proof (break_dir_cd (in_up i) pCol (pRow - 1) (cdUp g) st2) as F3;
      destruct (break_dir (in_up i) pCol (pRow - 1) (cdUp g) st2) as [cdU st3];
      pose proof (break_dir_cd (in_down i) pCol (pRow + 1) (cdDown g) st3) as F4;
      destruct (break_dir (in_down i) pCol (pRow + 1) (cdDown g) st3) as [cdD st4];
      cbn [fst cdLeft cdRight cdUp cdDown spawnTimer elapsedTime
           timeSinceLastPowerup] in *; auto.
Qed.

Lemma phase_spawn_timers dt v rng g :
  (0 <= dt)%Q -> timers_ok g -> timers_ok (phase_spawn dt v rng g).
Proof.
  intros Hdt H. unfold phase_spawn. destruct (gameOver g); [exact H|].
  destruct H as (H1 & H2 & H3 & H4 & H5 & H6 & H7 & H8).
  destruct (Qleb spawnInterval (spawnTimer g + dt)) eqn:E.
  - pose proof (spawn_shape_since v (timeSinceLastPowerup g) rng) as Hs.
    destruct (spawn_shape v (timeSinceLastPowerup g) rng) as [fs since].
    cbn [snd] in Hs. unfold timers_ok.
    cbn [cdLeft cdRight cdUp cdDown freezeTimer spawnTimer elapsedTime
         timeSinceLastPowerup].
    repeat split; try tauto; try (apply Qle_refl); try reflexivity.
    destruct Hs as [-> | ->]; [exact H8 | apply Qle_refl].
  - unfold timers_ok.
    cbn [cdLeft cdRight cdUp cdDown freezeTimer spawnTimer elapsedTime
         timeSinceLastPowerup].
    repeat split; try tauto; try lra.
    apply Qnot_le_lt. intros Hle. apply Qleb_iff in Hle. congruence.
Qed.

Lemma phase_fall_timers dt g : timers_ok g -> timers_ok (phase_fall dt g).
Proof.
  intros H. unfold phase_fall. destruct (gameOver g); [exact H|].
  destruct (frozen g); [exact H|].
  now destruct (update_falling dt (staticBlocks g) (fallingShapes g)).
Qed.

Lemma phase_row_clear_timers g : timers_ok g -> timers_ok (phase_row_clear g).
Proof. intros H. unfold phase_row_clear. now destruct (gameOver g). Qed.

Lemma phase_resolve_timers v player g :
  timers_ok g -> timers_ok (phase_resolve v player g).
Proof.
  intros H. unfold phase_resolve. destruct (gameOver g); [exact H|].
  destruct (Qleb (freezeTimer g) 0); [|exact H].
  now destruct (resolveFloatingClusters _ _ _ _ _ _ _).
Qed.

Lemma phase_game_over_timers g : timers_ok g -> timers_ok (phase_game_over g).
Proof. intros H. unfold phase_game_over. now destruct (gameOver g). Qed.

Lemma phase_break_timers_ok i g : timers_ok g -> timers_ok (phase_break i g).
Proof.
  intros (H1 & H2 & H3 & H4 & H5 & H6 & H7 & H8).
  destruct (phase_break_timers i g) as (B1 & B2 & B3 & B4 & B5 & B6 & B7 & B8).
  unfold timers_ok. rewrite B6, B7, B8.
  assert (Hcd : (0 <= ABILITY_CD <= ABILITY_CD)%Q)
    by (split; [discriminate | apply Qle_refl]).
  assert (Hfd : (0 <= FREEZE_DURATION <= FREEZE_DURATION)%Q)
    by (split; [discriminate | apply Qle_refl]).
  destruct B1 as [-> | ->], B2 as [-> | ->], B3 as [-> | ->], B4 as [-> | ->],
           B5 as [-> | ->]; auto 12.
Qed.

(** X15: the timers stay in range.  With a non-negative elapsed time, a
    turn keeps the four cooldowns between 0 and [ABILITY_CD], the freeze
    countdown between 0 and [FREEZE_DURATION], the spawn timer between 0
    and the spawn interval (excluded) and the two accumulators
    non-negative; the time step used is at most 0.05 and the fall speed
    of the turn is between 220 and 280. *)
Theorem tick_timers (i : input) (g : game) :
  (0 <= in_dt i)%Q -> timers_ok g ->
  timers_ok (tick i g) /\
  (0 <= clamp_dt (in_dt i) <= 1 # 20)%Q /\
  (220 <= fall_speed (phase_timers (clamp_dt (in_dt i)) g) <= 280)%Q.
Proof.
  intros Hdt H.
  pose proof (clamp_dt_range (in_dt i) Hdt) as Hc.
  pose proof (phase_timers_ok (clamp_dt (in_dt i)) g (proj1 Hc) H) as H1.
  split; [|split; [exact Hc|]].
  - unfold tick.
    destruct (gameOver (phase_timers (clamp_dt (in_dt i)) g) && in_restart i).
    + unfold timers_ok, resetGame. simpl.
      repeat split; try discriminate; try reflexivity.
    + apply phase_game_over_timers, phase_resolve_timers, phase_row_clear_timers,
        phase_break_timers_ok, phase_fall_timers, phase_spawn_timers;
        [exact (proj1 Hc) | exact H1].
  - destruct H1 as (_ & _ & _ & _ & _ & _ & He & _).
    unfold fall_speed, baseFall, maxExtra.
    destruct (fmin_cases 60 (elapsedTime (phase_timers (clamp_dt (in_dt i)) g) * 5))
      as [[-> Hle] | [-> Hlt]]; lra.
Qed.

Lemma tick_timers_witness :
  timers_ok (tick idle_input frozen_game) /\
  (220 <= fall_speed (phase_timers (clamp_dt (in_dt idle_input)) frozen_game)
       <= 280)%Q.
Proof.
  destruct (tick_timers idle_input frozen_game) as (H1 & _ & H3).
  - discriminate.
  - unfold timers_ok, frozen_game. simpl.
    repeat split; try discriminate; try reflexivity.
  - split; assumption.
Defined.

(** * The spawned shape *)

Lemma next_rand_nonneg rng :
  Forall (fun r => 0 <= r) rng ->
  0 <= fst (next_rand rng) /\ Forall (fun r => 0 <= r) (snd (next_rand rng)).
Proof.
  intros H. destruct rng as [|r rng]; simpl; [split; [lia | constructor]|].
  inversion H; subst. auto.
Qed.

Lemma shape_dims_cases z :
  shape_dims z = (1, 1) \/ shape_dims z = (2, 1) \/ shape_dims z = (4, 1) \/
  shape_dims z = (1, 2) \/ shape_dims z = (1, 4).
Proof.
  unfold shape_dims.
  destruct (z =? 0); [auto|]. destruct (z =? 1); [auto|].
  destruct (z =? 2); [auto|]. destruct (z =? 3); [auto 6|].
  destruct (z =? 4); auto 6.
Qed.

Lemma In_rect w h cell :
  In cell (flat_map (fun dy => map (fun dx => mkPoint dx dy) (range w)) (range h))
  <-> 0 <= pt_x cell < w /\ 0 <= pt_y cell < h.
Proof.
  rewrite in_flat_map. split.
  - intros [dy [Hdy Hc]]. apply in_map_iff in Hc as [dx [<- Hdx]].
    apply In_range in Hdy, Hdx. simpl. lia.
  - intros [Hx Hy]. exists (pt_y cell). split; [now apply In_range|].
    apply in_map_iff. exists (pt_x cell). split; [apply point_eta | now apply In_range].
Qed.

Lemma NoDup_rect_rows w (rows : list Z) :
  NoDup rows ->
  NoDup (flat_map (fun dy => map (fun dx => mkPoint dx dy) (range w)) rows).
Proof.
  induction rows as [|dy rows IH]; intros H; simpl; [constructor|].
  inversion H as [|? ? Hn Hnd]; subst. apply NoDup_app.
  - apply Injective_map_NoDup; [|apply NoDup_range].
    intros a b E. now inversion E.
  - now apply IH.
  - intros p Hp Hp'. apply in_map_iff in Hp as [dx [<- _]].
    apply in_flat_map in Hp' as [dy' [Hdy' Hp']].
    apply in_map_iff in Hp' as [dx' [E _]]. inversion E; subst. contradiction.
Qed.

Lemma vec_set_length {A} (v : list A) : forall i x,
  length (vec_set v i x) = length v.
Proof.
  induction v as [|a v IH]; intros i x; simpl; [reflexivity|].
  destruct i; simpl; [reflexivity | now rewrite IH].
Qed.

Lemma filter_normal {A} (l : list A) :
  filter (fun t => negb (BlockType_eqb t NORMAL)) (map (fun _ => NORMAL) l) = [].
Proof. induction l; simpl; auto. Qed.

Lemma power_count_normal {A} (l : list A) :
  power_count (map (fun _ => NORMAL) l) = 0%nat.
Proof. unfold power_count. now rewrite filter_normal. Qed.

Lemma power_count_set {A} (l : list A) : forall i t,
  (i < length l)%nat -> t <> NORMAL ->
  power_count (vec_set (map (fun _ => NORMAL) l) i t) = 1%nat.
Proof.
  induction l as [|a l IH]; intros i t Hi Ht; simpl in *; [lia|].
  destruct i.
  - unfold power_count. cbn [filter]. rewrite filter_normal.
    destruct t; try congruence; reflexivity.
  - unfold power_count in *. cbn [filter BlockType_eqb negb].
    apply IH; [lia | exact Ht].
Qed.

Lemma power_of_not_normal t : power_of t <> NORMAL.
Proof.
  unfold power_of. destruct (t =? 0); [discriminate|].
  destruct (t =? 1); [discriminate|]. destruct (t =? 2); discriminate.
Qed.

Lemma length_rect w h :
  0 <= w -> 0 <= h ->
  length (flat_map (fun dy => map (fun dx => mkPoint dx dy) (range w)) (range h))
  = Z.to_nat (w * h).
Proof.
  intros Hw Hh. unfold range at 2.
  replace (Z.to_nat (w * h)) with (Z.to_nat h * Z.to_nat w)%nat by lia.
  generalize (Z.to_nat h) as n. intros n. generalize 0%nat as k.
  induction n as [|n IH]; intros k; simpl; [reflexivity|].
  rewrite length_app, length_map, IH. unfold range. rewrite length_map, length_seq.
  lia.
Qed.

Lemma spawn_col w rng1 :
  1 <= w <= 4 -> Forall (fun r => 0 <= r) rng1 ->
  0 <= fst (if COLS - w >? 0
            then let '(r2, rng) := next_rand rng1 in (Z.rem r2 (COLS - w + 1), rng)
            else (0, rng1)) <= COLS - w /\
  Forall (fun r => 0 <= r)
    (snd (if COLS - w >? 0
          then let '(r2, rng) := next_rand rng1 in (Z.rem r2 (COLS - w + 1), rng)
          else (0, rng1))).
Proof.
  intros Hw Hrng. change COLS with 16 in *.
  destruct (16 - w >? 0) eqn:E; [|rewrite Z.gtb_ltb, Z.ltb_ge in E; lia].
  destruct (next_rand_nonneg rng1 Hrng) as [Hr Hrest].
  destruct (next_rand rng1) as [r2 rng2]. cbn [fst snd] in *.
  split; [|exact Hrest].
  pose proof (Z.rem_bound_pos r2 (16 - w + 1) Hr). lia.
Qed.

Lemma spawn_power since total rng2 :
  1 <= total -> Forall (fun r => 0 <= r) rng2 ->
  let res :=
    if Qleb POWERUP_MAX_GAP since
    then (let '(r3, rng) := next_rand rng2 in (true, Z.rem r3 total, rng))
    else
      let '(r3, rng) := next_rand rng2 in
      if Z.rem r3 100 <? 7
      then (let '(r4, rng) := next_rand rng in (true, Z.rem r4 total, rng))
      else (false, -1, rng) in
  (fst (fst res) = true -> 0 <= snd (fst res) < total) /\
  ((POWERUP_MAX_GAP <= since)%Q -> fst (fst res) = true).
Proof.
  intros Ht Hrng res. unfold res. clear res.
  destruct (next_rand_nonneg rng2 Hrng) as [Hr3 Hrng3].
  destruct (Qleb POWERUP_MAX_GAP since) eqn:E.
  - destruct (next_rand rng2) as [r3 rng3]. cbn [fst snd] in *.
    split; [|reflexivity]. intros _. apply Z.rem_bound_pos; lia.
  - destruct (next_rand rng2) as [r3 rng3]. cbn [fst snd] in *.
    assert (Hno : ~ (POWERUP_MAX_GAP <= since)%Q).
    { intros H. apply Qleb_iff in H. congruence. }
    destruct (Z.rem r3 100 <? 7).
    + destruct (next_rand_nonneg rng3 Hrng3) as [Hr4 _].
      destruct (next_rand rng3) as [r4 rng4]. cbn [fst snd] in *.
      split; [|tauto]. intros _. apply Z.rem_bound_pos; lia.
    + cbn [fst snd]. split; [discriminate | tauto].
Qed.

Lemma spawn_shape_facts (fallSpeed sincePowerup : Q) (rng : list Z) :
  Forall (fun r => 0 <= r) rng ->
  let s := fst (spawn_shape fallSpeed sincePowerup rng) in
  let since' := snd (spawn_shape fallSpeed sincePowerup rng) in
  shape_ok s /\
  fs_speed s = fallSpeed /\
  (exists col w h,
     ((w, h) = (1, 1) \/ (w, h) = (2, 1) \/ (w, h) = (4, 1) \/
      (w, h) = (1, 2) \/ (w, h) = (1, 4)) /\
     0 <= col <= COLS - w /\
     fs_x s = of_int (col * CELL) /\ fs_y s = of_int (- h * CELL) /\
     (forall cell, In cell (fs_cells s) <->
        0 <= pt_x cell < w /\ 0 <= pt_y cell < h) /\
     (forall cell, In cell (fs_cells s) ->
        0 <= col + pt_x cell < COLS /\ (bottom_at (fs_y s) cell <= 0)%Q)) /\
  ((power_count (fs_types s) = 0%nat /\ since' = sincePowerup) \/
   (power_count (fs_types s) = 1%nat /\ since' = 0%Q)) /\
  ((POWERUP_MAX_GAP <= sincePowerup)%Q ->
     power_count (fs_types s) = 1%nat /\ since' = 0%Q).
Proof.
  intros Hrng. unfold spawn_shape.
  destruct (next_rand_nonneg rng Hrng) as [Hr1 Hrng1].
  destruct (next_rand rng) as [r1 rng1]. cbn [fst snd] in Hr1, Hrng1.
  pose proof (shape_dims_cases (Z.rem r1 5)) as Hd.
  destruct (shape_dims (Z.rem r1 5)) as [w h].
  assert (Hwh : 1 <= w <= 4 /\ 1 <= h <= 4 /\ 1 <= w * h <= 4).
  { destruct Hd as [E | [E | [E | [E | E]]]]; inversion E; subst; lia. }
  destruct Hwh as (Hw & Hh & Hwh).
  pose proof (spawn_col w rng1 Hw Hrng1) as [Hcol Hrng2].
  destruct (if COLS - w >? 0
            then let '(r2, rng0) := next_rand rng1 in (Z.rem r2 (COLS - w + 1), rng0)
            else (0, rng1)) as [col rng2]. cbn [fst snd] in Hcol, Hrng2.
  pose proof (spawn_power sincePowerup (w * h) rng2 (proj1 Hwh) Hrng2) as Hp.
  cbv zeta in Hp.
  destruct (if Qleb POWERUP_MAX_GAP sincePowerup
            then let '(r3, rng0) := next_rand rng2 in (true, Z.rem r3 (w * h), rng0)
            else
              let '(r3, rng0) := next_rand rng2 in
              if Z.rem r3 100 <? 7
              then let '(r4, rng3) := next_rand rng0 in (true, Z.rem r4 (w * h), rng3)
              else (false, -1, rng0)) as [[mk idx] rng3].
  cbn [fst snd] in Hp. destruct Hp as [Hidx Hgap].
  set (cells := flat_map (fun dy => map (fun dx => mkPoint dx dy) (range w))
                         (range h)) in *.
  assert (Hlen : length cells = Z.to_nat (w * h)) by (apply length_rect; lia).
  assert (Hcells : forall cell, In cell cells <->
                     0 <= pt_x cell < w /\ 0 <= pt_y cell < h)
    by (intros; apply In_rect).
  assert (Hne : cells <> []).
  { intros E. rewrite E in Hlen. simpl in Hlen. lia. }
  assert (Hnd : NoDup cells) by (apply NoDup_rect_rows, NoDup_range).
  assert (Hal : forall y ty, aligned_x (mkShape (of_int (col * CELL)) y fallSpeed
                                          cells ty)).
  { intros y ty. exists col. reflexivity. }
  assert (Hbot : forall cell, In cell cells ->
            (bottom_at (of_int (- h * CELL)) cell <= 0)%Q).
  { intros cell Hc. apply Hcells in Hc. rewrite q_bottom, q_of_int_mul_CELL.
    rewrite inject_Z_opp.
    assert (H1 : (inject_Z (pt_y cell) + 1 <= inject_Z h)%Q).
    { change 1%Q with (inject_Z 1). rewrite <- inject_Z_plus, <- Zle_Qle. lia. }
    lra. }
  assert (Hfl : forall ty, above_floor (mkShape (of_int (col * CELL))
                                          (of_int (- h * CELL)) fallSpeed cells ty)).
  { intros ty cell Hc. cbn [fs_cells fs_y] in *. specialize (Hbot cell Hc).
    rewrite q_screen. lra. }
  assert (Hgeo :
     exists col0 w0 h0,
       ((w0, h0) = (1, 1) \/ (w0, h0) = (2, 1) \/ (w0, h0) = (4, 1) \/
        (w0, h0) = (1, 2) \/ (w0, h0) = (1, 4)) /\
       0 <= col0 <= COLS - w0 /\
       of_int (col * CELL) = of_int (col0 * CELL) /\
       of_int (- h * CELL) = of_int (- h0 * CELL) /\
       (forall cell, In cell cells <->
          0 <= pt_x cell < w0 /\ 0 <= pt_y cell < h0) /\
       (forall cell, In cell cells ->
          0 <= col0 + pt_x cell < COLS /\
          (bottom_at (of_int (- h * CELL)) cell <= 0)%Q)).
  { exists col, w, h. split; [|split; [exact Hcol|]].
    - destruct Hd as [E | [E | [E | [E | E]]]]; rewrite E; auto 6.
    - split; [reflexivity|]. split; [reflexivity|]. split; [exact Hcells|].
      intros cell Hc. split; [|now apply Hbot]. apply Hcells in Hc. lia. }
  destruct (mk && (w * h >? 0)) eqn:Emk.
  - destruct (next_rand rng3) as [r5 rng4]. cbn [fst snd fs_speed fs_types fs_x fs_y fs_cells].
    apply andb_true_iff in Emk as [Emk _]. specialize (Hidx Emk).
    assert (Hpc : power_count (vec_set (map (fun _ => NORMAL) cells) (Z.to_nat idx)
                                 (power_of (Z.rem r5 4))) = 1%nat).
    { apply power_count_set; [lia | apply power_of_not_normal]. }
    split; [|split; [reflexivity|split; [exact Hgeo|split; [now right|auto]]]].
    unfold shape_ok. cbn [fs_cells fs_types].
    rewrite vec_set_length, length_map. auto 6.
  - cbn [fst snd fs_speed fs_types fs_x fs_y fs_cells].
    assert (Hmk : mk = false).
    { destruct mk; [|reflexivity]. cbn [andb] in Emk.
      rewrite Z.gtb_ltb, Z.ltb_ge in Emk. lia. }
    split; [|split; [reflexivity|split; [exact Hgeo|split]]].
    + unfold shape_ok. cbn [fs_cells fs_types]. rewrite length_map. auto 6.
    + left. split; [apply power_count_normal | reflexivity].
    + intros Hg. specialize (Hgap Hg). congruence.
Qed.

(** X16: the spawned shape.  When [std::rand] returns non-negative values,
    the shape built at a spawn is one of the five rectangles (1x1, 2x1,
    4x1, 1x2, 1x4) with one cell per lattice point of the rectangle; it
    fits between the left and right edges of the grid, starts entirely
    above the top of the screen, has the fall speed of the turn and is
    well formed; it holds at most one power block, and the power-up
    accumulator is reset to 0 exactly when it holds one; after
    [POWERUP_MAX_GAP] seconds without a power-up it holds one. *)
Theorem spawn_shape_ok (fallSpeed sincePowerup : Q) (rng : list Z) :
  Forall (fun r => 0 <= r) rng ->
  let s := fst (spawn_shape fallSpeed sincePowerup rng) in
  let since' := snd (spawn_shape fallSpeed sincePowerup rng) in
  shape_ok s /\
  fs_speed s = fallSpeed /\
  (exists col w h,
     ((w, h) = (1, 1) \/ (w, h) = (2, 1) \/ (w, h) = (4, 1) \/
      (w, h) = (1, 2) \/ (w, h) = (1, 4)) /\
     0 <= col <= COLS - w /\
     fs_x s = of_int (col * CELL) /\ fs_y s = of_int (- h * CELL) /\
     (forall cell, In cell (fs_cells s) <->
        0 <= pt_x cell < w /\ 0 <= pt_y cell < h) /\
     (forall cell, In cell (fs_cells s) ->
        0 <= col + pt_x cell < COLS /\ (bottom_at (fs_y s) cell <= 0)%Q)) /\
  ((power_count (fs_types s) = 0%nat /\ since' = sincePowerup) \/
   (power_count (fs_types s) = 1%nat /\ since' = 0%Q)) /\
  ((POWERUP_MAX_GAP <= sincePowerup)%Q ->
     power_count (fs_types s) = 1%nat /\ since' = 0%Q).
Proof. apply spawn_shape_facts. Qed.

Lemma spawn_shape_ok_witness :
  shape_ok (fst (spawn_shape 230 16 [7; 23; 5; 2])) /\
  power_count (fs_types (fst (spawn_shape 230 16 [7; 23; 5; 2]))) = 1%nat /\
  snd (spawn_shape 230 16 [7; 23; 5; 2]) = 0%Q.
Proof.
  assert (H : Forall (fun r => 0 <= r) [7; 23; 5; 2])
    by (repeat constructor; lia).
  destruct (spawn_shape_ok 230 16 [7; 23; 5; 2] H) as (H1 & _ & _ & _ & H5).
  split; [exact H1|]. apply H5. vm_compute. discriminate.
Defined.

(** * Well-formedness is kept by a turn *)

Lemma set_y_ok s y :
  shape_ok s ->
  (forall cell, In cell (fs_cells s) -> (bottom_at y cell <= of_int SCREEN_HEIGHT)%Q) ->
  shape_ok (set_y s y).
Proof.
  intros (H1 & H2 & H3 & H4 & _) Hy. unfold shape_ok, set_y.
  cbn [fs_cells fs_types]. repeat split; auto.
Qed.

Lemma strip_shape_ok hit s :
  shape_ok s -> fs_cells (strip_shape hit s) <> [] ->
  shape_ok (strip_shape hit s).
Proof.
  intros (_ & H2 & _ & [k Hk] & H5) Hne.
  destruct (strip_shape_spec hit s) as (Hx & Hy & _ & Hc & _).
  split; [exact Hne|]. split; [rewrite Hc; now apply NoDup_filter|].
  split.
  { unfold strip_shape.
    pose proof (strip_lengths (hit s) (fs_cells s) (fs_types s)) as H.
    destruct (strip (hit s) (fs_cells s) (fs_types s)). exact H. }
  split; [exists k; now rewrite Hx|].
  intros cell Hcell. rewrite Hy. apply H5.
  rewrite Hc in Hcell. now apply filter_In in Hcell.
Qed.

Lemma strip_shapes_ok hit shapes :
  (forall s, In s shapes -> shape_ok s) ->
  forall s', In s' (strip_shapes hit shapes) -> shape_ok s'.
Proof.
  intros H s' Hs'. apply strip_shapes_spec in Hs' as [s (Hs & -> & Hne)].
  apply strip_shape_ok; auto.
Qed.

Lemma applyPower_ok type col row st :
  blocks_in_grid (pw_blocks st) ->
  (forall s, In s (pw_shapes st) -> shape_ok s) ->
  blocks_in_grid (pw_blocks (applyPower type col row st)) /\
  (forall s, In s (pw_shapes (applyPower type col row st)) -> shape_ok s).
Proof.
  intros Hb Hs.
  destruct type; cbn [applyPower pw_blocks pw_shapes]; (split; [|
    try exact Hs; try (now apply strip_shapes_ok)]); try exact Hb;
  intros b Hin; apply filter_In in Hin as [Hin _]; now apply Hb.
Qed.

Lemma breakAt_incl tc tr st b :
  In b (bk_blocks (snd (breakAt tc tr st))) -> In b (bk_blocks st).
Proof.
  unfold breakAt. destruct (Qltb 0 (bk_cd st)); [auto|].
  destruct ((tc <? 0) || (tc >=? COLS) || (tr <? 0) || (tr >=? ROWS)); [auto|].
  destruct (erase_first tc tr (bk_blocks st)) as [[t rest]|] eqn:E; [|auto].
  apply erase_first_some in E as (l1 & b0 & l2 & -> & -> & _).
  cbn [snd bk_blocks]. rewrite !in_app_iff. simpl. tauto.
Qed.

Lemma break_dir_ok pressed tc tr cd st :
  blocks_in_grid (pw_blocks (fst st)) ->
  (forall s, In s (pw_shapes (fst st)) -> shape_ok s) ->
  blocks_in_grid (pw_blocks (fst (snd (break_dir pressed tc tr cd st)))) /\
  (forall s, In s (pw_shapes (fst (snd (break_dir pressed tc tr cd st)))) ->
     shape_ok s).
Proof.
  intros Hb Hs. unfold break_dir. destruct pressed; [|cbn [fst snd]; auto].
  pose proof (breakAt_incl tc tr (mkBreak (pw_blocks (fst st)) cd (snd st))) as Hi.
  destruct (breakAt tc tr (mkBreak (pw_blocks (fst st)) cd (snd st))) as [ok bs].
  cbn [snd bk_blocks] in Hi.
  assert (Hb' : blocks_in_grid (bk_blocks bs))
    by (intros b Hin; apply Hb; now apply Hi).
  destruct ok; cbn [fst snd pw_blocks pw_shapes]; [|auto].
  now apply applyPower_ok.
Qed.

Lemma phase_break_ok i g : game_ok g -> game_ok (phase_break i g).
Proof.
  intros [Hb Hs]. unfold phase_break. destruct (gameOver g); [split; auto|].
  set (pCol := Z.quot (rx (in_player i)) CELL).
  set (pRow := Z.quot (ry (in_player i)) CELL).
  set (st0 := (mkPower (staticBlocks g) (fallingShapes g) (freezeTimer g), NORMAL)).
  assert (G0 : blocks_in_grid (pw_blocks (fst st0)) /\
               (forall s, In s (pw_shapes (fst st0)) -> shape_ok s))
    by (split; assumption).
  pose proof (break_dir_ok (in_left i) (pCol - 1) pRow (cdLeft g) st0
                (proj1 G0) (proj2 G0)) as G1.
  destruct (break_dir (in_left i) (pCol - 1) pRow (cdLeft g) st0) as [cdL st1].
  cbn [fst snd] in G1.
  pose proof (break_dir_ok (in_right i) (pCol + 1) pRow (cdRight g) st1
                (proj1 G1) (proj2 G1)) as G2.
  destruct (break_dir (in_right i) (pCol + 1) pRow (cdRight g) st1) as [cdR st2].
  cbn [fst snd] in G2.
  pose proof (break_dir_ok (in_up i) pCol (pRow - 1) (cdUp g) st2
                (proj1 G2) (proj2 G2)) as G3.
  destruct (break_dir (in_up i) pCol (pRow - 1) (cdUp g) st2) as [cdU st3].
  cbn [fst snd] in G3.
  pose proof (break_dir_ok (in_down i) pCol (pRow + 1) (cdDown g) st3
                (proj1 G3) (proj2 G3)) as G4.
  destruct (break_dir (in_down i) pCol (pRow + 1) (cdDown g) st3) as [cdD st4].
  cbn [fst snd] in G4. exact G4.
Qed.

Lemma phase_spawn_ok dt v rng g :
  Forall (fun r => 0 <= r) rng -> game_ok g -> game_ok (phase_spawn dt v rng g).
Proof.
  intros Hrng [Hb Hs]. unfold phase_spawn. destruct (gameOver g); [split; auto|].
  destruct (Qleb spawnInterval (spawnTimer g + dt)); [|split; auto].
  pose proof (spawn_shape_facts v (timeSinceLastPowerup g) rng Hrng) as Hok.
  cbv zeta in Hok. destruct Hok as [Hok _].
  destruct (spawn_shape v (timeSinceLastPowerup g) rng) as [fs since].
  cbn [fst] in Hok. split; [exact Hb|]. cbn [fallingShapes].
  intros s Hin. apply in_app_iff in Hin as [Hin | [<- | []]]; auto.
Qed.

Lemma phase_fall_ok dt g : game_ok g -> game_ok (phase_fall dt g).
Proof.
  intros [Hb Hs]. unfold phase_fall. destruct (gameOver g); [split; auto|].
  destruct (frozen g); [split; auto|].
  rewrite update_falling_eq. split; cbn [staticBlocks fallingShapes].
  - intros b Hin. apply in_app_iff in Hin as [Hin | Hin]; [now apply Hb|].
    apply in_flat_map in Hin as [s [_ Hin]]. unfold landed_blocks in Hin.
    now apply filter_In in Hin.
  - intros s' Hin.
    apply in_map_iff in Hin as [s [<- Hin]]. apply filter_In in Hin as [Hin Hl].
    apply negb_true_iff in Hl. apply set_y_ok; [now apply Hs|].
    intros cell Hcell.
    destruct (landing_min (buildOcc (staticBlocks g)) dt s) as (_ & _ & _ & Hfy).
    rewrite <- (Hfy Hl). now apply final_above_floor.
Qed.

Lemma phase_row_clear_ok g : game_ok g -> game_ok (phase_row_clear g).
Proof.
  intros [Hb Hs]. unfold phase_row_clear. destruct (gameOver g); [split; auto|].
  split; [|exact Hs]. now apply row_clear_keeps_grid.
Qed.

Lemma NoDup_concat_member {A} (L : list (list A)) C :
  NoDup (concat L) -> In C L -> NoDup C.
Proof.
  induction L as [|D L IH]; simpl; [tauto|]. intros H [<- | HC].
  - now apply NoDup_app_remove_r in H.
  - apply IH; [now apply NoDup_app_remove_l in H | exact HC].
Qed.

Lemma floating_shape_ok blocks v pL pR pT pB C :
  In C (components blocks) ->
  supported (buildOcc blocks) C pL pR pT pB = false ->
  shape_ok (shape_of (buildTypeAt blocks) v C).
Proof.
  intros HC Hsup.
  destruct (components_ok blocks) as [Hcells Hnd _ Hne _].
  unfold shape_ok, shape_of. cbn [fs_cells fs_types fs_x fs_y].
  rewrite !length_map. split; [|split; [|split; [reflexivity|split]]].
  - specialize (Hne C HC). destruct C; [congruence | discriminate].
  - apply Injective_map_NoDup.
    + intros p q E. inversion E. apply point_eq; lia.
    + now apply (NoDup_concat_member (components blocks)).
  - exists (min_over pt_x C). reflexivity.
  - intros o Ho. cbn [fs_cells fs_y] in *.
    apply in_map_iff in Ho as [p [<- Hp]].
    destruct (Hcells C p HC Hp) as (Hg & _ & _). apply in_grid_iff in Hg.
    assert (Hrow : pt_y p <> ROWS - 1).
    { intros E. unfold supported in Hsup.
      assert (supported_from (buildOcc blocks) C pL pR pT pB C = true).
      { apply supported_from_iff. exists p. split; [exact Hp|]. left.
        unfold rule_ground. now apply Z.eqb_eq. }
      congruence. }
    rewrite q_bottom, q_of_int_mul_CELL, q_screen. cbn [pt_y].
    unfold Z.sub. rewrite inject_Z_plus, inject_Z_opp.
    assert (H18 : (inject_Z (pt_y p) <= 18)%Q).
    { change 18%Q with (inject_Z 18). rewrite <- Zle_Qle.
      change ROWS with 20 in *. lia. }
    lra.
Qed.

Lemma phase_resolve_ok v player g : game_ok g -> game_ok (phase_resolve v player g).
Proof.
  intros [Hb Hs]. unfold phase_resolve. destruct (gameOver g); [split; auto|].
  destruct (Qleb (freezeTimer g) 0); [|split; auto].
  set (pL := Z.quot (rx player) CELL). set (pR := Z.quot (rx player + rw player - 1) CELL).
  set (pT := Z.quot (ry player) CELL). set (pB := Z.quot (ry player + rh player - 1) CELL).
  pose proof (resolve_eq (staticBlocks g) (fallingShapes g) v pL pR pT pB) as E.
  cbv zeta in E.
  pose proof (resolve_blocks_in_grid (staticBlocks g) (fallingShapes g) v pL pR pT pB)
    as Hgrid.
  destruct (resolveFloatingClusters (staticBlocks g) (fallingShapes g) v pL pR pT pB)
    as [blocks shapes].
  cbn [fst] in Hgrid. inversion E as [[E1 E2]]. clear E.
  split; cbn [staticBlocks fallingShapes].
  - rewrite <- E1. exact Hgrid.
  - intros s Hin. apply in_app_iff in Hin as [Hin | Hin]; [now apply Hs|].
    apply in_map_iff in Hin as [C [<- HC]]. apply filter_In in HC as [HC Hsup].
    apply negb_true_iff in Hsup. now apply (floating_shape_ok _ _ pL pR pT pB).
Qed.

Lemma phase_game_over_ok g : game_ok g -> game_ok (phase_game_over g).
Proof. intros H. unfold phase_game_over. now destruct (gameOver g). Qed.

(** X17: a turn keeps the game well formed.  When all static blocks lie in
    the grid and every falling shape has at least one cell, distinct
    offsets, one type per cell, its origin on a column boundary and no
    cell below the floor, the same holds after a turn (the values of
    [std::rand] being non-negative); the reset state is well formed. *)
Theorem tick_keeps_game_ok (i : input) (g : game) :
  Forall (fun r => 0 <= r) (in_rand i) -> game_ok g ->
  game_ok (tick i g) /\ game_ok resetGame.
Proof.
  intros Hrng H.
  assert (Hreset : game_ok resetGame).
  { split; [intros b [] | intros s []]. }
  split; [|exact Hreset]. unfold tick.
  destruct (gameOver (phase_timers (clamp_dt (in_dt i)) g) && in_restart i);
    [exact Hreset|].
  apply phase_game_over_ok, phase_resolve_ok, phase_row_clear_ok, phase_break_ok,
    phase_fall_ok, phase_spawn_ok; [exact Hrng | exact H].
Qed.

Lemma tick_keeps_game_ok_witness : game_ok (tick idle_input frozen_game).
Proof.
  apply (tick_keeps_game_ok idle_input frozen_game).
  - constructor.
  - split.
    + intros b [<- | []]. reflexivity.
    + intros s [<- | []]. unfold shape_ok, clear_shape. cbn [fs_cells fs_types].
      split; [discriminate|]. split; [repeat constructor; intros []|].
      split; [reflexivity|]. split; [exists 0; reflexivity|].
      intros cell [<- | []]. vm_compute. discriminate.
Defined.

(** * Rectangles and the player *)

Lemma rectsOverlap_iff a b :
  rectsOverlap a b = true <->
  rx a < rx b + rw b /\ rx b < rx a + rw a /\
  ry a < ry b + rh b /\ ry b < ry a + rh a.
Proof.
  unfold rectsOverlap.
  rewrite !andb_true_iff, !Z.ltb_lt, !Z.gtb_ltb, !Z.ltb_lt. tauto.
Qed.

(** X18: for rectangles whose fields and sums [x + w], [y + h] are values
    of [int], [rectsOverlap] is symmetric, it holds whenever the two
    rectangles share a pixel, and for rectangles of positive width and
    height it holds only when they share one. *)
Theorem rectsOverlap_pixels (a b : SDL_Rect) :
  rect_in_range a -> rect_in_range b ->
  rectsOverlap a b = rectsOverlap b a /\
  ((exists x y, in_rect a x y /\ in_rect b x y) -> rectsOverlap a b = true) /\
  (0 < rw a -> 0 < rh a -> 0 < rw b -> 0 < rh b ->
   rectsOverlap a b = true ->
   exists x y, int_range x /\ int_range y /\ in_rect a x y /\ in_rect b x y).
Proof.
  intros Ra Rb. split; [|split].
  - apply eq_true_iff_eq. rewrite !rectsOverlap_iff. tauto.
  - intros (x & y & [Hax Hay] & [Hbx Hby]). apply rectsOverlap_iff. lia.
  - intros Hwa Hha Hwb Hhb H. apply rectsOverlap_iff in H.
    exists (Z.max (rx a) (rx b)), (Z.max (ry a) (ry b)).
    unfold rect_in_range, int_range in *. unfold in_rect, int_range. lia.
Qed.

Lemma rectsOverlap_pixels_witness :
  exists x y, int_range x /\ int_range y /\
              in_rect (mkRect 225 560 30 30) x y /\
              in_rect (block_rect (mkBlock 8 19 NORMAL)) x y.
Proof.
  apply (rectsOverlap_pixels (mkRect 225 560 30 30)
           (block_rect (mkBlock 8 19 NORMAL)));
    try reflexivity; vm_compute; intuition discriminate.
Defined.

Lemma to_int_le q z : (q <= of_int z)%Q -> 0 <= z -> to_int q <= z.
Proof.
  intros Hq Hz. unfold to_int. destruct (Qle_bool 0 q) eqn:E.
  - apply Qfloor_resp_le in Hq. unfold of_int in Hq. now rewrite Qfloor_Z in Hq.
  - assert (Hneg : (q <= 0)%Q).
    { apply Qlt_le_weak, Qnot_le_lt. intros H. apply Qle_bool_iff in H. congruence. }
    apply Qceiling_resp_le in Hneg. change 0%Q with (inject_Z 0) in Hneg.
    rewrite Qceiling_Z in Hneg. lia.
Qed.

Lemma to_int_ge q z : (of_int z <= q)%Q -> z <= 0 -> z <= to_int q.
Proof.
  intros Hq Hz. unfold to_int. destruct (Qle_bool 0 q) eqn:E.
  - apply Qle_bool_iff in E. apply Qfloor_resp_le in E.
    change 0%Q with (inject_Z 0) in E. rewrite Qfloor_Z in E. lia.
  - apply Qceiling_resp_le in Hq. unfold of_int in Hq.
    now rewrite Qceiling_Z in Hq.
Qed.

Lemma v_step_inv oldPy h blocks : forall st,
  blocks_in_grid blocks ->
  to_int oldPy + h <= SCREEN_HEIGHT ->
  (exists z, oldPy = of_int z) ->
  to_int (v_newY st) + h <= SCREEN_HEIGHT ->
  to_int (v_newY (fold_left (v_step oldPy h) blocks st)) + h <= SCREEN_HEIGHT.
Proof.
  induction blocks as [|b blocks IH]; intros st Hg Hold Hz Hst; cbn [fold_left];
    [exact Hst|].
  apply IH; auto; [intros b' Hb'; apply Hg; now right|].
  unfold v_step.
  destruct (negb (rectsOverlap (v_test st) (block_rect b))); [exact Hst|].
  pose proof (Hg b (or_introl eq_refl)) as Hgb. apply in_grid_iff in Hgb.
  change ROWS with 20 in Hgb. change SCREEN_HEIGHT with 600 in *.
  destruct (Qltb 0 (v_vy st) && Qleb (oldPy + of_int h) (of_int (ry (block_rect b)))).
  - cbn [v_newY]. rewrite to_int_of_int. unfold block_rect, CELL. cbn [ry]. lia.
  - destruct (Qltb (v_vy st) 0 &&
              Qleb (of_int (ry (block_rect b) + rh (block_rect b))) oldPy) eqn:E;
      [|exact Hst].
    cbn [v_newY]. rewrite to_int_of_int.
    apply andb_true_iff in E as [_ E]. apply Qleb_iff in E.
    destruct Hz as [z ->]. rewrite to_int_of_int in Hold.
    unfold of_int in E. rewrite <- Zle_Qle in E. lia.
Qed.

(** X19: the player never sinks below the floor.  With the static blocks
    in the grid, a player whose feet are not below the floor before the
    move (and whose height is between 0 and the height of the screen) has
    its feet not below the floor after the move; the move keeps the width
    and the height of the player and records the state of the jump
    key. *)
Theorem player_above_floor (dt : Q) (keys : move_keys) (blocks : list Block)
    (ps : player_state) :
  blocks_in_grid blocks ->
  0 <= rh (player ps) <= SCREEN_HEIGHT ->
  ry (player ps) + rh (player ps) <= SCREEN_HEIGHT ->
  ry (player (move_player dt keys blocks ps)) +
    rh (player (move_player dt keys blocks ps)) <= SCREEN_HEIGHT /\
  rw (player (move_player dt keys blocks ps)) = rw (player ps) /\
  rh (player (move_player dt keys blocks ps)) = rh (player ps) /\
  prevJump (move_player dt keys blocks ps) = key_space keys.
Proof.
  intros Hg Hh Hy. unfold move_player.
  destruct (fold_left _ blocks (_, set_rx (player ps) _)) as [newX hTest].
  cbn [player prevJump set_ry set_rx rx ry rw rh].
  split; [|auto].
  apply v_step_inv; auto.
  - now rewrite to_int_of_int.
  - eauto.
  - cbn [v_newY].
    destruct (Qleb (of_int SCREEN_HEIGHT) _) eqn:E.
    + rewrite to_int_of_int. lia.
    + assert (Hlt : (of_int (ry (player ps)) +
                     ((if key_space keys && negb (prevJump ps) && onGround ps
                       then JUMP_V else playerVy ps) + GRAVITY * dt) * dt
                     <= of_int (SCREEN_HEIGHT - rh (player ps)))%Q).
      { apply Qlt_le_weak, Qnot_le_lt. intros Hle.
        assert (Qleb (of_int SCREEN_HEIGHT)
                  (of_int (ry (player ps)) +
                   ((if key_space keys && negb (prevJump ps) && onGround ps
                     then JUMP_V else playerVy ps) + GRAVITY * dt) * dt +
                   of_int (rh (player ps))) = true).
        { apply Qleb_iff. unfold of_int in *. unfold Z.sub in Hle.
          rewrite inject_Z_plus, inject_Z_opp in Hle. lra. }
        congruence. }
      apply to_int_le in Hlt; lia.
Qed.

Lemma player_above_floor_witness :
  ry (player (move_player (1 # 20) (mkKeys false true true) floor_block
                (mkPlayer (mkRect 225 560 30 30) 0 true false))) +
  rh (player (move_player (1 # 20) (mkKeys false true true) floor_block
                (mkPlayer (mkRect 225 560 30 30) 0 true false)))
  <= SCREEN_HEIGHT.
Proof.
  apply (player_above_floor (1 # 20) (mkKeys false true true) floor_block
           (mkPlayer (mkRect 225 560 30 30) 0 true false)).
  - intros b [<- | []]. reflexivity.
  - cbn. change SCREEN_HEIGHT with 600. lia.
  - cbn. change SCREEN_HEIGHT with 600. lia.
Defined.

(** * The horizontal move *)

Lemma h_loop_free vx w blocks : forall newX hTest,
  (forall b, In b blocks -> rectsOverlap hTest (block_rect b) = false) ->
  fold_left (h_step vx w) blocks (newX, hTest) = (newX, hTest).
Proof.
  induction blocks as [|b blocks IH]; intros newX hTest H; cbn [fold_left];
    [reflexivity|].
  unfold h_step at 2. rewrite (H b (or_introl eq_refl)).
  apply IH. intros b' Hb'. apply H. now right.
Qed.

(** X20: the player stays between the left and right edges of the screen
    when no block is at its height: whatever the keys and the elapsed
    time, with a width between 0 and the width of the screen and no
    static block whose rows of pixels meet those of the player, the left
    edge of the player after the move is between 0 and
    [SCREEN_WIDTH - w]. *)
Theorem player_stays_on_screen (dt : Q) (keys : move_keys)
    (blocks : list Block) (ps : player_state) :
  0 <= rw (player ps) <= SCREEN_WIDTH ->
  (forall b, In b blocks ->
     (brow b + 1) * CELL <= ry (player ps) \/
     ry (player ps) + rh (player ps) <= brow b * CELL) ->
  0 <= rx (player (move_player dt keys blocks ps))
    <= SCREEN_WIDTH - rw (player ps).
Proof.
  intros Hw Hfree. unfold move_player.
  set (vx := if key_d keys
             then ((if key_a keys then (0 - playerSpeed)%Q else 0%Q) + playerSpeed)%Q
             else (if key_a keys then (0 - playerSpeed)%Q else 0%Q)).
  set (newX0 := (of_int (rx (player ps)) + vx * dt)%Q).
  set (newX1 := if Qltb newX0 0 then 0%Q else newX0).
  set (newX2 := if Qltb (of_int SCREEN_WIDTH) (newX1 + of_int (rw (player ps)))
                then of_int (SCREEN_WIDTH - rw (player ps)) else newX1).
  rewrite h_loop_free.
  - cbn [player set_ry set_rx rx].
    assert (H1 : (0 <= newX1)%Q).
    { unfold newX1. destruct (Qltb newX0 0) eqn:E; [apply Qle_refl|].
      apply Qnot_lt_le. intros H. apply Qltb_iff in H. congruence. }
    assert (H2 : (0 <= newX2 <= of_int (SCREEN_WIDTH - rw (player ps)))%Q).
    { unfold newX2.
      destruct (Qltb (of_int SCREEN_WIDTH) (newX1 + of_int (rw (player ps)))) eqn:E.
      - split; [|apply Qle_refl]. unfold of_int. change 0%Q with (inject_Z 0).
        rewrite <- Zle_Qle. lia.
      - split; [exact H1|].
        assert (Hle : (newX1 + of_int (rw (player ps)) <= of_int SCREEN_WIDTH)%Q).
        { apply Qnot_lt_le. intros H. apply Qltb_iff in H. congruence. }
        unfold of_int, Z.sub in *. rewrite inject_Z_plus, inject_Z_opp. lra. }
    split.
    + apply (to_int_ge newX2 0); [apply H2 | lia].
    + apply to_int_le; [apply H2 | lia].
  - intros b Hb. destruct (Hfree b Hb) as [H | H];
      destruct (rectsOverlap (set_rx (player ps) (to_int newX2)) (block_rect b))
        eqn:E; try reflexivity;
      apply rectsOverlap_iff in E; unfold block_rect, set_rx in E;
      cbn [rx ry rw rh] in E; lia.
Qed.

Lemma player_stays_on_screen_witness :
  0 <= rx (player (move_player (1 # 20) (mkKeys true false false) floor_block
                     (mkPlayer (mkRect 4 300 30 30) 0 false false)))
    <= SCREEN_WIDTH - 30.
Proof.
  apply (player_stays_on_screen (1 # 20) (mkKeys true false false) floor_block
           (mkPlayer (mkRect 4 300 30 30) 0 false false)).
  - cbn. change SCREEN_WIDTH with 480. lia.
  - intros b [<- | []]. right. cbn. unfold CELL. lia.
Defined.

(** * The high scores *)

Lemma insert_desc_perm x l : Permutation (insert_desc x l) (x :: l).
Proof.
  induction l as [|y l IH]; simpl; [reflexivity|].
  destruct (Qltb y x); [reflexivity|].
  rewrite IH. apply perm_swap.
Qed.

Lemma sort_desc_perm l : Permutation (sort_desc l) l.
Proof.
  induction l as [|x l IH]; simpl; [reflexivity|].
  rewrite insert_desc_perm. now constructor.
Qed.

Lemma insert_desc_sorted x l :
  StronglySorted (fun a b => (b <= a)%Q) l ->
  StronglySorted (fun a b => (b <= a)%Q) (insert_desc x l).
Proof.
  induction l as [|y l IH]; intros H; simpl.
  - constructor; constructor.
  - inversion H as [|? ? Hs Hf]; subst.
    destruct (Qltb y x) eqn:E.
    + apply Qltb_iff in E. constructor; [exact H|].
      constructor; [now apply Qlt_le_weak|].
      eapply Forall_impl; [|exact Hf]. intros a Ha. simpl in Ha.
      apply Qle_trans with y; [exact Ha | now apply Qlt_le_weak].
    + assert (Hle : (x <= y)%Q).
      { apply Qnot_lt_le. intros Hlt. apply Qltb_iff in Hlt. congruence. }
      constructor; [now apply IH|].
      eapply Permutation_Forall; [symmetry; apply insert_desc_perm|].
      now constructor.
Qed.

Lemma sort_desc_sorted l : StronglySorted (fun a b => (b <= a)%Q) (sort_desc l).
Proof.
  induction l as [|x l IH]; simpl; [constructor | now apply insert_desc_sorted].
Qed.

Lemma sorted_split (l1 l2 : list Q) :
  StronglySorted (fun a b => (b <= a)%Q) (l1 ++ l2) ->
  StronglySorted (fun a b => (b <= a)%Q) l1 /\
  forall x y, In x l1 -> In y l2 -> (y <= x)%Q.
Proof.
  induction l1 as [|a l1 IH]; simpl; intros H.
  - split; [constructor | intros x y []].
  - inversion H as [|? ? Hs Hf]; subst. destruct (IH Hs) as [H1 H2]. split.
    + constructor; [exact H1|]. apply Forall_app in Hf. tauto.
    + intros x y [<- | Hx] Hy; [|now apply H2].
      rewrite Forall_forall in Hf. apply Hf. apply in_or_app. now right.
Qed.

(** X21: the high scores keep the best five.  After a game, the list is
    in decreasing order, holds [min 5 (n + 1)] times when it held [n],
    and together with the dropped times it is the old list with the new
    time; no dropped time is greater than a kept one. *)
Theorem record_score_top5 (finalTime : Q) (highScores : list Q) :
  length (record_score finalTime highScores) =
    Nat.min 5 (S (length highScores)) /\
  StronglySorted (fun a b => (b <= a)%Q) (record_score finalTime highScores) /\
  exists dropped,
    Permutation (record_score finalTime highScores ++ dropped)
                (finalTime :: highScores) /\
    forall x y, In x (record_score finalTime highScores) -> In y dropped ->
      (y <= x)%Q.
Proof.
  unfold record_score.
  set (l := sort_desc (highScores ++ [finalTime])).
  assert (Hperm : Permutation l (finalTime :: highScores)).
  { unfold l. rewrite sort_desc_perm. rewrite Permutation_app_comm. reflexivity. }
  assert (Hlen : length l = S (length highScores)).
  { now rewrite (Permutation_length Hperm). }
  assert (Hs : StronglySorted (fun a b => (b <= a)%Q) l) by apply sort_desc_sorted.
  destruct (5 <? length l)%nat eqn:E.
  - apply Nat.ltb_lt in E.
    rewrite <- (firstn_skipn 5 l) in Hs, Hperm.
    destruct (sorted_split _ _ Hs) as [H1 H2].
    split; [rewrite length_firstn; lia|]. split; [exact H1|].
    exists (skipn 5 l). split; assumption.
  - apply Nat.ltb_ge in E. split; [lia|]. split; [exact Hs|].
    exists []. rewrite app_nil_r. split; [exact Hperm | intros x y _ []].
Qed.

(** * One block per cell at the end of a turn *)

Lemma break_dir_one_per_cell pressed tc tr cd st :
  one_per_cell (pw_blocks (fst st)) ->
  one_per_cell (pw_blocks (fst (snd (break_dir pressed tc tr cd st)))).
Proof.
  intros H. unfold break_dir. destruct pressed; [|exact H].
  pose proof (breakAt_one_per_cell tc tr
                (mkBreak (pw_blocks (fst st)) cd (snd st)) H) as Hb.
  destruct (breakAt tc tr (mkBreak (pw_blocks (fst st)) cd (snd st))) as [ok bs].
  cbn [snd] in Hb. destruct ok; cbn [fst snd pw_blocks]; [|exact Hb].
  now apply applyPower_one_per_cell.
Qed.

Lemma phase_break_one_per_cell i g :
  one_per_cell (staticBlocks g) -> one_per_cell (staticBlocks (phase_break i g)).
Proof.
  intros H. unfold phase_break. destruct (gameOver g); [exact H|].
  set (pCol := Z.quot (rx (in_player i)) CELL).
  set (pRow := Z.quot (ry (in_player i)) CELL).
  set (st0 := (mkPower (staticBlocks g) (fallingShapes g) (freezeTimer g), NORMAL)).
  pose proof (break_dir_one_per_cell (in_left i) (pCol - 1) pRow (cdLeft g) st0 H)
    as G1.
  destruct (break_dir (in_left i) (pCol - 1) pRow (cdLeft g) st0) as [cdL st1].
  pose proof (break_dir_one_per_cell (in_right i) (pCol + 1) pRow (cdRight g) st1 G1)
    as G2.
  destruct (break_dir (in_right i) (pCol + 1) pRow (cdRight g) st1) as [cdR st2].
  pose proof (break_dir_one_per_cell (in_up i) pCol (pRow - 1) (cdUp g) st2 G2)
    as G3.
  destruct (break_dir (in_up i) pCol (pRow - 1) (cdUp g) st2) as [cdU st3].
  pose proof (break_dir_one_per_cell (in_down i) pCol (pRow + 1) (cdDown g) st3 G3)
    as G4.
  destruct (break_dir (in_down i) pCol (pRow + 1) (cdDown g) st3) as [cdD st4].
  exact G4.
Qed.

Lemma tick_unfold i g :
  gameOver g = false ->
  let dt := clamp_dt (in_dt i) in
  let g1 := phase_timers dt g in
  let g5 := phase_row_clear
              (phase_break i
                 (phase_fall dt (phase_spawn dt (fall_speed g1) (in_rand i) g1))) in
  tick i g = phase_game_over (phase_resolve (fall_speed g1) (in_player i) g5) /\
  gameOver g5 = false.
Proof.
  intros Hgo dt g1 g5. split.
  - unfold tick. fold dt. fold g1.
    assert (H1 : gameOver g1 = false) by exact Hgo.
    now rewrite H1.
  - unfold g5. rewrite phase_row_clear_gameOver.
    apply phase_break_facts. rewrite phase_fall_gameOver.
    now rewrite (proj2 (proj2 (phase_spawn_facts _ _ _ _))).
Qed.

(** X22: one block per cell at the end of a turn.  In a turn of a running
    game that ends with the freeze countdown at 0, the static list has at
    most one block per cell at the end of the turn, whatever it held
    before and whatever landed during the turn; in a turn whose freeze
    countdown is still positive after the decay, a list with at most one
    block per cell stays so. *)
Theorem end_of_turn_one_per_cell (i : input) (g : game) :
  gameOver g = false ->
  ((freezeTimer (tick i g) <= 0)%Q -> one_per_cell (staticBlocks (tick i g))) /\
  (frozen (phase_timers (clamp_dt (in_dt i)) g) = true ->
   one_per_cell (staticBlocks g) -> one_per_cell (staticBlocks (tick i g))).
Proof.
  intros Hgo. destruct (tick_unfold i g Hgo) as [Et Hgo5]. cbv zeta in Et, Hgo5.
  set (dt := clamp_dt (in_dt i)) in *. set (g1 := phase_timers dt g) in *.
  set (g2 := phase_spawn dt (fall_speed g1) (in_rand i) g1) in *.
  set (g5 := phase_row_clear (phase_break i (phase_fall dt g2))) in *.
  assert (Hgo6 : gameOver (phase_resolve (fall_speed g1) (in_player i) g5) = false)
    by now rewrite phase_resolve_gameOver.
  assert (Eb : staticBlocks (tick i g) =
               staticBlocks (phase_resolve (fall_speed g1) (in_player i) g5) /\
               freezeTimer (tick i g) =
               freezeTimer (phase_resolve (fall_speed g1) (in_player i) g5)).
  { rewrite Et. unfold phase_game_over. now rewrite Hgo6. }
  destruct Eb as [Eb Ef]. rewrite Eb, Ef. split.
  - unfold phase_resolve. rewrite Hgo5.
    destruct (Qleb (freezeTimer g5) 0) eqn:E.
    + intros _.
      pose proof (resolve_one_per_cell (staticBlocks g5) (fallingShapes g5)
                    (fall_speed g1)
                    (Z.quot (rx (in_player i)) CELL)
                    (Z.quot (rx (in_player i) + rw (in_player i) - 1) CELL)
                    (Z.quot (ry (in_player i)) CELL)
                    (Z.quot (ry (in_player i) + rh (in_player i) - 1) CELL)) as H.
      destruct (resolveFloatingClusters _ _ _ _ _ _ _). exact H.
    + intros H. apply Qleb_iff in H. congruence.
  - intros Hfr Hone.
    destruct (phase_spawn_facts dt (fall_speed g1) (in_rand i) g1)
      as (Hb2 & Hf2 & Hg2). fold g2 in Hb2, Hf2, Hg2.
    assert (Hfall : phase_fall dt g2 = g2).
    { unfold phase_fall. rewrite Hg2.
      assert (Hfr2 : frozen g2 = true) by (unfold frozen in *; now rewrite Hf2).
      change (gameOver g1) with (gameOver g). now rewrite Hgo, Hfr2. }
    assert (H5 : one_per_cell (staticBlocks g5)).
    { unfold g5. rewrite Hfall. unfold phase_row_clear.
      assert (Hgo4 : gameOver (phase_break i g2) = false).
      { apply phase_break_facts. rewrite Hg2. exact Hgo. }
      rewrite Hgo4. cbn [staticBlocks].
      apply row_clear_one_per_cell, phase_break_one_per_cell.
      rewrite Hb2. exact Hone. }
    unfold phase_resolve. rewrite Hgo5.
    destruct (Qleb (freezeTimer g5) 0); [|exact H5].
    pose proof (resolve_one_per_cell (staticBlocks g5) (fallingShapes g5)
                  (fall_speed g1)
                  (Z.quot (rx (in_player i)) CELL)
                  (Z.quot (rx (in_player i) + rw (in_player i) - 1) CELL)
                  (Z.quot (ry (in_player i)) CELL)
                  (Z.quot (ry (in_player i) + rh (in_player i) - 1) CELL)) as H.
    destruct (resolveFloatingClusters _ _ _ _ _ _ _). exact H.
Qed.

Lemma end_of_turn_one_per_cell_witness :
  one_per_cell
    (staticBlocks
       (tick idle_input
          (mkGame [] [twin_shape; twin_shape] 0 0 0 0 0 0 0 0 false))) /\
  one_per_cell (staticBlocks (tick idle_input frozen_game)).
Proof.
  split.
  - apply (proj1 (end_of_turn_one_per_cell idle_input
                    (mkGame [] [twin_shape; twin_shape] 0 0 0 0 0 0 0 0 false)
                    eq_refl)).
    vm_compute. discriminate.
  - apply (proj2 (end_of_turn_one_per_cell idle_input frozen_game eq_refl)).
    + vm_compute. reflexivity.
    + unfold one_per_cell. simpl. constructor; [intros [] | constructor].
Defined.

(** * One block per cell, step by step *)

Lemma FOP_filter {A} (R : A -> A -> Prop) (p : A -> bool) l :
  ForallOrdPairs R l -> ForallOrdPairs R (filter p l).
Proof.
  induction 1 as [|a l Ha _ IH]; simpl; [constructor|].
  destruct (p a); [|exact IH]. constructor; [|exact IH].
  apply Forall_forall. intros x Hx. apply filter_In in Hx as [Hx _].
  revert x Hx. now apply Forall_forall.
Qed.

Lemma FOP_impl_in {A} (R R' : A -> A -> Prop) l :
  (forall a b, In a l -> In b l -> R a b -> R' a b) ->
  ForallOrdPairs R l -> ForallOrdPairs R' l.
Proof.
  intros Himp H. induction H as [|a l Ha _ IH]; [constructor|].
  constructor.
  - apply Forall_forall. intros x Hx. apply Himp; [now left | now right|].
    revert x Hx. now apply Forall_forall.
  - apply IH. intros x y Hx Hy. apply Himp; now right.
Qed.

Lemma flat_map_one_per_cell {A} (f : A -> list Block) l :
  (forall s, In s l -> one_per_cell (f s)) ->
  ForallOrdPairs
    (fun s1 s2 => forall b1 b2, In b1 (f s1) -> In b2 (f s2) ->
                                cell_of b1 <> cell_of b2) l ->
  one_per_cell (flat_map f l).
Proof.
  intros Hone H. induction H as [|a l Ha _ IH]; [constructor|].
  cbn [flat_map]. unfold one_per_cell. rewrite map_app. apply NoDup_app.
  - apply Hone. now left.
  - apply IH. intros s Hs. apply Hone. now right.
  - intros c Hc Hc'.
    apply in_map_iff in Hc as [b1 [<- Hb1]].
    apply in_map_iff in Hc' as [b2 [E Hb2]].
    apply in_flat_map in Hb2 as [s [Hs Hb2]].
    rewrite Forall_forall in Ha. now apply (Ha s Hs b1 b2).
Qed.

(** The cell a block of a landed shape is made of. *)
Lemma landed_block_cell s y m b :
  (y == of_int (m * CELL))%Q ->
  In b (landed_blocks (set_y s y)) ->
  exists cell, In cell (fs_cells s) /\
    bcol b = cell_column s cell /\ brow b = m + pt_y cell.
Proof.
  intros Hm Hb. unfold landed_blocks in Hb. apply filter_In in Hb as [Hb _].
  cbn [set_y fs_cells fs_types] in Hb.
  apply in_map_iff in Hb as [ct [<- Hct]]. exists (fst ct).
  split; [now apply In_with_types in Hct|].
  split; [apply block_column | now apply block_row].
Qed.

(** The landing position of a shape that lands: a whole number of cells,
    between the position before the move and the unclamped new one. *)
Lemma landing_between occ dt s :
  above_floor s -> landed (landing occ dt s) = true ->
  exists m,
    (finalY (landing occ dt s) == of_int (m * CELL))%Q /\
    (fs_y s <= finalY (landing occ dt s) <= new_y dt s)%Q.
Proof.
  intros Hfloor Hland.
  destruct (landing_min occ dt s) as (_ & Hin & _). specialize (Hin Hland).
  destruct (candidate_multiple occ dt s _ Hin) as [m Hm]. exists m.
  split; [exact Hm|]. split.
  - now apply (candidate_ge_old occ dt).
  - now apply (candidate_le_new occ).
Qed.

(** Shapes in different columns land on different cells. *)
Lemma columns_apart_blocks occ dt s1 s2 b1 b2 :
  (forall c, In c (shape_columns s1) -> ~ In c (shape_columns s2)) ->
  landed (landing occ dt s1) = true -> landed (landing occ dt s2) = true ->
  In b1 (landed_blocks (set_y s1 (finalY (landing occ dt s1)))) ->
  In b2 (landed_blocks (set_y s2 (finalY (landing occ dt s2)))) ->
  cell_of b1 <> cell_of b2.
Proof.
  intros Hcol L1 L2 Hb1 Hb2 Heq.
  destruct (landing_min occ dt s1) as (_ & Hin1 & _).
  destruct (landing_min occ dt s2) as (_ & Hin2 & _).
  destruct (candidate_multiple occ dt s1 _ (Hin1 L1)) as [m1 Hm1].
  destruct (candidate_multiple occ dt s2 _ (Hin2 L2)) as [m2 Hm2].
  destruct (landed_block_cell s1 _ m1 b1 Hm1 Hb1) as (c1 & Hc1 & Hx1 & _).
  destruct (landed_block_cell s2 _ m2 b2 Hm2 Hb2) as (c2 & Hc2 & Hx2 & _).
  unfold cell_of in Heq. inversion Heq as [[Hc Hr]].
  apply (Hcol (cell_column s1 c1)).
  - unfold shape_columns. now apply in_map.
  - rewrite <- Hx1, Hc, Hx2. unfold shape_columns. now apply in_map.
Qed.

(** Shapes that do not overlap and move by at most half a cell land on
    different cells. *)
Lemma cells_apart_blocks occ dt s1 s2 b1 b2 :
  cells_apart s1 s2 ->
  above_floor s1 -> above_floor s2 ->
  (0 <= fs_speed s1 * dt <= 15)%Q -> (0 <= fs_speed s2 * dt <= 15)%Q ->
  landed (landing occ dt s1) = true -> landed (landing occ dt s2) = true ->
  In b1 (landed_blocks (set_y s1 (finalY (landing occ dt s1)))) ->
  In b2 (landed_blocks (set_y s2 (finalY (landing occ dt s2)))) ->
  cell_of b1 <> cell_of b2.
Proof.
  intros Hapart F1 F2 D1 D2 L1 L2 Hb1 Hb2 Heq.
  destruct (landing_between occ dt s1 F1 L1) as (m1 & Hm1 & Hlo1 & Hhi1).
  destruct (landing_between occ dt s2 F2 L2) as (m2 & Hm2 & Hlo2 & Hhi2).
  destruct (landed_block_cell s1 _ m1 b1 Hm1 Hb1) as (c1 & Hc1 & Hx1 & Hy1).
  destruct (landed_block_cell s2 _ m2 b2 Hm2 Hb2) as (c2 & Hc2 & Hx2 & Hy2).
  unfold cell_of in Heq. inversion Heq as [[Hc Hr]].
  assert (Hcol : cell_column s1 c1 = cell_column s2 c2) by congruence.
  assert (Hrow : (inject_Z m1 + inject_Z (pt_y c1) ==
                  inject_Z m2 + inject_Z (pt_y c2))%Q).
  { rewrite <- !inject_Z_plus. rewrite <- Hy1, <- Hy2, Hr. reflexivity. }
  rewrite Hm1 in Hlo1, Hhi1. rewrite Hm2 in Hlo2, Hhi2.
  rewrite q_of_int_mul_CELL in Hlo1, Hhi1, Hlo2, Hhi2.
  unfold new_y in Hhi1, Hhi2.
  destruct (Hapart c1 c2 Hc1 Hc2 Hcol) as [H | H];
    rewrite q_bottom, q_of_int_mul_CELL in H; lra.
Qed.

(** The falling update of a list of shapes that are clear of the static
    tiles: the outcome has one block per cell exactly when the blocks of
    the shapes that land have. *)
Lemma update_falling_one_per_cell dt blocks shapes :
  one_per_cell blocks ->
  (forall s, In s shapes ->
     above_floor s /\ shape_clear (buildOcc blocks) s) ->
  (one_per_cell (fst (update_falling dt blocks shapes)) <->
   one_per_cell (landing_blocks (buildOcc blocks) dt shapes)).
Proof.
  intros H Hok. rewrite update_falling_eq. cbn [fst].
  fold (landing_blocks (buildOcc blocks) dt shapes).
  unfold one_per_cell. rewrite map_app. split.
  - intros Hnd. now apply NoDup_app_remove_l in Hnd.
  - intros Hnd. apply NoDup_app; [exact H | exact Hnd|].
    intros c Hc Hc'.
    apply in_map_iff in Hc as [b0 [<- Hb0]].
    apply in_map_iff in Hc' as [b [E Hb]].
    unfold landing_blocks in Hb. apply in_flat_map in Hb as [s [Hs Hb]].
    apply filter_In in Hs as [Hs Hland].
    destruct (Hok s Hs) as [Hfloor Hclear].
    now apply (landed_block_new blocks dt s b b0 Hclear Hfloor Hland Hb Hb0).
Qed.

Lemma landing_blocks_one_per_cell occ dt shapes :
  (forall s, In s shapes -> NoDup (fs_cells s) /\ aligned_x s) ->
  ForallOrdPairs
    (fun s1 s2 =>
       landed (landing occ dt s1) = true -> landed (landing occ dt s2) = true ->
       forall b1 b2,
         In b1 (landed_blocks (set_y s1 (finalY (landing occ dt s1)))) ->
         In b2 (landed_blocks (set_y s2 (finalY (landing occ dt s2)))) ->
         cell_of b1 <> cell_of b2) shapes ->
  one_per_cell (landing_blocks occ dt shapes).
Proof.
  intros Hok Hpairs. unfold landing_blocks. apply flat_map_one_per_cell.
  - intros s Hs. apply filter_In in Hs as [Hs Hland].
    destruct (Hok s Hs) as [Hnd Hal]. now apply landed_one_per_cell.
  - apply (FOP_filter _ (fun s => landed (landing occ dt s))) in Hpairs.
    revert Hpairs. apply FOP_impl_in.
    intros s1 s2 H1 H2 HR. apply filter_In in H1 as [_ L1].
    apply filter_In in H2 as [_ L2]. now apply HR.
Qed.

(** C2, as the code has it (one block per cell, step by step).  A break,
    a power effect and the row clear keep a block list with at most one
    block per cell that way; cluster resolution returns such a list from
    any block list; the landing conversion of a shape keeps it when the
    shape has distinct offsets, an origin on a column boundary, no bottom
    edge below the floor and no cell over an occupied tile of the grid
    the update was given.  For the whole falling update of a list of such
    shapes, the outcome has one block per cell exactly when the blocks of
    the shapes that land in it stand on different cells; they do when no
    two shapes have a cell in the same column, and when no two shapes
    overlap and every shape moves down by at most half a cell. *)
Theorem one_per_cell_steps (blocks : list Block) :
  one_per_cell blocks ->
  (forall tc tr cd usedType,
     one_per_cell (bk_blocks (snd (breakAt tc tr (mkBreak blocks cd usedType))))) /\
  (forall type col row shapes freeze,
     one_per_cell
       (pw_blocks (applyPower type col row (mkPower blocks shapes freeze)))) /\
  one_per_cell (row_clear blocks) /\
  (forall anyBlocks shapes fallSpeed pL pR pT pB,
     one_per_cell
       (fst (resolveFloatingClusters anyBlocks shapes fallSpeed pL pR pT pB))) /\
  (forall dt s newShapes,
     NoDup (fs_cells s) -> aligned_x s -> above_floor s ->
     shape_clear (buildOcc blocks) s ->
     one_per_cell (fst (update_shape (buildOcc blocks) dt (blocks, newShapes) s))) /\
  (forall dt shapes,
     (forall s, In s shapes ->
        NoDup (fs_cells s) /\ aligned_x s /\ above_floor s /\
        shape_clear (buildOcc blocks) s) ->
     (one_per_cell (fst (update_falling dt blocks shapes)) <->
      one_per_cell (landing_blocks (buildOcc blocks) dt shapes)) /\
     (columns_apart shapes ->
      one_per_cell (fst (update_falling dt blocks shapes))) /\
     (shapes_apart shapes ->
      (forall s, In s shapes -> (0 <= fs_speed s * dt <= 15)%Q) ->
      one_per_cell (fst (update_falling dt blocks shapes)))).
Proof.
  intros H. split; [|split; [|split; [|split; [|split]]]].
  - intros tc tr cd usedType. now apply breakAt_one_per_cell.
  - intros type col row shapes freeze. now apply applyPower_one_per_cell.
  - now apply row_clear_one_per_cell.
  - intros. apply resolve_one_per_cell.
  - intros. now apply update_shape_one_per_cell.
  - intros dt shapes Hok.
    assert (Hiff : one_per_cell (fst (update_falling dt blocks shapes)) <->
                   one_per_cell (landing_blocks (buildOcc blocks) dt shapes)).
    { apply update_falling_one_per_cell; [exact H|].
      intros s Hs. destruct (Hok s Hs) as (_ & _ & Hf & Hc). now split. }
    assert (Hwf : forall s, In s shapes -> NoDup (fs_cells s) /\ aligned_x s).
    { intros s Hs. destruct (Hok s Hs) as (Hn & Ha & _). now split. }
    split; [exact Hiff|]. split.
    + intros Hcols. apply Hiff. apply landing_blocks_one_per_cell; [exact Hwf|].
      revert Hcols. unfold columns_apart. apply FOP_impl_in.
      intros s1 s2 _ _ HR L1 L2 b1 b2.
      now apply columns_apart_blocks.
    + intros Hapart Hmove. apply Hiff.
      apply landing_blocks_one_per_cell; [exact Hwf|].
      revert Hapart. unfold shapes_apart. apply FOP_impl_in.
      intros s1 s2 Hs1 Hs2 HR L1 L2 b1 b2.
      destruct (Hok s1 Hs1) as (_ & _ & F1 & _).
      destruct (Hok s2 Hs2) as (_ & _ & F2 & _).
      now apply (cells_apart_blocks _ dt s1 s2 b1 b2 HR F1 F2
                   (Hmove s1 Hs1) (Hmove s2 Hs2)).
Qed.

Lemma one_per_cell_steps_witness :
  one_per_cell floor_block /\
  one_per_cell (bk_blocks (snd (breakAt 0 19 (mkBreak floor_block 0 NORMAL)))) /\
  one_per_cell (pw_blocks (applyPower BOMB 3 15 (mkPower floor_block [] 0))) /\
  one_per_cell (row_clear floor_block) /\
  one_per_cell (fst (resolveFloatingClusters support_example [] 220 9 9 18 18)) /\
  one_per_cell
    (fst (update_shape (buildOcc floor_block) (1 # 20) (floor_block, [])
            clear_shape)) /\
  fst (update_falling (1 # 20) floor_block [clear_shape; side_shape]) =
    [mkBlock 0 19 NORMAL; mkBlock 0 18 BOMB; mkBlock 1 19 NORMAL] /\
  one_per_cell
    (fst (update_falling (1 # 20) floor_block [clear_shape; side_shape])).
Proof.
  assert (H : one_per_cell floor_block).
  { unfold one_per_cell. simpl. constructor; [intros [] | constructor]. }
  destruct (one_per_cell_steps floor_block H) as (H1 & H2 & H3 & H4 & H5 & H6).
  assert (Hclear : NoDup (fs_cells clear_shape) /\ aligned_x clear_shape /\
                   above_floor clear_shape /\
                   shape_clear (buildOcc floor_block) clear_shape).
  { split; [simpl; constructor; [intros [] | constructor]|].
    split; [exists 0; reflexivity|]. split.
    - intros cell [<- | []]. vm_compute. discriminate.
    - intros cell r [<- | []] Hr Ho.
      apply buildOcc_spec in Ho as [b [[<- | []] (_ & Hrow & _)]].
      simpl in Hrow. subst r. left. vm_compute. discriminate. }
  assert (Hside : NoDup (fs_cells side_shape) /\ aligned_x side_shape /\
                  above_floor side_shape /\
                  shape_clear (buildOcc floor_block) side_shape).
  { split; [simpl; constructor; [intros [] | constructor]|].
    split; [exists 1; reflexivity|]. split.
    - intros cell [<- | []]. vm_compute. discriminate.
    - intros cell r [<- | []] Hr Ho.
      apply buildOcc_spec in Ho as [b [[<- | []] (_ & _ & Hcol)]].
      vm_compute in Hcol. discriminate. }
  split; [exact H|]. split; [apply H1|]. split; [apply H2|].
  split; [exact H3|]. split; [apply H4|].
  split; [now apply H5|].
  split; [vm_compute; reflexivity|].
  destruct (H6 (1 # 20) [clear_shape; side_shape]) as (_ & _ & Hap).
  - intros s [<- | [<- | []]]; assumption.
  - apply Hap.
    + constructor; [|constructor; [constructor | constructor]].
      constructor; [|constructor].
      intros c1 c2 [<- | []] [<- | []] Hcol. vm_compute in Hcol. discriminate.
    + intros s [<- | [<- | []]]; vm_compute; split; discriminate.
Defined.

(** * The freeze *)

(** A break that succeeds: the first block on the target is erased, the
    cooldown is set and the power of the block is applied. *)
Lemma break_dir_break tc tr cd st t rest :
  Qltb 0 cd = false -> in_grid tc tr = true ->
  erase_first tc tr (pw_blocks (fst st)) = Some (t, rest) ->
  break_dir true tc tr cd st =
    (ABILITY_CD,
     (applyPower t tc tr
        (mkPower rest (pw_shapes (fst st)) (pw_freeze (fst st))), t)).
Proof.
  intros Hcd Hg He. unfold break_dir, breakAt. cbn [bk_cd bk_blocks].
  rewrite Hcd, out_of_grid_test, Hg. cbn [negb]. rewrite He. reflexivity.
Qed.

Lemma breaks_freeze_sets pressed tc tr cd st :
  breaks_freeze pressed tc tr cd st ->
  pw_freeze (fst (snd (break_dir pressed tc tr cd st))) = FREEZE_DURATION.
Proof.
  intros (-> & Hcd & Hg & rest & He).
  now rewrite (break_dir_break tc tr cd st FREEZE rest Hcd Hg He).
Qed.

Lemma break_dir_keeps_full pressed tc tr cd st :
  pw_freeze (fst st) = FREEZE_DURATION ->
  pw_freeze (fst (snd (break_dir pressed tc tr cd st))) = FREEZE_DURATION.
Proof.
  intros H. destruct (break_dir_facts pressed tc tr cd st) as (_ & _ & [E | E]);
    congruence.
Qed.

(** The break phase of a running game is the four arrow keys in the
    order left, right, up, down. *)
Lemma phase_break_eq i g :
  gameOver g = false ->
  let pCol := Z.quot (rx (in_player i)) CELL in
  let pRow := Z.quot (ry (in_player i)) CELL in
  let st0 := (mkPower (staticBlocks g) (fallingShapes g) (freezeTimer g), NORMAL) in
  let r1 := break_dir (in_left i) (pCol - 1) pRow (cdLeft g) st0 in
  let r2 := break_dir (in_right i) (pCol + 1) pRow (cdRight g) (snd r1) in
  let r3 := break_dir (in_up i) pCol (pRow - 1) (cdUp g) (snd r2) in
  let r4 := break_dir (in_down i) pCol (pRow + 1) (cdDown g) (snd r3) in
  phase_break i g =
    mkGame (pw_blocks (fst (snd r4))) (pw_shapes (fst (snd r4))) (spawnTimer g)
      (elapsedTime g) (fst r1) (fst r2) (fst r3) (fst r4)
      (timeSinceLastPowerup g) (pw_freeze (fst (snd r4))) false.
Proof.
  intros Hgo pCol pRow st0 r1 r2 r3 r4. unfold phase_break. rewrite Hgo.
  fold pCol pRow st0. fold r1. destruct r1 as [cdL st1]. cbn [snd] in r2.
  fold r2. destruct r2 as [cdR st2]. cbn [snd] in r3.
  fold r3. destruct r3 as [cdU st3]. cbn [snd] in r4.
  fold r4. destruct r4 as [cdD st4]. reflexivity.
Qed.

Lemma phase_row_clear_freeze g :
  freezeTimer (phase_row_clear g) = freezeTimer g.
Proof. unfold phase_row_clear. now destruct (gameOver g). Qed.

Lemma phase_resolve_freeze v player g :
  freezeTimer (phase_resolve v player g) = freezeTimer g.
Proof.
  unfold phase_resolve. destruct (gameOver g); [reflexivity|].
  destruct (Qleb (freezeTimer g) 0); [|reflexivity].
  now destruct (resolveFloatingClusters _ _ _ _ _ _ _).
Qed.

Lemma phase_game_over_freeze g :
  freezeTimer (phase_game_over g) = freezeTimer g.
Proof. unfold phase_game_over. now destruct (gameOver g). Qed.

(** The countdown after the decay at the start of a turn. *)
Lemma frozen_after_decay dt g :
  frozen (phase_timers dt g) = true <->
  (0 < freezeTimer g)%Q /\ (dt < freezeTimer g)%Q.
Proof.
  unfold frozen, phase_timers. cbn [freezeTimer].
  destruct (Qltb 0 (freezeTimer g)) eqn:E0.
  - apply Qltb_iff in E0.
    destruct (Qltb (freezeTimer g - dt) 0) eqn:E1.
    + apply Qltb_iff in E1. split; [discriminate|]. intros [_ H]. lra.
    + rewrite Qltb_iff. split; [intros H; split; [exact E0 | lra]|].
      intros [_ H]. lra.
  - rewrite E0. split; [discriminate|]. intros [H _].
    apply Qltb_iff in H. congruence.
Qed.

Lemma phase_game_over_check g :
  gameOver g = false ->
  (gameOver (phase_game_over g) = true <->
   exists b, In b (staticBlocks (phase_game_over g)) /\ brow b <= 0).
Proof.
  intros Hgo. unfold phase_game_over. rewrite Hgo.
  cbn [gameOver staticBlocks]. rewrite existsb_exists.
  split; intros [b [Hb Hr]]; exists b; (split; [exact Hb|]);
    [now apply Z.leb_le | now apply Z.leb_le].
Qed.

(** C7 (freeze).  In a turn of a running game: a break that succeeds
    erases the first block on the target, sets the cooldown and applies
    the power of the block, and the power of a FREEZE block sets the
    freeze countdown to [FREEZE_DURATION]; when one of the four arrow
    keys breaks a FREEZE block in its turn, the countdown at the end of
    the turn is [FREEZE_DURATION].  When the countdown is positive and
    still positive after the decay at the start of the turn, the falling
    update and the cluster resolution do nothing, while the other phases
    run: the spawn appends its shape when the spawn timer fires, the four
    break actions with their power effects act on the blocks and shapes
    left by the spawn, the row clear is applied to the blocks they leave
    and the game-over check reads the result; every falling shape left
    at the end is at the place and has the speed of a shape present after
    the spawn, no block is added to the static list and the countdown is
    still positive.  A countdown that runs out in the decay of the turn
    freezes nothing in that turn. *)
Theorem freeze_suspends (i : input) (g : game) :
  gameOver g = false ->
  let dt := clamp_dt (in_dt i) in
  let g1 := phase_timers dt g in
  let g2 := phase_spawn dt (fall_speed g1) (in_rand i) g1 in
  let g3 := phase_fall dt g2 in
  let pCol := Z.quot (rx (in_player i)) CELL in
  let pRow := Z.quot (ry (in_player i)) CELL in
  let st0 :=
    (mkPower (staticBlocks g3) (fallingShapes g3) (freezeTimer g3), NORMAL) in
  let st1 := snd (break_dir (in_left i) (pCol - 1) pRow (cdLeft g3) st0) in
  let st2 := snd (break_dir (in_right i) (pCol + 1) pRow (cdRight g3) st1) in
  let st3 := snd (break_dir (in_up i) pCol (pRow - 1) (cdUp g3) st2) in
  let st4 := snd (break_dir (in_down i) pCol (pRow + 1) (cdDown g3) st3) in
  (forall tc tr cd st t rest,
     Qltb 0 cd = false -> in_grid tc tr = true ->
     erase_first tc tr (pw_blocks (fst st)) = Some (t, rest) ->
     break_dir true tc tr cd st =
       (ABILITY_CD,
        (applyPower t tc tr
           (mkPower rest (pw_shapes (fst st)) (pw_freeze (fst st))), t)) /\
     (t = FREEZE ->
      fst (snd (break_dir true tc tr cd st)) =
        mkPower rest (pw_shapes (fst st)) FREEZE_DURATION)) /\
  (breaks_freeze (in_left i) (pCol - 1) pRow (cdLeft g3) st0 \/
   breaks_freeze (in_right i) (pCol + 1) pRow (cdRight g3) st1 \/
   breaks_freeze (in_up i) pCol (pRow - 1) (cdUp g3) st2 \/
   breaks_freeze (in_down i) pCol (pRow + 1) (cdDown g3) st3 ->
   freezeTimer (tick i g) = FREEZE_DURATION) /\
  ((0 < freezeTimer g)%Q -> (dt < freezeTimer g)%Q ->
   let g5 := phase_row_clear (phase_break i g2) in
   frozen g1 = true /\
   g3 = g2 /\
   phase_resolve (fall_speed g1) (in_player i) g5 = g5 /\
   tick i g = phase_game_over g5 /\
   fallingShapes g2 =
     (if Qleb spawnInterval (spawnTimer g + dt)
      then fallingShapes g ++
           [fst (spawn_shape (fall_speed g1) (timeSinceLastPowerup g1)
                   (in_rand i))]
      else fallingShapes g) /\
   staticBlocks g2 = staticBlocks g /\
   staticBlocks (tick i g) = row_clear (pw_blocks (fst st4)) /\
   fallingShapes (tick i g) = pw_shapes (fst st4) /\
   (gameOver (tick i g) = true <->
    exists b, In b (staticBlocks (tick i g)) /\ brow b <= 0) /\
   (forall s', In s' (fallingShapes (tick i g)) ->
      same_place (fallingShapes g2) s') /\
   (length (staticBlocks (tick i g)) <= length (staticBlocks g))%nat /\
   (0 < freezeTimer (tick i g))%Q) /\
  ((0 < freezeTimer g)%Q -> (freezeTimer g <= dt)%Q -> frozen g1 = false).
Proof.
  intros Hgo dt g1 g2 g3 pCol pRow st0 st1 st2 st3 st4.
  assert (Hgo1 : gameOver g1 = false) by exact Hgo.
  destruct (phase_spawn_facts dt (fall_speed g1) (in_rand i) g1)
    as (Hb2 & Hf2 & Hg2). fold g2 in Hb2, Hf2, Hg2.
  assert (Hgo2 : gameOver g2 = false) by congruence.
  assert (Hgo3 : gameOver g3 = false).
  { unfold g3. now rewrite phase_fall_gameOver. }
  pose proof (phase_break_eq i g3 Hgo3) as Hbreak. cbv zeta in Hbreak.
  fold pCol pRow st0 st1 st2 st3 st4 in Hbreak.
  destruct (tick_unfold i g Hgo) as [Htick Hgo5]. cbv zeta in Htick, Hgo5.
  fold dt g1 g2 g3 in Htick, Hgo5.
  assert (Hfz : freezeTimer (tick i g) = pw_freeze (fst st4)).
  { rewrite Htick, phase_game_over_freeze, phase_resolve_freeze,
      phase_row_clear_freeze, Hbreak. reflexivity. }
  split; [|split; [|split]].
  - intros tc tr cd st t rest Hcd Hg He.
    pose proof (break_dir_break tc tr cd st t rest Hcd Hg He) as E.
    split; [exact E|]. intros ->. now rewrite E.
  - intros H. rewrite Hfz. unfold st4, st3, st2, st1.
    destruct H as [H | [H | [H | H]]].
    + do 3 apply break_dir_keeps_full. now apply breaks_freeze_sets.
    + do 2 apply break_dir_keeps_full. now apply breaks_freeze_sets.
    + apply break_dir_keeps_full. now apply breaks_freeze_sets.
    + now apply breaks_freeze_sets.
  - intros Hpos Hdt g5.
    assert (Hfr : frozen g1 = true) by (apply frozen_after_decay; now split).
    assert (Hfr2 : frozen g2 = true) by (unfold frozen in *; now rewrite Hf2).
    assert (Hfall : g3 = g2).
    { unfold g3, phase_fall. now rewrite Hgo2, Hfr2. }
    destruct (phase_break_facts i g2 Hgo2) as (L4 & S4 & Z4 & Hgo4).
    assert (Hfr4 : frozen (phase_break i g2) = true).
    { destruct Z4 as [Z4 | Z4].
      - unfold frozen in *. now rewrite Z4.
      - now apply frozen_FREEZE_DURATION. }
    assert (Hfr5 : frozen g5 = true).
    { unfold g5, phase_row_clear. now rewrite Hgo4. }
    assert (Hgo5' : gameOver g5 = false).
    { unfold g5, phase_row_clear. now rewrite Hgo4. }
    assert (Hres : phase_resolve (fall_speed g1) (in_player i) g5 = g5).
    { unfold phase_resolve. rewrite Hgo5'.
      apply frozen_iff in Hfr5. now rewrite Hfr5. }
    assert (Htick' : tick i g = phase_game_over g5).
    { rewrite Htick, Hfall. fold g5. now rewrite Hres. }
    assert (Hst : staticBlocks (tick i g) = row_clear (pw_blocks (fst st4))).
    { rewrite Htick'. unfold phase_game_over. rewrite Hgo5'.
      cbn [staticBlocks]. unfold g5, phase_row_clear. rewrite Hgo4.
      cbn [staticBlocks]. rewrite <- Hfall, Hbreak. reflexivity. }
    assert (Hsh : fallingShapes (tick i g) = pw_shapes (fst st4)).
    { rewrite Htick'. unfold phase_game_over. rewrite Hgo5'.
      cbn [fallingShapes]. unfold g5, phase_row_clear. rewrite Hgo4.
      cbn [fallingShapes]. rewrite <- Hfall, Hbreak. reflexivity. }
    split; [exact Hfr|]. split; [exact Hfall|]. split; [exact Hres|].
    split; [exact Htick'|]. split; [|split; [exact Hb2|]].
    { unfold g2, phase_spawn. rewrite Hgo1.
      change (spawnTimer g1) with (spawnTimer g).
      destruct (Qleb spawnInterval (spawnTimer g + dt)); [|reflexivity].
      destruct (spawn_shape (fall_speed g1) (timeSinceLastPowerup g1) (in_rand i)).
      reflexivity. }
    split; [exact Hst|]. split; [exact Hsh|]. split.
    { rewrite Htick'. now apply phase_game_over_check. }
    split; [|split].
    + intros s' Hs'. apply S4.
      rewrite Htick' in Hs'. unfold phase_game_over in Hs'.
      rewrite Hgo5' in Hs'. cbn [fallingShapes] in Hs'.
      unfold g5, phase_row_clear in Hs'. rewrite Hgo4 in Hs'. exact Hs'.
    + rewrite Htick'. unfold phase_game_over. rewrite Hgo5'.
      cbn [staticBlocks]. unfold g5, phase_row_clear. rewrite Hgo4.
      cbn [staticBlocks].
      pose proof (row_clear_length (staticBlocks (phase_break i g2))).
      rewrite Hb2 in L4. change (staticBlocks g1) with (staticBlocks g) in L4.
      lia.
    + rewrite Htick', phase_game_over_freeze.
      unfold frozen in Hfr5. now apply Qltb_iff in Hfr5.
  - intros Hpos Hle. destruct (frozen g1) eqn:E; [|reflexivity].
    apply frozen_after_decay in E as [_ E]. lra.
Qed.

Lemma freeze_suspends_witness :
  let dt := clamp_dt (in_dt freeze_input) in
  let g1 := phase_timers dt freeze_scene in
  let g2 := phase_spawn dt (fall_speed g1) (in_rand freeze_input) g1 in
  gameOver freeze_scene = false /\
  freezeTimer (tick freeze_input freeze_scene) = FREEZE_DURATION /\
  phase_fall dt g2 = g2 /\
  tick freeze_input freeze_scene =
    phase_game_over (phase_row_clear (phase_break freeze_input g2)) /\
  length (fallingShapes g2) = 2%nat /\
  (forall s', In s' (fallingShapes (tick freeze_input freeze_scene)) ->
     same_place (fallingShapes g2) s') /\
  staticBlocks (tick freeze_input freeze_scene) = [mkBlock 3 11 NORMAL] /\
  map (fun s => (fs_x s, fs_y s))
      (fallingShapes (tick freeze_input freeze_scene)) =
    [(0, 100); (90, -30)]%Q /\
  gameOver (tick freeze_input freeze_scene) = false.
Proof.
  intros dt g1 g2.
  assert (H1 : gameOver freeze_scene = false) by reflexivity.
  destruct (freeze_suspends freeze_input freeze_scene H1) as (_ & A & B & _).
  assert (HA : freezeTimer (tick freeze_input freeze_scene) = FREEZE_DURATION).
  { apply A. left. split; [reflexivity|]. split; [vm_compute; reflexivity|].
    split; [vm_compute; reflexivity|]. vm_compute. eexists. reflexivity. }
  destruct B as (_ & B2 & _ & B4 & _ & _ & _ & _ & _ & B10 & _).
  - vm_compute. reflexivity.
  - vm_compute. reflexivity.
  - split; [exact H1|]. split; [exact HA|]. split; [exact B2|].
    split; [exact B4|]. split; [vm_compute; reflexivity|].
    split; [exact B10|]. split; [vm_compute; reflexivity|].
    split; vm_compute; reflexivity.
Defined.
